(** * Log capture of the process supervisor: sinks, rotation and fan-out

    A shallow embedding of package [logger] (log.go, log_file.go,
    log_std.go, the discard logger and the composite logger) together with
    the properties of its read, write, rotate and clear operations, and of
    the part of package [config] that reads sizes, section names and
    environment strings.

    Go values are modelled as follows.
    - [int64] and [int] (64-bit platforms) are [Z] with the two's-complement
      wrap-around written out ([wrap64]).
    - [[]byte] and the contents of files are [list ascii]; paths, messages
      and the destination specification are [string].
    - A method with a pointer receiver returns the updated receiver.
    - The operating system is an explicit [World] threaded through every
      call: the named files, a fault oracle saying which system calls fail,
      the data handed to the injected observer, and the standard streams.
    - The injected [sync.Locker] serialises the operations; every method
      below is one critical section, so the lock itself carries no state. *)

From Stdlib Require Import ZArith String Ascii List Lia.
From stdpp Require Import base option list gmap strings pretty.

Local Open Scope Z_scope.

(** ** Machine integers *)

Definition int64_max : Z := 2 ^ 63 - 1.
Definition int64_min : Z := - 2 ^ 63.

(** The value an [int64] holds after an arithmetic result [z]. *)
Definition wrap64 (z : Z) : Z := (z + 2 ^ 63) mod 2 ^ 64 - 2 ^ 63.

Definition in_int64 (z : Z) : Prop := int64_min ≤ z ≤ int64_max.

(** [runtime.maxAlloc] on 64-bit Linux: [make([]byte, n)] panics with
    "makeslice: len out of range" when [n] is negative or exceeds it. *)
Definition maxAlloc : Z := 2 ^ 48.

(** ** Bytes *)

Abbreviation bytes := (list ascii).

(** The bytes of a string literal. *)
Definition B (s : string) : bytes := list_ascii_of_string s.

Definition len (p : bytes) : Z := Z.of_nat (length p).

(** ** Errors and outcomes *)

Inductive errno := ENOENT | EACCES | EPERM | EIO | ENOSPC.

Inductive error :=
| errorString (msg : string)  (* errors.New(msg) and fmt.Errorf(msg) *)
| PathError (e : errno)       (* an error of package os wrapping a system error *)
| ErrInvalid                  (* os.ErrInvalid: method of a nil *os.File *)
| EOF.                        (* io.EOF *)

(** A Go call either returns or panics. *)
Inductive Res (A : Type) :=
| Ret (a : A)
| Panic (msg : string).
Arguments Ret {A} a.
Arguments Panic {A} msg.

(** ** The operating system *)

Inductive syscall :=
| SysStat | SysOpen | SysCreate | SysOpenAppend | SysRename | SysRemove
| SysWrite | SysFstat | SysPread | SysClose.

Inductive Stream := Stdout | Stderr.

Record World := mkWorld {
  (* the regular files, by path *)
  files : gmap string bytes;
  (* the system calls that fail, and with which error *)
  fault : syscall → string → option errno;
  (* the data passed to the injected observer, oldest first *)
  events : list bytes;
  (* what a write to a standard stream answers *)
  stream_write : Stream → bytes → Z * option error;
  (* the writes forwarded to the standard streams, oldest first *)
  forwarded : list (Stream * bytes);
  (* what a write to the syslog connection answers *)
  syslog_write : bytes → Z * option error
}.

Definition set_files (f : gmap string bytes → gmap string bytes) (w : World) : World :=
  mkWorld (f (files w)) (fault w) (events w) (stream_write w) (forwarded w) (syslog_write w).

Definition add_event (data : bytes) (w : World) : World :=
  mkWorld (files w) (fault w) (events w ++ [data]) (stream_write w) (forwarded w) (syslog_write w).

Definition add_forwarded (s : Stream) (data : bytes) (w : World) : World :=
  mkWorld (files w) (fault w) (events w) (stream_write w) (forwarded w ++ [(s, data)]) (syslog_write w).

(** No system call is made to fail. *)
Definition healthy (w : World) : Prop := ∀ c path, fault w c path = None.

(** An open [*os.File]: the path it was opened on, whether it was opened
    with [O_APPEND], and its file position.  A handle whose path has been
    unlinked refers to an orphaned file: writes through it succeed and are
    not visible under any path. *)
Record File := mkFile { f_name : string; f_append : bool; f_pos : nat }.

(** [os.Stat(name)], reduced to the size it reports. *)
Definition os_Stat (name : string) (w : World) : Z + error :=
  match fault w SysStat name with
  | Some e => inr (PathError e)
  | None =>
      match files w !! name with
      | Some c => inl (len c)
      | None => inr (PathError ENOENT)
      end
  end.

(** [os.Create(name)]: open for writing, create if missing, truncate. *)
Definition os_Create (name : string) (w : World) : option File * option error * World :=
  match fault w SysCreate name with
  | Some e => (None, Some (PathError e), w)
  | None => (Some (mkFile name false 0), None, set_files (insert name []) w)
  end.

(** [os.OpenFile(name, os.O_RDWR|os.O_APPEND, 0666)]. *)
Definition os_OpenFile_append (name : string) (w : World) : option File * option error :=
  match fault w SysOpenAppend name with
  | Some e => (None, Some (PathError e))
  | None =>
      match files w !! name with
      | Some _ => (Some (mkFile name true 0), None)
      | None => (None, Some (PathError ENOENT))
      end
  end.

(** [os.Open(name)]: open for reading. *)
Definition os_Open (name : string) (w : World) : File + error :=
  match fault w SysOpen name with
  | Some e => inr (PathError e)
  | None =>
      match files w !! name with
      | Some _ => inl (mkFile name false 0)
      | None => inr (PathError ENOENT)
      end
  end.

(** [os.Rename(src, dst)]: [dst] is replaced. *)
Definition os_Rename (src dst : string) (w : World) : option error * World :=
  match fault w SysRename src with
  | Some e => (Some (PathError e), w)
  | None =>
      match files w !! src with
      | Some c => (None, set_files (λ m, <[dst := c]> (delete src m)) w)
      | None => (Some (PathError ENOENT), w)
      end
  end.

(** [os.Remove(name)]. *)
Definition os_Remove (name : string) (w : World) : option error * World :=
  match fault w SysRemove name with
  | Some e => (Some (PathError e), w)
  | None =>
      match files w !! name with
      | Some _ => (None, set_files (delete name) w)
      | None => (Some (PathError ENOENT), w)
      end
  end.

(** The content of a file after [p] is written at position [pos]: a write
    beyond the end leaves a hole of zero bytes, an empty write changes
    nothing. *)
Definition write_at (c : bytes) (pos : nat) (p : bytes) : bytes :=
  match p with
  | [] => c
  | _ => take pos c ++ replicate (pos - length c) zero ++ p ++ drop (pos + length p) c
  end.

(** [f.Write(p)] on an open file.  With [O_APPEND] the bytes go to the end
    of the file, otherwise to the file position, which advances. *)
Definition File_Write (f : File) (p : bytes) (w : World) : Z * option error * File * World :=
  match fault w SysWrite (f_name f) with
  | Some e => (0, Some (PathError e), f, w)
  | None =>
      if f_append f
      then (len p, None, f, set_files (alter (λ c, c ++ p) (f_name f)) w)
      else (len p, None, mkFile (f_name f) false (f_pos f + length p),
            set_files (alter (λ c, write_at c (f_pos f) p) (f_name f)) w)
  end.

(** [f.Close()]. *)
Definition File_Close (f : File) (w : World) : option error :=
  match fault w SysClose (f_name f) with
  | Some e => Some (PathError e)
  | None => None
  end.

(** [f.Stat()] on an open file, reduced to the size. *)
Definition File_Stat (f : File) (w : World) : Z + error :=
  match fault w SysFstat (f_name f) with
  | Some e => inr (PathError e)
  | None => inl (len (default [] (files w !! f_name f)))
  end.

(** [f.ReadAt(b, off)] with [b] of [n] bytes: the bytes read, and [io.EOF]
    when the file ends before [b] is full.  A buffer of no bytes is never
    read into. *)
Definition File_ReadAt (f : File) (n : Z) (off : Z) (w : World) : bytes * option error :=
  if off <? 0 then ([], Some (errorString "negative offset"))
  else if n <=? 0 then ([], None)
  else
    match fault w SysPread (f_name f) with
    | Some e => ([], Some (PathError e))
    | None =>
        let data := take (Z.to_nat n) (drop (Z.to_nat off) (default [] (files w !! f_name f))) in
        (data, if len data <? n then Some EOF else None)
    end.

(** [make([]byte, n)]: [None] when the runtime panics. *)
Definition make_bytes (n : Z) : option unit :=
  if (n <? 0) || (maxAlloc <? n) then None else Some tt.

(** ** The event observer *)

(** The observer injected at construction, or the one that drops events. *)
Inductive LogEventEmitter := Observer | NullLogEventEmitter.

Definition emitLogEvent (e : LogEventEmitter) (data : bytes) (w : World) : World :=
  match e with
  | Observer => add_event data w
  | NullLogEventEmitter => w
  end.

(** ** FileLogger: the rotating file sink *)

Record FileLogger := mkFileLogger {
  name : string;
  maxSize : Z;
  backups : Z;
  fileSize : Z;
  file : option File;
  logEventEmitter : LogEventEmitter
}.

Definition set_file (f : option File) (l : FileLogger) : FileLogger :=
  mkFileLogger (name l) (maxSize l) (backups l) (fileSize l) f (logEventEmitter l).

Definition set_fileSize (n : Z) (l : FileLogger) : FileLogger :=
  mkFileLogger (name l) (maxSize l) (backups l) n (file l) (logEventEmitter l).

(** [openFile(trunc)]: closes the handle held, then creates the file when
    [trunc] is set or the file cannot be examined, and otherwise records
    its size and opens it for appending.  The message printed on failure
    is not modelled. *)
Definition openFile (l : FileLogger) (trunc : bool) (w : World) : option error * FileLogger * World :=
  match trunc, os_Stat (name l) w with
  | false, inl size =>
      let '(f, err) := os_OpenFile_append (name l) w in
      (err, set_file f (set_fileSize size l), w)
  | _, _ =>
      let '(f, err, w') := os_Create (name l) w in
      (err, set_file f l, w')
  end.

(** [NewFileLogger(name, maxSize, backups, logEventEmitter, locker)]. *)
Definition NewFileLogger (nm : string) (maxSz : Z) (bks : Z) (e : LogEventEmitter) (w : World)
  : FileLogger * World :=
  let '(_, l, w') := openFile (mkFileLogger nm maxSz bks 0 None e) false w in (l, w').

(** [fmt.Sprintf("%s.%d", name, i)]. *)
Definition backupName (nm : string) (i : Z) : string := nm +:+ "." +:+ pretty i.

(** The loop of [backupFiles], from index [i] down to 1. *)
Fixpoint shiftBackups (nm : string) (i : nat) (w : World) : World :=
  match i with
  | O => w
  | S i' =>
      let src := backupName nm (Z.of_nat i) in
      let dest := backupName nm (wrap64 (Z.of_nat i + 1)) in
      let w' := match os_Stat src w with
                | inl _ => snd (os_Rename src dest w)
                | inr _ => w
                end in
      shiftBackups nm i' w'
  end.

(** [backupFiles()]: the errors of the renames are dropped. *)
Definition backupFiles (l : FileLogger) (w : World) : World :=
  let w' := shiftBackups (name l) (Z.to_nat (wrap64 (backups l - 1))) w in
  snd (os_Rename (name l) (name l +:+ ".1") w').

(** [Close()]. *)
Definition FileLogger_Close (l : FileLogger) (w : World) : option error * FileLogger :=
  match file l with
  | Some f => (File_Close f w, set_file None l)
  | None => (None, l)
  end.

(** [ClearCurLogFile()]. *)
Definition FileLogger_ClearCurLogFile (l : FileLogger) (w : World) : option error * FileLogger * World :=
  openFile l true w.

(** The loop of [ClearAllLogFile], from index [i] down to 1. *)
Fixpoint removeBackups (nm : string) (i : nat) (w : World) : option error * World :=
  match i with
  | O => (None, w)
  | S i' =>
      let logFile := backupName nm (Z.of_nat i) in
      match os_Stat logFile w with
      | inl _ =>
          match os_Remove logFile w with
          | (Some e, w') => (Some e, w')
          | (None, w') => removeBackups nm i' w'
          end
      | inr _ => removeBackups nm i' w
      end
  end.

(** [ClearAllLogFile()]. *)
Definition FileLogger_ClearAllLogFile (l : FileLogger) (w : World) : option error * FileLogger * World :=
  match removeBackups (name l) (Z.to_nat (backups l)) w with
  | (Some e, w') => (Some e, l, w')
  | (None, w') => openFile l true w'
  end.

(** [ReadLog(offset, length)].  The sums and differences are those of
    [int64]; the deferred [f.Close()] has no result. *)
Definition FileLogger_ReadLog (l : FileLogger) (offset length_ : Z) (w : World)
  : Res (bytes * option error) :=
  if (offset <? 0) && negb (length_ =? 0) then Ret ([], Some (errorString "BAD_ARGUMENTS"))
  else if (offset >=? 0) && (length_ <? 0) then Ret ([], Some (errorString "BAD_ARGUMENTS"))
  else
    match os_Open (name l) w with
    | inr _ => Ret ([], Some (errorString "FAILED"))
    | inl f =>
        match File_Stat f w with
        | inr _ => Ret ([], Some (errorString "FAILED"))
        | inl fileLen =>
            let read (offset length_ : Z) : Res (bytes * option error) :=
              match make_bytes length_ with
              | None => Panic "makeslice: len out of range"
              | Some _ =>
                  match File_ReadAt f length_ offset w with
                  | (_, Some _) => Ret ([], Some (errorString "FAILED"))
                  | (b, None) => Ret (b, None)
                  end
              end in
            if offset <? 0 then
              let offset := wrap64 (fileLen + offset) in
              let offset := if offset <? 0 then 0 else offset in
              read offset (wrap64 (fileLen - offset))
            else if length_ =? 0 then
              if offset >? fileLen then Ret ([], None)
              else read offset (wrap64 (fileLen - offset))
            else
              if offset >=? fileLen then Ret ([], None)
              else
                let length_ :=
                  if wrap64 (offset + length_) >? fileLen
                  then wrap64 (fileLen - offset) else length_ in
                read offset length_
        end
    end.

(** [ReadTailLog(offset, length)]: data, offset, end-of-file flag, error. *)
Definition FileLogger_ReadTailLog (l : FileLogger) (offset length_ : Z) (w : World)
  : Res (bytes * Z * bool * option error) :=
  if offset <? 0
  then Ret ([], offset, false, Some (errorString "offset should not be less than 0"))
  else if length_ <? 0
  then Ret ([], offset, false, Some (errorString "length should be not be less than 0"))
  else
    match os_Open (name l) w with
    | inr err => Ret ([], 0, false, Some err)
    | inl f =>
        match File_Stat f w with
        | inr err => Ret ([], 0, false, Some err)
        | inl fileLen =>
            if offset >=? fileLen then Ret ([], fileLen, true, None)
            else
              let length_ :=
                if wrap64 (offset + length_) >? fileLen
                then wrap64 (fileLen - offset) else length_ in
              match make_bytes length_ with
              | None => Panic "makeslice: len out of range"
              | Some _ =>
                  match File_ReadAt f length_ offset w with
                  | (_, Some err) => Ret ([], offset, false, Some err)
                  | (b, None) => Ret (b, wrap64 (offset + len b), false, None)
                  end
              end
        end
    end.

(** [Write(p)]: bytes written, error, and the logger and world after. *)
Definition FileLogger_Write (l : FileLogger) (p : bytes) (w : World)
  : Z * option error * FileLogger * World :=
  match file l with
  | None => (0, Some ErrInvalid, l, w)
  | Some f =>
      match File_Write f p w with
      | (n, Some err, _, w1) => (n, Some err, l, w1)
      | (n, None, f', w1) =>
          let l := set_file (Some f') l in
          let w2 := emitLogEvent (logEventEmitter l) p w1 in
          let l := set_fileSize (wrap64 (fileSize l + n)) l in
          let rotate (l : FileLogger) : Z * option error * FileLogger * World :=
            if fileSize l >=? maxSize l then
              let '(_, l1) := FileLogger_Close l w2 in
              let w3 := backupFiles l1 w2 in
              let '(_, l2, w4) := openFile l1 true w3 in
              (n, None, l2, w4)
            else (n, None, l, w2) in
          if fileSize l >=? maxSize l then
            match os_Stat (name l) w2 with
            | inl size => rotate (set_fileSize size l)
            | inr errStat => (n, Some errStat, l, w2)
            end
          else rotate l
      end
  end.

(** ** NullLogger: the discard sink *)

Record NullLogger := mkNullLogger { null_logEventEmitter : LogEventEmitter }.

Definition NewNullLogger (e : LogEventEmitter) : NullLogger := mkNullLogger e.

Definition NullLogger_Write (l : NullLogger) (p : bytes) (w : World)
  : Z * option error * NullLogger * World :=
  (len p, None, l, emitLogEvent (null_logEventEmitter l) p w).

Definition NullLogger_ReadLog (offset length_ : Z) : bytes * option error :=
  ([], Some (errorString "NO_FILE")).

Definition NullLogger_ReadTailLog (offset length_ : Z) : bytes * Z * bool * option error :=
  ([], 0, false, Some (errorString "NO_FILE")).

Definition NullLogger_ClearCurLogFile : option error := Some (errorString "No log").

Definition NullLogger_ClearAllLogFile : option error := Some (errorString "NO_FILE").

(** ** StdLogger: the standard-stream sink *)

(** The embedded [NullLogger] supplies every method but [Write]. *)
Record StdLogger := mkStdLogger { std_logEventEmitter : LogEventEmitter; writer : Stream }.

Definition NewStdoutLogger (e : LogEventEmitter) : StdLogger := mkStdLogger e Stdout.
Definition NewStderrLogger (e : LogEventEmitter) : StdLogger := mkStdLogger e Stderr.

(** [l.writer.Write(p)] on [os.Stdout] or [os.Stderr]. *)
Definition Stream_Write (s : Stream) (p : bytes) (w : World) : Z * option error * World :=
  (stream_write w s p, add_forwarded s p w).

Definition StdLogger_Write (l : StdLogger) (p : bytes) (w : World)
  : Z * option error * StdLogger * World :=
  let '(n, err, w1) := Stream_Write (writer l) p w in
  match err with
  | Some _ => (n, err, l, emitLogEvent (std_logEventEmitter l) p w1)
  | None => (n, err, l, w1)
  end.

(** ** The Logger interface *)

Class Logger (L : Type) := {
  Write : L → bytes → World → Z * option error * L * World;
  Close : L → World → option error * L;
  SetPid : L → Z → L;
  ReadLog : L → Z → Z → World → Res (bytes * option error);
  ReadTailLog : L → Z → Z → World → Res (bytes * Z * bool * option error);
  ClearCurLogFile : L → World → option error * L * World;
  ClearAllLogFile : L → World → option error * L * World
}.

#[export] Instance FileLogger_Logger : Logger FileLogger := {|
  Write := FileLogger_Write;
  Close := FileLogger_Close;
  SetPid := λ l _, l;
  ReadLog := FileLogger_ReadLog;
  ReadTailLog := FileLogger_ReadTailLog;
  ClearCurLogFile := FileLogger_ClearCurLogFile;
  ClearAllLogFile := FileLogger_ClearAllLogFile
|}.

#[export] Instance NullLogger_Logger : Logger NullLogger := {|
  Write := NullLogger_Write;
  Close := λ l _, (None, l);
  SetPid := λ l _, l;
  ReadLog := λ _ offset length_ _, Ret (NullLogger_ReadLog offset length_);
  ReadTailLog := λ _ offset length_ _, Ret (NullLogger_ReadTailLog offset length_);
  ClearCurLogFile := λ l w, (NullLogger_ClearCurLogFile, l, w);
  ClearAllLogFile := λ l w, (NullLogger_ClearAllLogFile, l, w)
|}.

#[export] Instance StdLogger_Logger : Logger StdLogger := {|
  Write := StdLogger_Write;
  Close := λ l _, (None, l);
  SetPid := λ l _, l;
  ReadLog := λ _ offset length_ _, Ret (NullLogger_ReadLog offset length_);
  ReadTailLog := λ _ offset length_ _, Ret (NullLogger_ReadTailLog offset length_);
  ClearCurLogFile := λ l w, (NullLogger_ClearCurLogFile, l, w);
  ClearAllLogFile := λ l w, (NullLogger_ClearAllLogFile, l, w)
|}.

(** ** SysLogger: the external sink *)

Record SysLogger := mkSysLogger {
  sys_programName : string;
  sys_props : gmap string string;
  sys_logEventEmitter : LogEventEmitter
}.

(** Modelled from the spec: [NewSysLogger] and the methods of [SysLogger]
    are not among the sources.  The external sink is an opaque writer; the
    other operations are those of the embedded [NullLogger]. *)
Definition NewSysLogger (programName : string) (props : gmap string string)
  (e : LogEventEmitter) : SysLogger := mkSysLogger programName props e.

(** Modelled from the spec: [SysLogger.Write] hands the bytes to the syslog
    connection, an opaque writer. *)
Definition SysLogger_Write (l : SysLogger) (p : bytes) (w : World)
  : Z * option error * SysLogger * World :=
  (syslog_write w p, l, w).

#[export] Instance SysLogger_Logger : Logger SysLogger := {|
  Write := SysLogger_Write;
  Close := λ l _, (None, l);
  SetPid := λ l _, l;
  ReadLog := λ _ offset length_ _, Ret (NullLogger_ReadLog offset length_);
  ReadTailLog := λ _ offset length_ _, Ret (NullLogger_ReadTailLog offset length_);
  ClearCurLogFile := λ l w, (NullLogger_ClearCurLogFile, l, w);
  ClearAllLogFile := λ l w, (NullLogger_ClearAllLogFile, l, w)
|}.

(** ** The sinks a destination can name *)

Inductive Sink :=
| FileSink (l : FileLogger)
| StdSink (l : StdLogger)
| NullSink (l : NullLogger)
| SysSink (l : SysLogger).

(** Lifts a method result on one variant to [Sink]. *)
Definition lift3 {A B C S} (inj : S → Sink) (r : A * B * S * C) : A * B * Sink * C :=
  let '(a, b, s, c) := r in (a, b, inj s, c).
Definition lift2 {A C S} (inj : S → Sink) (r : A * S * C) : A * Sink * C :=
  let '(a, s, c) := r in (a, inj s, c).
Definition lift1 {A S} (inj : S → Sink) (r : A * S) : A * Sink :=
  let '(a, s) := r in (a, inj s).

#[export] Instance Sink_Logger : Logger Sink := {|
  Write := λ s p w,
    match s with
    | FileSink l => lift3 FileSink (Write l p w)
    | StdSink l => lift3 StdSink (Write l p w)
    | NullSink l => lift3 NullSink (Write l p w)
    | SysSink l => lift3 SysSink (Write l p w)
    end;
  Close := λ s w,
    match s with
    | FileSink l => lift1 FileSink (Close l w)
    | StdSink l => lift1 StdSink (Close l w)
    | NullSink l => lift1 NullSink (Close l w)
    | SysSink l => lift1 SysSink (Close l w)
    end;
  SetPid := λ s pid,
    match s with
    | FileSink l => FileSink (SetPid l pid)
    | StdSink l => StdSink (SetPid l pid)
    | NullSink l => NullSink (SetPid l pid)
    | SysSink l => SysSink (SetPid l pid)
    end;
  ReadLog := λ s offset length_ w,
    match s with
    | FileSink l => ReadLog l offset length_ w
    | StdSink l => ReadLog l offset length_ w
    | NullSink l => ReadLog l offset length_ w
    | SysSink l => ReadLog l offset length_ w
    end;
  ReadTailLog := λ s offset length_ w,
    match s with
    | FileSink l => ReadTailLog l offset length_ w
    | StdSink l => ReadTailLog l offset length_ w
    | NullSink l => ReadTailLog l offset length_ w
    | SysSink l => ReadTailLog l offset length_ w
    end;
  ClearCurLogFile := λ s w,
    match s with
    | FileSink l => lift2 FileSink (ClearCurLogFile l w)
    | StdSink l => lift2 StdSink (ClearCurLogFile l w)
    | NullSink l => lift2 NullSink (ClearCurLogFile l w)
    | SysSink l => lift2 SysSink (ClearCurLogFile l w)
    end;
  ClearAllLogFile := λ s w,
    match s with
    | FileSink l => lift2 FileSink (ClearAllLogFile l w)
    | StdSink l => lift2 StdSink (ClearAllLogFile l w)
    | NullSink l => lift2 NullSink (ClearAllLogFile l w)
    | SysSink l => lift2 SysSink (ClearAllLogFile l w)
    end
|}.

(** ** CompositeLogger: the fan-out dispatcher *)

Section Composite.
Context {L : Type} `{Logger L}.

Record CompositeLogger := mkCompositeLogger { loggers : list L }.

Definition NewCompositeLogger (ls : list L) : CompositeLogger := mkCompositeLogger ls.

Definition AddLogger (cl : CompositeLogger) (logger : L) : CompositeLogger :=
  mkCompositeLogger (loggers cl ++ [logger]).

(** The loop of [Write] from index [i] on, with the named results [n]
    and [err] as they stand. *)
Fixpoint writeLoop (i : nat) (ls : list L) (p : bytes) (n : Z) (err : option error)
  (w : World) : Z * option error * list L * World :=
  match ls with
  | [] => (n, err, [], w)
  | logger :: rest =>
      let '(n', err', logger', w') := Write logger p w in
      let '(n, err) := match i with O => (n', err') | S _ => (n, err) end in
      let '(n, err, rest', w'') := writeLoop (S i) rest p n err w' in
      (n, err, logger' :: rest', w'')
  end.

Definition CompositeLogger_Write (cl : CompositeLogger) (p : bytes) (w : World)
  : Z * option error * CompositeLogger * World :=
  let '(n, err, ls, w') := writeLoop 0 (loggers cl) p 0 None w in
  (n, err, mkCompositeLogger ls, w').

Definition index_panic {A} : Res A :=
  Panic "index out of range [0] with length 0".

Definition CompositeLogger_ReadLog (cl : CompositeLogger) (offset length_ : Z) (w : World)
  : Res (bytes * option error) :=
  match loggers cl with
  | [] => index_panic
  | l0 :: _ => ReadLog l0 offset length_ w
  end.

Definition CompositeLogger_ReadTailLog (cl : CompositeLogger) (offset length_ : Z) (w : World)
  : Res (bytes * Z * bool * option error) :=
  match loggers cl with
  | [] => index_panic
  | l0 :: _ => ReadTailLog l0 offset length_ w
  end.

Definition CompositeLogger_ClearCurLogFile (cl : CompositeLogger) (w : World)
  : Res (option error * CompositeLogger * World) :=
  match loggers cl with
  | [] => index_panic
  | l0 :: rest =>
      let '(err, l0', w') := ClearCurLogFile l0 w in
      Ret (err, mkCompositeLogger (l0' :: rest), w')
  end.

Definition CompositeLogger_ClearAllLogFile (cl : CompositeLogger) (w : World)
  : Res (option error * CompositeLogger * World) :=
  match loggers cl with
  | [] => index_panic
  | l0 :: rest =>
      let '(err, l0', w') := ClearAllLogFile l0 w in
      Ret (err, mkCompositeLogger (l0' :: rest), w')
  end.
End Composite.
Arguments CompositeLogger L : clear implicits.

(** ** Construction from a destination specification *)

(** [strings.Split(s, sep)] for a separator of one byte: the first piece
    and the pieces after it. *)
Fixpoint split_pieces (sep : ascii) (s : string) : string * list string :=
  match s with
  | EmptyString => (EmptyString, [])
  | String c rest =>
      let '(piece, pieces) := split_pieces sep rest in
      if Ascii.eqb c sep then (EmptyString, piece :: pieces) else (String c piece, pieces)
  end.

Definition strings_Split (s : string) (sep : ascii) : list string :=
  let '(piece, pieces) := split_pieces sep s in piece :: pieces.

(** The UTF-8 encodings of two and three bytes. *)
Definition utf8 (cp : N) : string :=
  if (cp <? 2048)%N
  then String (ascii_of_N (192 + cp / 64)) (String (ascii_of_N (128 + cp mod 64)) EmptyString)
  else String (ascii_of_N (224 + cp / 4096))
         (String (ascii_of_N (128 + (cp / 64) mod 64))
            (String (ascii_of_N (128 + cp mod 64)) EmptyString)).

(** The white space of [unicode.IsSpace]: the ASCII bytes below and the
    code points of [unicodeSpace]. *)
Definition asciiSpace (c : ascii) : bool :=
  let n := N_of_ascii c in
  ((9 <=? n) && (n <=? 13) || (n =? 32))%N.

Definition unicodeSpace : list N :=
  [133; 160; 5760; 8192; 8193; 8194; 8195; 8196; 8197; 8198; 8199; 8200; 8201; 8202;
   8232; 8233; 8239; 8287; 12288]%N.

(** [s] without the prefix [pre], when it has it. *)
Fixpoint strip_prefix (pre s : string) : option string :=
  match pre, s with
  | EmptyString, _ => Some s
  | String a pre', String b s' => if Ascii.eqb a b then strip_prefix pre' s' else None
  | String _ _, EmptyString => None
  end.

(** [s] without one leading white-space rune whose encoding, read in the
    direction of [s], is among [encs]. *)
Definition strip_space (encs : list string) (s : string) : option string :=
  match s with
  | EmptyString => None
  | String c rest =>
      if asciiSpace c then Some rest
      else list_find is_Some ((λ enc, strip_prefix enc s) <$> encs) ≫= snd
  end.

Fixpoint trim_spaces (encs : list string) (fuel : nat) (s : string) : string :=
  match fuel with
  | O => s
  | S fuel' =>
      match strip_space encs s with
      | Some rest => trim_spaces encs fuel' rest
      | None => s
      end
  end.

(** [strings.TrimSpace(s)]: the leading white space goes, then the
    trailing one, found by reading [s] backwards. *)
Definition strings_TrimSpace (s : string) : string :=
  let s1 := trim_spaces (utf8 <$> unicodeSpace) (String.length s) s in
  String.rev (trim_spaces (String.rev <$> (utf8 <$> unicodeSpace)) (String.length s1) (String.rev s1)).

(** [splitLogFile(logFile)]. *)
Definition splitLogFile (logFile : string) : list string :=
  strings_TrimSpace <$> strings_Split logFile ",".

(** [createLogger(programName, logFile, locker, maxBytes, backups, props, logEventEmitter)]. *)
Definition createLogger (programName logFile : string) (maxBytes backups_ : Z)
  (props : gmap string string) (e : LogEventEmitter) (w : World) : Sink * World :=
  if String.eqb logFile "/dev/stdout" then (StdSink (NewStdoutLogger e), w)
  else if String.eqb logFile "/dev/stderr" then (StdSink (NewStderrLogger e), w)
  else if String.eqb logFile "/dev/null" then (NullSink (NewNullLogger e), w)
  else if String.eqb logFile "syslog" then (SysSink (NewSysLogger programName props e), w)
  else if (0 <? Z.of_nat (String.length logFile)) then
    let '(l, w') := NewFileLogger logFile maxBytes backups_ e w in (FileSink l, w')
  else (NullSink (NewNullLogger e), w).

(** The loop of [NewLogger] from index [i] on. *)
Fixpoint createLoggers (i : nat) (programName : string) (fs : list string) (maxBytes backups_ : Z)
  (props : gmap string string) (e : LogEventEmitter) (w : World) : list Sink * World :=
  match fs with
  | [] => ([], w)
  | f :: rest =>
      let '(lr, w') :=
        match i with
        | O => createLogger programName f maxBytes backups_ props e w
        | S _ => createLogger programName f maxBytes backups_ props NullLogEventEmitter w
        end in
      let '(lrs, w'') := createLoggers (S i) programName rest maxBytes backups_ props e w' in
      (lr :: lrs, w'')
  end.

(** [NewLogger(programName, logFile, locker, maxBytes, backups, props, logEventEmitter)]. *)
Definition NewLogger (programName logFile : string) (maxBytes backups_ : Z)
  (props : gmap string string) (e : LogEventEmitter) (w : World)
  : CompositeLogger Sink * World :=
  let files_ := splitLogFile logFile in
  let '(ls, w') := createLoggers 0 programName files_ maxBytes backups_ props e w in
  (NewCompositeLogger ls, w').

(** ** Sample machines and auxiliary notions *)

Definition no_fault : syscall → string → option errno := λ _ _, None.

(** A machine with the given files, whose system calls and streams work. *)
Definition world_of (fs : gmap string bytes) : World :=
  mkWorld fs no_fault [] (λ _ p, (len p, None)) [] (λ p, (len p, None)).

(** A logger on [a.log] as [NewFileLogger] leaves it when the file exists. *)
Definition sample_logger (maxSz bks : Z) : FileLogger :=
  mkFileLogger "a.log" maxSz bks 0 (Some (mkFile "a.log" true 0)) Observer.

(** A machine whose only file is [a.log], holding [c]. *)
Definition sample_world (c : bytes) : World := world_of {["a.log" := c]}.

(** The logger and the world after the writes [ps], in order. *)
Fixpoint write_all (l : FileLogger) (ps : list bytes) (w : World) : FileLogger * World :=
  match ps with
  | [] => (l, w)
  | p :: ps' => let '(_, _, l', w') := FileLogger_Write l p w in write_all l' ps' w'
  end.

(** The sinks and the world after [p] is written to each sink of [ls], the
    first one first. *)
Fixpoint write_each {L} `{Logger L} (ls : list L) (p : bytes) (w : World) : list L * World :=
  match ls with
  | [] => ([], w)
  | logger :: rest =>
      let '(_, _, logger', w') := Write logger p w in
      let '(rest', w'') := write_each rest p w' in
      (logger' :: rest', w'')
  end.

(** A file logger that lost its handle: its writes fail. *)
Definition closed_logger : FileLogger := mkFileLogger "b.log" 10 2 0 None NullLogEventEmitter.

(** A machine whose only file is an empty [a.log] and on which [os.Stat]
    is refused. *)
Definition stat_denied_world : World :=
  mkWorld {["a.log" := []]} (λ c _, match c with SysStat => Some EACCES | _ => None end)
    [] (λ _ p, (len p, None)) [] (λ p, (len p, None)).

(** A machine with [a.log] and its three backups, on which the removal of
    backup 2 is refused. *)
Definition remove_denied_world : World :=
  mkWorld {["a.log" := B "live"; "a.log.1" := B "one"; "a.log.2" := B "two";
            "a.log.3" := B "three"]}
    (λ c path, match c with
               | SysRemove => if String.eqb path "a.log.2" then Some EPERM else None
               | _ => None
               end)
    [] (λ _ p, (len p, None)) [] (λ p, (len p, None)).

(** Every backup of [l] that exists carries an index from 1 to the
    retention count. *)
Definition backups_in_range (l : FileLogger) (w : World) : Prop :=
  ∀ i, is_Some (files w !! backupName (name l) i) → 1 ≤ i ≤ backups l.

(** The paths a logger with a retention count of at least 1 may create. *)
Definition own_path (l : FileLogger) (path : string) : Prop :=
  path = name l ∨ ∃ k, 1 ≤ k ≤ backups l ∧ path = backupName (name l) k.

(** A machine whose only file is [a.log] and on which no file can be
    created. *)
Definition create_denied_world : World :=
  mkWorld {["a.log" := B "live"]}
    (λ c _, match c with SysCreate => Some EACCES | _ => None end)
    [] (λ _ p, (len p, None)) [] (λ p, (len p, None)).

(** ** The remaining operations of the dispatcher *)

Section CompositeRest.
Context {L : Type} `{Logger L}.

(** [t == logger] on two interface values: they hold the same pointer. *)
Variable same : L → L → bool.

(** The loop of [RemoveLogger]: the slice without the first element that
    is [logger]. *)
Fixpoint removeLoop (ls : list L) (logger : L) : list L :=
  match ls with
  | [] => []
  | t :: rest => if same t logger then rest else t :: removeLoop rest logger
  end.

Definition RemoveLogger (cl : CompositeLogger L) (logger : L) : CompositeLogger L :=
  mkCompositeLogger (removeLoop (loggers cl) logger).

(** The loop of [Close] from index [i] on, with the named result [err] as
    it stands. *)
Fixpoint closeLoop (i : nat) (ls : list L) (err : option error) (w : World)
  : option error * list L :=
  match ls with
  | [] => (err, [])
  | logger :: rest =>
      let '(err', logger') := Close logger w in
      let err := match i with O => err' | S _ => err end in
      let '(err, rest') := closeLoop (S i) rest err w in
      (err, logger' :: rest')
  end.

Definition CompositeLogger_Close (cl : CompositeLogger L) (w : World)
  : option error * CompositeLogger L :=
  let '(err, ls) := closeLoop 0 (loggers cl) None w in (err, mkCompositeLogger ls).

Definition CompositeLogger_SetPid (cl : CompositeLogger L) (pid : Z) : CompositeLogger L :=
  mkCompositeLogger ((λ logger, SetPid logger pid) <$> loggers cl).
End CompositeRest.

(** The observer a sink was built with. *)
Definition Sink_emitter (s : Sink) : LogEventEmitter :=
  match s with
  | FileSink l => logEventEmitter l
  | StdSink l => std_logEventEmitter l
  | NullSink l => null_logEventEmitter l
  | SysSink l => sys_logEventEmitter l
  end.

(** The number of bytes [sep] in [s]. *)
Fixpoint count_byte (sep : ascii) (s : string) : nat :=
  match s with
  | EmptyString => 0
  | String c rest => (if Ascii.eqb c sep then 1 else 0) + count_byte sep rest
  end.

(** The write handle of [l] is open on its file and writes at its end;
    the file holds [c]. *)
Definition at_end (l : FileLogger) (w : World) (c : bytes) : Prop :=
  ∃ f, file l = Some f ∧ f_name f = name l ∧ files w !! name l = Some c
       ∧ (f_append f = true ∨ f_pos f = length c).

(** The sink holds no file handle. *)
Definition handle_free (s : Sink) : Prop :=
  match s with FileSink l => file l = None | _ => True end.

(** ** The configuration entry

    Package [config] supplies the numeric limits the loggers are built
    with.  An [Entry] is one section of the configuration file. *)

(** *** Strings *)

(** [s[n:]] and [s[:n]] for [n] within the string; Go panics outside,
    and every slice below is guarded by a test of the length. *)
Fixpoint string_drop (n : nat) (s : string) : string :=
  match n, s with
  | O, _ => s
  | S n', String _ rest => string_drop n' rest
  | S _, EmptyString => EmptyString
  end.

Fixpoint string_take (n : nat) (s : string) : string :=
  match n, s with
  | O, _ => EmptyString
  | S n', String c rest => String c (string_take n' rest)
  | S _, EmptyString => EmptyString
  end.

(** [strings.HasPrefix(s, prefix)]. *)
Definition strings_HasPrefix (s pre : string) : bool := String.prefix pre s.

(** *** [strconv.Atoi] *)

(** The value of a decimal digit. *)
Definition digit (c : ascii) : option Z :=
  let n := N_of_ascii c in
  if ((48 <=? n) && (n <=? 57))%N then Some (Z.of_N n - 48) else None.

Fixpoint parse_digits (acc : Z) (s : string) : option Z :=
  match s with
  | EmptyString => Some acc
  | String c rest =>
      match digit c with
      | Some d => parse_digits (acc * 10 + d) rest
      | None => None
      end
  end.

(** [strconv.Atoi(s)]: an optional sign and at least one decimal digit,
    denoting a value of the range of [int]; [None] for the syntax and the
    range errors. *)
Definition strconv_Atoi (s : string) : option Z :=
  let '(neg, body) :=
    match s with
    | String c rest =>
        if Ascii.eqb c "-" then (true, rest)
        else if Ascii.eqb c "+" then (false, rest)
        else (false, s)
    | EmptyString => (false, s)
    end in
  match body with
  | EmptyString => None
  | _ =>
      match parse_digits 0 body with
      | Some n =>
          let v := if neg then - n else n in
          if (int64_min <=? v) && (v <=? int64_max) then Some v else None
      | None => None
      end
  end.

(** *** Entry *)

Record Entry := mkEntry {
  ConfigDir : string;
  Group : string;
  Name : string;
  keyValues : gmap string string
}.

Definition IsProgram (c : Entry) : bool := strings_HasPrefix (Name c) "program:".

Definition GetProgramName (c : Entry) : string :=
  if strings_HasPrefix (Name c) "program:"
  then string_drop (String.length "program:") (Name c)
  else "".

Definition IsEventListener (c : Entry) : bool := strings_HasPrefix (Name c) "eventlistener:".

Definition GetEventListenerName (c : Entry) : string :=
  if strings_HasPrefix (Name c) "eventlistener:"
  then string_drop (String.length "eventlistener:") (Name c)
  else "".

Definition IsGroup (c : Entry) : bool := strings_HasPrefix (Name c) "group:".

Definition GetGroupName (c : Entry) : string :=
  if strings_HasPrefix (Name c) "group:"
  then string_drop (String.length "group:") (Name c)
  else "".

(** [toInt(s, factor, defValue)]: the product is an [int] product. *)
Definition toInt (s : string) (factor defValue : Z) : Z :=
  match strconv_Atoi s with
  | Some i => wrap64 (i * factor)
  | None => defValue
  end.

Definition GetInt (c : Entry) (key : string) (defValue : Z) : Z :=
  match keyValues c !! key with
  | Some value => toInt value 1 defValue
  | None => defValue
  end.

Definition GetBytes (c : Entry) (key : string) (defValue : Z) : Z :=
  match keyValues c !! key with
  | Some v =>
      let n := String.length v in
      if (2 <? n)%nat then
        let lastTwoBytes := string_drop (n - 2) v in
        if String.eqb lastTwoBytes "MB" then toInt (string_take (n - 2) v) (1024 * 1024) defValue
        else if String.eqb lastTwoBytes "GB"
             then toInt (string_take (n - 2) v) (1024 * 1024 * 1024) defValue
        else if String.eqb lastTwoBytes "KB" then toInt (string_take (n - 2) v) 1024 defValue
        else toInt v 1 defValue
      else toInt v 1 defValue
  | None => defValue
  end.

(** The units [GetBytes] understands, with their factors. *)
Definition byte_units : list (string * Z) :=
  [("", 1); ("KB", 1024); ("MB", 1024 * 1024); ("GB", 1024 * 1024 * 1024)].

(** An entry holding the one setting [key = value]. *)
Definition sample_entry (nm key value : string) : Entry :=
  mkEntry "/etc" "" nm {[ key := value ]}.

(** *** [parseEnv] *)

(** [s[a:b]] for [a <= b <= len(s)]. *)
Definition slice (s : string) (a b : nat) : string := string_take (b - a) (string_drop a s).

(** The number of bytes of [s] before the first [c]. *)
Fixpoint find_byte (c : ascii) (s : string) : nat :=
  match s with
  | EmptyString => 0
  | String a rest => if Ascii.eqb a c then 0 else S (find_byte c rest)
  end.

(** [for i = start; i < n && s[i] != c; { i++ }]: the value of [i] after
    the loop. *)
Definition scan (c : ascii) (s : string) (start : nat) : nat :=
  (start + find_byte c (string_drop start s))%nat.

(** The double quote. *)
Definition quote : ascii := "034".

(** The outer loop of [parseEnv], entered with [start] and [result].
    [s[start]] panics when [start] is not below [len(s)].  [fuel] bounds
    the iterations; [None] is a bound that was too small. *)
Fixpoint parseEnv_loop (fuel : nat) (s : string) (start : nat) (result : gmap string string)
  : option (Res (gmap string string)) :=
  match fuel with
  | O => None
  | S fuel' =>
      let n := String.length s in
      let i := scan "=" s start in
      let key := slice s start i in
      let start := (i + 1)%nat in
      match String.get start s with
      | None => Some (Panic "index out of range")
      | Some c =>
          if Ascii.eqb c quote then
            let i := scan quote s (start + 1) in
            let result :=
              if (i <? n)%nat
              then <[strings_TrimSpace key := strings_TrimSpace (slice s (start + 1) i)]> result
              else result in
            if (i + 1 <? n)%nat && bool_decide (String.get (i + 1) s = Some ","%char)
            then parseEnv_loop fuel' s (i + 2) result
            else Some (Ret result)
          else
            let i := scan "," s start in
            if (i <? n)%nat
            then parseEnv_loop fuel' s (i + 1)
                   (<[strings_TrimSpace key := strings_TrimSpace (slice s start i)]> result)
            else Some (Ret (<[strings_TrimSpace key := strings_TrimSpace (string_drop start s)]>
                              result))
      end
  end.

(** [parseEnv(s)]; every iteration moves [start] forward, so the bound is
    never reached. *)
Definition parseEnv (s : string) : option (Res (gmap string string)) :=
  parseEnv_loop (String.length s + 2) s 0 ∅.

(** One setting of an environment string: the key, whether the value is
    written between double quotes, and the value. *)
Definition env_pair : Type := string * bool * string.

Definition render_pair (p : env_pair) : string :=
  let '(k, q, v) := p in
  k +:+ String "=" (if q then String quote (v +:+ String quote "") else v).

(** The settings joined by commas. *)
Fixpoint render_env (ps : list env_pair) : string :=
  match ps with
  | [] => ""
  | [p] => render_pair p
  | p :: ps' => render_pair p +:+ String "," (render_env ps')
  end.

(** A key holds no [=]; a quoted value holds no double quote; a bare
    value holds no comma and does not start with a double quote. *)
Definition wf_pair (p : env_pair) : Prop :=
  let '(k, q, v) := p in
  count_byte "=" k = 0%nat
  ∧ if q then count_byte quote v = 0%nat
    else count_byte "," v = 0%nat ∧ String.get 0 v ≠ Some quote.

(** The last setting, when bare, has a value. *)
Definition wf_last (p : env_pair) : Prop :=
  let '(k, q, v) := p in q = false → v ≠ "".

(** The map the settings denote: later settings win. *)
Definition env_map (ps : list env_pair) (m : gmap string string) : gmap string string :=
  fold_left (λ m (p : env_pair), let '(k, _, v) := p in
                                 <[strings_TrimSpace k := strings_TrimSpace v]> m) ps m.

(** *** [toRegexp] *)

(** [strings.Replace(s, old, new, -1)] for [old] of one byte. *)
Fixpoint strings_Replace (s : string) (old : ascii) (new : string) : string :=
  match s with
  | EmptyString => EmptyString
  | String c rest =>
      (if Ascii.eqb c old then new else String c EmptyString) +:+ strings_Replace rest old new
  end.

(** [strings.Join(elems, sep)]. *)
Fixpoint strings_Join (elems : list string) (sep : string) : string :=
  match elems with
  | [] => EmptyString
  | [e] => e
  | e :: rest => e +:+ sep +:+ strings_Join rest sep
  end.

(** [toRegexp(pattern)]. *)
Definition toRegexp (pattern : string) : string :=
  let tmp := strings_Split pattern "." in
  let tmp := (λ t, strings_Replace (strings_Replace t "*" ".*") "?" ".") <$> tmp in
  strings_Join tmp "\.".

(** What [toRegexp] makes of one byte of the pattern. *)
Definition regexp_of_byte (c : ascii) : string :=
  if Ascii.eqb c "." then "\."
  else if Ascii.eqb c "*" then ".*"
  else if Ascii.eqb c "?" then "."
  else String c EmptyString.

Fixpoint string_flat_map (f : ascii → string) (s : string) : string :=
  match s with
  | EmptyString => EmptyString
  | String c rest => f c +:+ string_flat_map f rest
  end.

(** * Properties *)

(** ** Arithmetic and names *)

Lemma wrap64_id z : in_int64 z → wrap64 z = z.
Proof.
  unfold in_int64, int64_min, int64_max, wrap64. intros Hz.
  rewrite Z.mod_small; lia.
Qed.

Lemma len_nonneg (p : bytes) : 0 ≤ len p.
Proof. unfold len. lia. Qed.

Lemma len_app (p q : bytes) : len (p ++ q) = len p + len q.
Proof. unfold len. rewrite length_app. lia. Qed.

Lemma maxAlloc_int64 : maxAlloc < int64_max.
Proof. reflexivity. Qed.

Lemma string_app_empty s : s +:+ "" = s.
Proof.
  induction s as [|a s IH]; [done|].
  change (String a (s +:+ "") = String a s). by rewrite IH.
Qed.

Lemma backupName_inj nm i j : backupName nm i = backupName nm j → i = j.
Proof.
  unfold backupName. intros Heq.
  apply (inj (String.app nm)) in Heq.
  apply (inj (String.app ".")) in Heq.
  by apply (inj pretty) in Heq.
Qed.

Lemma backupName_ne_name nm i : backupName nm i ≠ nm.
Proof.
  unfold backupName. intros Heq.
  rewrite <- (string_app_empty nm) in Heq at 2.
  apply (inj (String.app nm)) in Heq. discriminate Heq.
Qed.

Lemma backupName_1 nm : nm +:+ ".1" = backupName nm 1.
Proof. reflexivity. Qed.

(** Decides the integer comparisons of the code. *)
Ltac zcases :=
  rewrite ?Z.geb_leb, ?Z.gtb_ltb in *;
  repeat match goal with
    | |- context [(?a <? ?b)%Z] => destruct (Z.ltb_spec a b)
    | |- context [(?a <=? ?b)%Z] => destruct (Z.leb_spec a b)
    | |- context [(?a =? ?b)%Z] => destruct (Z.eqb_spec a b)
    end;
  simpl; try lia; try done.

(** ** Reading *)

Section Reading.
Variables (l : FileLogger) (w : World) (c : bytes).
Hypothesis Hhealthy : healthy w.
Hypothesis Hfile : files w !! name l = Some c.

Lemma os_Open_ok : os_Open (name l) w = inl (mkFile (name l) false 0).
Proof. unfold os_Open. by rewrite Hhealthy, Hfile. Qed.

Lemma File_Stat_ok b n : File_Stat (mkFile (name l) b n) w = inl (len c).
Proof. unfold File_Stat. simpl. by rewrite Hhealthy, Hfile. Qed.

(** A read that ends within the file returns its bytes and no error. *)
Lemma File_ReadAt_within b pos n off :
  0 ≤ n → 0 ≤ off → off + n ≤ len c →
  File_ReadAt (mkFile (name l) b pos) n off w
  = (take (Z.to_nat n) (drop (Z.to_nat off) c), None).
Proof.
  intros Hn Hoff Hend. unfold File_ReadAt. simpl.
  destruct (Z.ltb_spec off 0); [lia|].
  destruct (Z.leb_spec n 0) as [Hn0|Hn0].
  - assert (n = 0) as -> by lia. done.
  - rewrite Hhealthy, Hfile. simpl.
    assert (len (take (Z.to_nat n) (drop (Z.to_nat off) c)) = n) as Hlen.
    { unfold len in *. rewrite length_take, length_drop. lia. }
    rewrite Hlen, Z.ltb_irrefl. done.
Qed.

Lemma make_bytes_ok n : 0 ≤ n ≤ maxAlloc → make_bytes n = Some tt.
Proof. unfold make_bytes. intros Hn. zcases. Qed.

(** The three readings of [ReadLog] when no sum overflows and the
    buffer can be allocated. *)
Lemma FileLogger_ReadLog_last offset :
  in_int64 offset → offset < 0 → len c ≤ maxAlloc →
  FileLogger_ReadLog l offset 0 w
  = Ret (drop (Z.to_nat (Z.max 0 (len c + offset))) c, None).
Proof.
  intros Hoff Hneg Hsize. pose proof (len_nonneg c) as Hc.
  pose proof maxAlloc_int64 as Hmax.
  unfold FileLogger_ReadLog. rewrite os_Open_ok, File_Stat_ok.
  rewrite (proj2 (Z.ltb_lt offset 0)) by lia.
  rewrite Z.geb_leb, (proj2 (Z.leb_gt 0 offset)) by lia. simpl.
  rewrite (wrap64_id (len c + offset))
    by (unfold in_int64, int64_min, int64_max in *; lia).
  replace (if len c + offset <? 0 then 0 else len c + offset)
    with (Z.max 0 (len c + offset)) by zcases.
  rewrite wrap64_id by (unfold in_int64, int64_min, int64_max in *; lia).
  rewrite make_bytes_ok by lia.
  rewrite File_ReadAt_within by lia.
  rewrite take_ge; [done|].
  rewrite length_drop. unfold len in *. lia.
Qed.

Lemma FileLogger_ReadLog_rest offset :
  0 ≤ offset → len c ≤ maxAlloc →
  FileLogger_ReadLog l offset 0 w
  = Ret (if len c <? offset then [] else drop (Z.to_nat offset) c, None).
Proof.
  intros Hoff Hsize. pose proof (len_nonneg c) as Hc.
  pose proof maxAlloc_int64 as Hmax.
  unfold FileLogger_ReadLog. rewrite os_Open_ok, File_Stat_ok.
  rewrite (proj2 (Z.ltb_ge offset 0)) by lia.
  rewrite Z.geb_leb, (proj2 (Z.leb_le 0 offset)) by lia. simpl.
  rewrite Z.gtb_ltb. destruct (Z.ltb_spec (len c) offset); [done|].
  rewrite wrap64_id by (unfold in_int64, int64_min, int64_max in *; lia).
  rewrite make_bytes_ok by lia.
  rewrite File_ReadAt_within by lia.
  rewrite take_ge; [done|].
  rewrite length_drop. unfold len in *. lia.
Qed.

Lemma FileLogger_ReadLog_range offset length_ :
  0 ≤ offset → 0 < length_ → offset + length_ ≤ int64_max →
  Z.min length_ (len c - offset) ≤ maxAlloc →
  FileLogger_ReadLog l offset length_ w
  = Ret (if len c <=? offset then []
         else take (Z.to_nat (Z.min length_ (len c - offset))) (drop (Z.to_nat offset) c),
         None).
Proof.
  intros Hoff Hlen Hsum Hsize. pose proof (len_nonneg c) as Hc.
  unfold FileLogger_ReadLog. rewrite os_Open_ok, File_Stat_ok.
  rewrite (proj2 (Z.ltb_ge offset 0)) by lia.
  rewrite (proj2 (Z.ltb_ge length_ 0)) by lia.
  rewrite (proj2 (Z.eqb_neq length_ 0)) by lia.
  rewrite andb_false_r. simpl.
  rewrite Z.geb_leb. destruct (Z.leb_spec (len c) offset); [done|].
  rewrite (wrap64_id (offset + length_))
    by (unfold in_int64, int64_min, int64_max in *; lia).
  rewrite Z.gtb_ltb. destruct (Z.ltb_spec (len c) (offset + length_)).
  - rewrite wrap64_id by (unfold in_int64, int64_min, int64_max in *; lia).
    rewrite Z.min_r in * by lia.
    rewrite make_bytes_ok by lia. by rewrite File_ReadAt_within by lia.
  - rewrite Z.min_l in * by lia.
    rewrite make_bytes_ok by lia. by rewrite File_ReadAt_within by lia.
Qed.

(** [ReadTailLog] at or past the end of the file, and within it. *)
Lemma FileLogger_ReadTailLog_end offset length_ :
  0 ≤ length_ → len c ≤ offset →
  FileLogger_ReadTailLog l offset length_ w = Ret ([], len c, true, None).
Proof.
  intros Hlen Hoff. pose proof (len_nonneg c) as Hc.
  unfold FileLogger_ReadTailLog. rewrite os_Open_ok, File_Stat_ok.
  rewrite (proj2 (Z.ltb_ge offset 0)) by lia.
  rewrite (proj2 (Z.ltb_ge length_ 0)) by lia.
  rewrite Z.geb_leb. by destruct (Z.leb_spec (len c) offset); [|lia].
Qed.

Lemma FileLogger_ReadTailLog_within offset length_ :
  0 ≤ offset < len c → 0 ≤ length_ → offset + length_ ≤ int64_max →
  Z.min length_ (len c - offset) ≤ maxAlloc →
  FileLogger_ReadTailLog l offset length_ w
  = Ret (take (Z.to_nat (Z.min length_ (len c - offset))) (drop (Z.to_nat offset) c),
         offset + Z.min length_ (len c - offset), false, None).
Proof.
  intros Hoff Hlen Hsum Hsize.
  unfold FileLogger_ReadTailLog. rewrite os_Open_ok, File_Stat_ok.
  rewrite (proj2 (Z.ltb_ge offset 0)) by lia.
  rewrite (proj2 (Z.ltb_ge length_ 0)) by lia.
  rewrite Z.geb_leb. destruct (Z.leb_spec (len c) offset); [lia|].
  rewrite (wrap64_id (offset + length_))
    by (unfold in_int64, int64_min, int64_max in *; lia).
  set (n := Z.min length_ (len c - offset)) in *.
  assert ((if offset + length_ >? len c then wrap64 (len c - offset) else length_) = n)
    as ->.
  { rewrite Z.gtb_ltb. subst n. destruct (Z.ltb_spec (len c) (offset + length_)).
    - rewrite wrap64_id by (unfold in_int64, int64_min, int64_max in *; lia). lia.
    - lia. }
  assert (0 ≤ n ∧ offset + n ≤ len c) as [Hn0 Hn1] by (subst n; lia).
  rewrite make_bytes_ok by lia. rewrite File_ReadAt_within by lia.
  assert (len (take (Z.to_nat n) (drop (Z.to_nat offset) c)) = n) as ->.
  { unfold len in *. rewrite length_take, length_drop. lia. }
  rewrite wrap64_id; [done|].
  unfold in_int64, int64_min, int64_max in *. lia.
Qed.
End Reading.

(** C1 (defect): [ReadLog] is to return [min(length, L-offset)] bytes from
    [offset] whenever [0 <= offset < L] and [length > 0].  On a file of two
    bytes, [ReadLog(1, 9223372036854775807)] should return the one byte
    after offset 1; the sum [offset+length] wraps around to a negative
    number, the length is not clamped to the file, and allocating the
    buffer panics. *)
Theorem FileLogger_ReadLog_length_overflow :
  FileLogger_ReadLog (sample_logger 10 2) 1 int64_max (sample_world (B "ab"))
  = Panic "makeslice: len out of range"
  ∧ wrap64 (1 + int64_max) < 0
  ∧ Z.min int64_max (len (B "ab") - 1) = 1.
Proof. by vm_compute. Qed.

(** C2 (as stated, refuted): past the end of the file, [ReadTailLog]
    returns the length of the file, not the offset it was given: on a file
    of two bytes, [ReadTailLog(5, 1)] returns offset 2. *)
Lemma FileLogger_ReadTailLog_past_end_offset :
  FileLogger_ReadTailLog (sample_logger 10 2) 5 1 (sample_world (B "ab"))
  = Ret ([], 2, true, None)
  ∧ FileLogger_ReadTailLog (sample_logger 10 2) 5 1 (sample_world (B "ab"))
    ≠ Ret ([], 5, true, None).
Proof. split; [by vm_compute | by vm_compute]. Qed.

(** C2 (amended): [ReadTailLog] fails with an argument error when
    [offset < 0] or [length < 0].  For [offset >= 0] and [length >= 0] on a
    readable file of length [L]: at [offset >= L] it returns no data, the
    offset [L] (the offset given only when that is [L]), the end flag set
    and no error; at [offset < L], when [offset+length] fits an [int64] and
    the read fits a byte slice, it returns the [min(length, L-offset)]
    bytes from [offset], the offset advanced by their number, and the end
    flag clear. *)
Theorem FileLogger_ReadTailLog_spec (l : FileLogger) (w : World) (offset length_ : Z) :
  (offset < 0 →
   FileLogger_ReadTailLog l offset length_ w
   = Ret ([], offset, false, Some (errorString "offset should not be less than 0")))
  ∧ (0 ≤ offset → length_ < 0 →
     FileLogger_ReadTailLog l offset length_ w
     = Ret ([], offset, false, Some (errorString "length should be not be less than 0")))
  ∧ (∀ c, healthy w → files w !! name l = Some c → 0 ≤ offset → 0 ≤ length_ →
       (len c ≤ offset →
        FileLogger_ReadTailLog l offset length_ w = Ret ([], len c, true, None))
       ∧ (offset < len c → offset + length_ ≤ int64_max →
          Z.min length_ (len c - offset) ≤ maxAlloc →
          ∃ data,
            FileLogger_ReadTailLog l offset length_ w
            = Ret (data, offset + len data, false, None)
            ∧ len data = Z.min length_ (len c - offset)
            ∧ take (Z.to_nat offset) c ++ data
              ++ drop (Z.to_nat (offset + len data)) c = c)).
Proof.
  split; [|split].
  - intros Hoff. unfold FileLogger_ReadTailLog.
    by rewrite (proj2 (Z.ltb_lt offset 0)) by lia.
  - intros Hoff Hlen. unfold FileLogger_ReadTailLog.
    rewrite (proj2 (Z.ltb_ge offset 0)) by lia.
    by rewrite (proj2 (Z.ltb_lt length_ 0)) by lia.
  - intros c Hw Hc Hoff Hlen. split.
    + intros Hend. by apply FileLogger_ReadTailLog_end.
    + intros Hin Hsum Hsize.
      set (n := Z.min length_ (len c - offset)).
      assert (0 ≤ n ∧ offset + n ≤ len c) as [Hn0 Hn1] by (subst n; lia).
      exists (take (Z.to_nat n) (drop (Z.to_nat offset) c)).
      assert (len (take (Z.to_nat n) (drop (Z.to_nat offset) c)) = n) as Hdata.
      { unfold len in *. rewrite length_take, length_drop. lia. }
      rewrite Hdata. split; [|split; [done|]].
      * by apply FileLogger_ReadTailLog_within.
      * replace (Z.to_nat (offset + n)) with (Z.to_nat offset + Z.to_nat n)%nat by lia.
        rewrite <- drop_drop, take_drop. apply take_drop.
Qed.

Lemma FileLogger_ReadTailLog_spec_witness :
  healthy (sample_world (B "0123456789"))
  ∧ files (sample_world (B "0123456789")) !! name (sample_logger 10 2) = Some (B "0123456789")
  ∧ 2 + 5 ≤ int64_max
  ∧ (∃ data,
       FileLogger_ReadTailLog (sample_logger 10 2) 2 5 (sample_world (B "0123456789"))
       = Ret (data, 2 + len data, false, None)
       ∧ len data = Z.min 5 (len (B "0123456789") - 2)
       ∧ take (Z.to_nat 2) (B "0123456789") ++ data
         ++ drop (Z.to_nat (2 + len data)) (B "0123456789") = B "0123456789").
Proof.
  assert (healthy (sample_world (B "0123456789"))) as Hw by (intros ? ?; reflexivity).
  split; [exact Hw|]. split; [reflexivity|]. split; [by vm_compute|].
  destruct (FileLogger_ReadTailLog_spec (sample_logger 10 2)
              (sample_world (B "0123456789")) 2 5) as (_ & _ & Hspec).
  destruct (Hspec (B "0123456789") Hw eq_refl ltac:(lia) ltac:(lia)) as [_ Hin].
  apply Hin; by vm_compute.
Defined.

Lemma FileLogger_ReadLog_bad_arguments (l : FileLogger) (w : World) (offset length_ : Z) :
  (offset < 0 ∧ length_ ≠ 0) ∨ (0 ≤ offset ∧ length_ < 0) →
  FileLogger_ReadLog l offset length_ w = Ret ([], Some (errorString "BAD_ARGUMENTS")).
Proof.
  unfold FileLogger_ReadLog. intros [[Hoff Hlen]|[Hoff Hlen]].
  - by rewrite (proj2 (Z.ltb_lt offset 0)), (proj2 (Z.eqb_neq length_ 0)) by lia.
  - rewrite (proj2 (Z.ltb_ge offset 0)), Z.geb_leb, (proj2 (Z.leb_le 0 offset)),
      (proj2 (Z.ltb_lt length_ 0)) by lia.
    done.
Qed.

(** Tail-follow: at the end of a file of 50 bytes [ReadTailLog(50, 5)]
    reports the end; once 10 bytes are appended it returns the next 5. *)
Example scenario_tail_follow :
  let l := sample_logger 1000 2 in
  let c := replicate 50 "x"%char in
  FileLogger_ReadTailLog l 50 5 (sample_world c) = Ret ([], 50, true, None)
  ∧ FileLogger_ReadTailLog l 50 5 (FileLogger_Write l (B "0123456789") (sample_world c)).2
    = Ret (B "01234", 55, false, None).
Proof. by vm_compute. Qed.

(** Negative offset: on a file of 50 bytes [ReadLog(-10, 0)] returns the
    last 10. *)
Example scenario_negative_offset :
  FileLogger_ReadLog (sample_logger 1000 2) (-10) 0
    (sample_world (replicate 40 "x"%char ++ B "0123456789"))
  = Ret (B "0123456789", None).
Proof. by vm_compute. Qed.

(** ** Rotation on a working file system *)

Lemma os_Rename_fault (src dst : string) (w : World) :
  fault (os_Rename src dst w).2 = fault w.
Proof.
  unfold os_Rename. destruct (fault w SysRename src); [done|].
  by destruct (files w !! src).
Qed.

Lemma shiftBackups_fault (nm : string) (i : nat) (w : World) :
  fault (shiftBackups nm i w) = fault w.
Proof.
  revert w. induction i as [|i IH]; intros w; [done|].
  simpl. rewrite IH. destruct (os_Stat _ w); [apply os_Rename_fault|done].
Qed.

Lemma backupFiles_fault (l : FileLogger) (w : World) :
  fault (backupFiles l w) = fault w.
Proof. unfold backupFiles. by rewrite os_Rename_fault, shiftBackups_fault. Qed.

Section Rotation.
Variable nm : string.

Let bk (k : Z) : string := backupName nm k.

(** One turn of the loop of [backupFiles]: backup [j] moves to [j+1]. *)
Lemma shift_step (j : Z) (w : World) :
  healthy w →
  let w1 := match os_Stat (bk j) w with
            | inl _ => (os_Rename (bk j) (bk (j + 1)) w).2
            | inr _ => w
            end in
  fault w1 = fault w
  ∧ files w1 !! bk j = None
  ∧ files w1 !! bk (j + 1)
    = match files w !! bk j with Some c => Some c | None => files w !! bk (j + 1) end
  ∧ ∀ path, path ≠ bk j → path ≠ bk (j + 1) → files w1 !! path = files w !! path.
Proof.
  intros Hw. unfold os_Stat, os_Rename. rewrite !Hw.
  assert (bk (j + 1) ≠ bk j) as Hne.
  { intros Heq. apply backupName_inj in Heq. lia. }
  destruct (files w !! bk j) as [c|] eqn:Hc; simpl.
  - split_and!; [done| | |].
    + rewrite lookup_insert_ne by done. apply lookup_delete_eq.
    + apply lookup_insert_eq.
    + intros path H1 H2. rewrite lookup_insert_ne by done. by rewrite lookup_delete_ne.
  - by split_and!.
Qed.

(** The loop of [backupFiles] from index [i]: every backup from 1 to [i]
    moves up by one, the others stay. *)
Lemma shiftBackups_healthy (i : nat) (w : World) :
  healthy w →
  Z.of_nat i + 1 ≤ int64_max →
  fault (shiftBackups nm i w) = fault w
  ∧ (∀ k, 2 ≤ k ≤ Z.of_nat i + 1 →
       files (shiftBackups nm i w) !! bk k
       = match files w !! bk (k - 1) with
         | Some c => Some c
         | None => if k <=? Z.of_nat i then None else files w !! bk k
         end)
  ∧ (1 ≤ Z.of_nat i → files (shiftBackups nm i w) !! bk 1 = None)
  ∧ (∀ path, (∀ k, 1 ≤ k ≤ Z.of_nat i + 1 → path ≠ bk k) →
       files (shiftBackups nm i w) !! path = files w !! path).
Proof.
  revert w. induction i as [|i IH]; intros w Hw Hi.
  { simpl. split_and!; [done|intros; lia|intros; lia|done]. }
  cbn [shiftBackups].
  rewrite wrap64_id by (unfold in_int64, int64_min, int64_max in *; lia).
  fold (bk (Z.of_nat (S i))) (bk (Z.of_nat (S i) + 1)).
  destruct (shift_step (Z.of_nat (S i)) w Hw) as (Hf1 & Hsrc & Hdst & Hother).
  set (w1 := match os_Stat (bk (Z.of_nat (S i))) w with
             | inl _ => (os_Rename (bk (Z.of_nat (S i))) (bk (Z.of_nat (S i) + 1)) w).2
             | inr _ => w
             end) in *.
  assert (healthy w1) as Hw1 by (intros c path; by rewrite Hf1).
  destruct (IH w1 Hw1) as (Hf & Hup & Hone & Hrest); [lia|].
  assert (∀ j k, j ≠ k → bk j ≠ bk k) as Hbk.
  { intros j k Hjk Heq. by apply backupName_inj in Heq. }
  split_and!.
  - by rewrite Hf.
  - intros k Hk. destruct (decide (k = Z.of_nat (S i) + 1)) as [->|Hne].
    + rewrite Hrest by (intros k Hk'; apply Hbk; lia).
      rewrite Hdst. replace (Z.of_nat (S i) + 1 - 1) with (Z.of_nat (S i)) by lia.
      destruct (files w !! bk (Z.of_nat (S i))); [done|].
      by rewrite (proj2 (Z.leb_gt _ _)) by lia.
    + rewrite Hup by lia.
      rewrite (Hother (bk (k - 1))) by (apply Hbk; lia).
      destruct (files w !! bk (k - 1)); [done|].
      destruct (Z.leb_spec k (Z.of_nat i)).
      * by rewrite (proj2 (Z.leb_le _ _)) by lia.
      * assert (k = Z.of_nat (S i)) as -> by lia.
        rewrite Hsrc. by rewrite Z.leb_refl.
  - intros _. destruct i as [|i].
    + simpl. exact Hsrc.
    + apply Hone. lia.
  - intros path Hpath. rewrite Hrest by (intros k Hk; apply Hpath; lia).
    apply Hother; apply Hpath; lia.
Qed.
End Rotation.

(** On a working file system, with a retention count [N] of at least 1,
    [backupFiles] turns the active file into backup 1 and each backup [k-1]
    into backup [k] for [k] up to [N]; what backup [N] held is dropped when
    backup [N-1] exists; no other file changes. *)
Lemma backupFiles_healthy (l : FileLogger) (w : World) (c : bytes) :
  healthy w →
  1 ≤ backups l ≤ int64_max →
  files w !! name l = Some c →
  files (backupFiles l w) !! name l = None
  ∧ files (backupFiles l w) !! backupName (name l) 1 = Some c
  ∧ (∀ k, 2 ≤ k ≤ backups l →
       files (backupFiles l w) !! backupName (name l) k
       = match files w !! backupName (name l) (k - 1) with
         | Some c' => Some c'
         | None => if k <? backups l then None else files w !! backupName (name l) k
         end)
  ∧ (∀ path, path ≠ name l → (∀ k, 1 ≤ k ≤ backups l → path ≠ backupName (name l) k) →
       files (backupFiles l w) !! path = files w !! path).
Proof.
  intros Hw Hn Hc. unfold backupFiles.
  rewrite wrap64_id by (unfold in_int64, int64_min, int64_max in *; lia).
  destruct (shiftBackups_healthy (name l) (Z.to_nat (backups l - 1)) w Hw)
    as (Hf & Hup & _ & Hrest); [lia|].
  rewrite Z2Nat.id in * by lia.
  set (w1 := shiftBackups (name l) (Z.to_nat (backups l - 1)) w) in *.
  assert (files w1 !! name l = Some c) as Hc1.
  { rewrite Hrest; [done|]. intros k Hk Heq. symmetry in Heq. by apply backupName_ne_name in Heq. }
  unfold os_Rename. rewrite Hf, Hw, Hc1. simpl. rewrite backupName_1.
  assert (backupName (name l) 1 ≠ name l) as Hne1 by apply backupName_ne_name.
  split_and!.
  - rewrite lookup_insert_ne by done. apply lookup_delete_eq.
  - apply lookup_insert_eq.
  - intros k Hk.
    rewrite lookup_insert_ne by (intros Heq; apply backupName_inj in Heq; lia).
    rewrite lookup_delete_ne by (intros Heq; symmetry in Heq; by apply backupName_ne_name in Heq).
    rewrite Hup by lia.
    destruct (files w !! backupName (name l) (k - 1)); [done|].
    destruct (Z.ltb_spec k (backups l)).
    + by rewrite (proj2 (Z.leb_le _ _)) by lia.
    + by rewrite (proj2 (Z.leb_gt _ _)) by lia.
  - intros path Hne Hpath.
    rewrite lookup_insert_ne by (intros Heq; by apply (Hpath 1); [lia|]).
    rewrite lookup_delete_ne by done.
    apply Hrest. intros k Hk. apply Hpath. lia.
Qed.

(** ** Writing *)

Lemma alter_as_insert (g : bytes → bytes) (k : string) (c : bytes) (m : gmap string bytes) :
  m !! k = Some c → alter g k m = <[k := g c]> m.
Proof.
  intros Hk. apply map_eq. intros i.
  rewrite lookup_alter, lookup_insert. destruct (decide (k = i)) as [->|_]; [|done].
  by rewrite Hk.
Qed.

Lemma write_at_end (c p : bytes) : write_at c (length c) p = c ++ p.
Proof.
  unfold write_at. destruct p as [|a p]; [by rewrite app_nil_r|].
  rewrite take_ge, Nat.sub_diag, drop_ge by (rewrite ?length_cons; lia).
  simpl. by rewrite app_nil_r.
Qed.

Lemma healthy_emit_set_files (e : LogEventEmitter) (p : bytes)
  (g : gmap string bytes → gmap string bytes) (w : World) :
  healthy w → healthy (emitLogEvent e p (set_files g w)).
Proof. intros Hw. by destruct e. Qed.

Lemma files_emit_set_files (e : LogEventEmitter) (p : bytes)
  (g : gmap string bytes → gmap string bytes) (w : World) :
  files (emitLogEvent e p (set_files g w)) = g (files w).
Proof. by destruct e. Qed.

Lemma healthy_after_rotation (l : FileLogger) (g : gmap string bytes → gmap string bytes)
  (w : World) :
  healthy w → healthy (set_files g (backupFiles l w)).
Proof. intros Hw c path. simpl. by rewrite backupFiles_fault. Qed.

(** [Write] on a working file system, through a handle that appends or
    stands at the end of the active file: the bytes are appended and the
    observer notified; the counter is corrected by the size of the file
    once it reaches the threshold; at a corrected size at or above the
    threshold the file is rotated and created anew. *)
Lemma FileLogger_Write_healthy (l : FileLogger) (f : File) (c p : bytes) (w : World) :
  healthy w →
  file l = Some f → f_name f = name l →
  files w !! name l = Some c →
  f_append f = true ∨ f_pos f = length c →
  let cnt := wrap64 (fileSize l + len p) in
  let w1 := emitLogEvent (logEventEmitter l) p (set_files (insert (name l) (c ++ p)) w) in
  let size := if cnt >=? maxSize l then len (c ++ p) else cnt in
  FileLogger_Write l p w
  = if size >=? maxSize l
    then (len p, None,
          mkFileLogger (name l) (maxSize l) (backups l) size
            (Some (mkFile (name l) false 0)) (logEventEmitter l),
          set_files (insert (name l) []) (backupFiles l w1))
    else (len p, None,
          mkFileLogger (name l) (maxSize l) (backups l) size
            (Some (if f_append f then f else mkFile (name l) false (f_pos f + length p)))
            (logEventEmitter l),
          w1).
Proof.
  intros Hw Hfile Hname Hc Hpos cnt w1 size.
  unfold FileLogger_Write, File_Write. rewrite Hfile, Hw, Hname.
  assert ((if f_append f
           then (len p, None, f, set_files (alter (λ c, c ++ p) (name l)) w)
           else (len p, None, mkFile (name l) false (f_pos f + length p),
                 set_files (alter (λ c, write_at c (f_pos f) p) (name l)) w))
          = (len p, @None error,
             if f_append f then f else mkFile (name l) false (f_pos f + length p),
             set_files (insert (name l) (c ++ p)) w)) as ->.
  { unfold set_files. destruct (f_append f) eqn:Happ.
    - by rewrite (alter_as_insert _ _ c).
    - destruct Hpos as [?|Hpos]; [done|].
      by rewrite (alter_as_insert _ _ c), Hpos, write_at_end. }
  set (f' := if f_append f then f else mkFile (name l) false (f_pos f + length p)).
  cbn [set_file set_fileSize name maxSize backups fileSize file logEventEmitter].
  fold cnt. fold w1.
  assert (os_Stat (name l) w1 = inl (len (c ++ p))) as ->.
  { unfold os_Stat. subst w1. destruct (logEventEmitter l); simpl;
      by rewrite Hw, lookup_insert_eq. }
  assert (os_Create (name l) (backupFiles l w1)
          = (Some (mkFile (name l) false 0), None,
             set_files (insert (name l) []) (backupFiles l w1))) as Hcreate.
  { unfold os_Create. rewrite backupFiles_fault. subst w1.
    destruct (logEventEmitter l); simpl; by rewrite Hw. }
  subst size. destruct (cnt >=? maxSize l) eqn:Hcnt.
  - cbn [set_file set_fileSize name maxSize backups fileSize file logEventEmitter].
    destruct (len (c ++ p) >=? maxSize l) eqn:Hlen; [|done].
    unfold FileLogger_Close, openFile.
    cbn [set_file set_fileSize name maxSize backups fileSize file logEventEmitter].
    change (backupFiles _ w1) with (backupFiles l w1).
    by rewrite Hcreate.
  - cbn [set_file set_fileSize name maxSize backups fileSize file logEventEmitter].
    by rewrite Hcnt.
Qed.

(** C3: with threshold 10 and retention 2 on an empty active file, writing
    [0123456789] rotates: the active file is empty and backup 1 holds the
    ten bytes.  Writing [abc] then leaves [abc] in the active file and the
    backups as they were.  Writing [0123456789A] then rotates again:
    backup 2 holds [0123456789], backup 1 holds [abc0123456789A] and the
    active file is empty. *)
Theorem scenario_rotation_trigger (nm : string) (e : LogEventEmitter) (w : World) :
  healthy w →
  files w !! nm = Some [] →
  let '(l0, w0) := NewFileLogger nm 10 2 e w in
  let '(l1, w1) := write_all l0 [B "0123456789"] w0 in
  let '(l2, w2) := write_all l1 [B "abc"] w1 in
  let '(l3, w3) := write_all l2 [B "0123456789A"] w2 in
  (files w1 !! nm = Some [] ∧ files w1 !! backupName nm 1 = Some (B "0123456789"))
  ∧ (files w2 !! nm = Some (B "abc")
     ∧ ∀ k, files w2 !! backupName nm k = files w1 !! backupName nm k)
  ∧ (files w3 !! backupName nm 2 = Some (B "0123456789")
     ∧ files w3 !! backupName nm 1 = Some (B "abc0123456789A")
     ∧ files w3 !! nm = Some []).
Proof.
  intros Hw Hempty.
  assert (∀ k, nm ≠ backupName nm k) as Hne.
  { intros k Heq. symmetry in Heq. by apply backupName_ne_name in Heq. }
  set (l0 := mkFileLogger nm 10 2 0 (Some (mkFile nm true 0)) e).
  set (l1 := mkFileLogger nm 10 2 10 (Some (mkFile nm false 0)) e).
  set (l2 := mkFileLogger nm 10 2 3 (Some (mkFile nm false 3)) e).
  set (l3 := mkFileLogger nm 10 2 14 (Some (mkFile nm false 0)) e).
  assert (NewFileLogger nm 10 2 e w = (l0, w)) as ->.
  { unfold NewFileLogger, openFile, os_Stat, os_OpenFile_append. simpl.
    by rewrite !Hw, Hempty. }
  (* the first write rotates *)
  set (w0 := emitLogEvent e (B "0123456789") (set_files (insert nm (B "0123456789")) w)).
  set (w1 := set_files (insert nm []) (backupFiles l0 w0)).
  assert (FileLogger_Write l0 (B "0123456789") w = (10, None, l1, w1)) as Hstep1.
  { by rewrite (FileLogger_Write_healthy l0 _ [] _ w Hw eq_refl eq_refl Hempty) by (by left). }
  assert (healthy w0) as Hw0 by (by apply healthy_emit_set_files).
  destruct (backupFiles_healthy l0 w0 (B "0123456789") Hw0) as (_ & Hb1 & _ & _).
  { by vm_compute. }
  { subst w0. rewrite files_emit_set_files. apply lookup_insert_eq. }
  assert (healthy w1) as Hw1 by (by apply healthy_after_rotation).
  assert (files w1 !! nm = Some []) as Hw1nm by apply lookup_insert_eq.
  assert (files w1 !! backupName nm 1 = Some (B "0123456789")) as Hw1b1.
  { subst w1. simpl. by rewrite lookup_insert_ne. }
  (* the second write does not *)
  set (w2 := emitLogEvent e (B "abc") (set_files (insert nm (B "abc")) w1)).
  assert (FileLogger_Write l1 (B "abc") w1 = (3, None, l2, w2)) as Hstep2.
  { by rewrite (FileLogger_Write_healthy l1 _ [] _ w1 Hw1 eq_refl eq_refl Hw1nm) by (by right). }
  assert (healthy w2) as Hw2 by (by apply healthy_emit_set_files).
  assert (files w2 !! nm = Some (B "abc")) as Hw2nm.
  { subst w2. rewrite files_emit_set_files. apply lookup_insert_eq. }
  assert (∀ k, files w2 !! backupName nm k = files w1 !! backupName nm k) as Hw2bk.
  { intros k. subst w2. rewrite files_emit_set_files. by apply lookup_insert_ne. }
  (* the third write rotates *)
  set (w2' := emitLogEvent e (B "0123456789A")
                (set_files (insert nm (B "abc0123456789A")) w2)).
  set (w3 := set_files (insert nm []) (backupFiles l2 w2')).
  assert (FileLogger_Write l2 (B "0123456789A") w2 = (11, None, l3, w3)) as Hstep3.
  { by rewrite (FileLogger_Write_healthy l2 _ (B "abc") _ w2 Hw2 eq_refl eq_refl Hw2nm)
      by (by right). }
  assert (healthy w2') as Hw2' by (by apply healthy_emit_set_files).
  destruct (backupFiles_healthy l2 w2' (B "abc0123456789A") Hw2') as (_ & Hc1 & Hc2 & _).
  { by vm_compute. }
  { subst w2'. rewrite files_emit_set_files. apply lookup_insert_eq. }
  specialize (Hc2 2 ltac:(simpl; lia)).
  assert (files w2' !! backupName nm 1 = Some (B "0123456789")) as Hw2'b1.
  { subst w2'. rewrite files_emit_set_files, lookup_insert_ne by done. by rewrite Hw2bk. }
  change (name l2) with nm in Hc1, Hc2. change (2 - 1) with 1 in Hc2.
  rewrite Hw2'b1 in Hc2.
  cbn [write_all]. rewrite Hstep1, Hstep2, Hstep3.
  split_and!; try done.
  - subst w3. simpl. by rewrite lookup_insert_ne.
  - subst w3. simpl. by rewrite lookup_insert_ne.
  - apply lookup_insert_eq.
Qed.

Lemma scenario_rotation_trigger_witness :
  healthy (sample_world [])
  ∧ files (sample_world []) !! "a.log" = Some []
  ∧ (let '(l0, w0) := NewFileLogger "a.log" 10 2 Observer (sample_world []) in
     let '(l1, w1) := write_all l0 [B "0123456789"] w0 in
     let '(l2, w2) := write_all l1 [B "abc"] w1 in
     let '(l3, w3) := write_all l2 [B "0123456789A"] w2 in
     (files w1 !! "a.log" = Some []
      ∧ files w1 !! backupName "a.log" 1 = Some (B "0123456789"))
     ∧ (files w2 !! "a.log" = Some (B "abc")
        ∧ ∀ k, files w2 !! backupName "a.log" k = files w1 !! backupName "a.log" k)
     ∧ (files w3 !! backupName "a.log" 2 = Some (B "0123456789")
        ∧ files w3 !! backupName "a.log" 1 = Some (B "abc0123456789A")
        ∧ files w3 !! "a.log" = Some [])).
Proof.
  assert (healthy (sample_world [])) as Hw by (intros ? ?; reflexivity).
  split; [exact Hw|]. split; [reflexivity|].
  exact (scenario_rotation_trigger "a.log" Observer (sample_world []) Hw eq_refl).
Defined.

(** The same scenario on a machine whose only file is the active file:
    the files after each write. *)
Example rotation_scenario_files :
  let '(l0, w0) := NewFileLogger "a.log" 10 2 Observer (sample_world []) in
  let '(l1, w1) := write_all l0 [B "0123456789"] w0 in
  let '(l2, w2) := write_all l1 [B "abc"] w1 in
  let '(l3, w3) := write_all l2 [B "0123456789A"] w2 in
  files w1 = {[ "a.log" := []; "a.log.1" := B "0123456789" ]}
  ∧ files w2 = {[ "a.log" := B "abc"; "a.log.1" := B "0123456789" ]}
  ∧ files w3 = {[ "a.log" := []; "a.log.1" := B "abc0123456789A";
                  "a.log.2" := B "0123456789" ]}.
Proof. by vm_compute. Qed.

Lemma write_at_fresh (p : bytes) : write_at [] 0 p = p.
Proof.
  unfold write_at. destruct p as [|a p]; [done|].
  simpl. by rewrite app_nil_r.
Qed.

(** A fresh logger: the file is created, or found empty and opened for
    appending; either way the handle writes at the start of an empty file. *)
Lemma NewFileLogger_fresh nm maxSz bks e w :
  healthy w → (files w !! nm = None ∨ files w !! nm = Some []) →
  ∃ f w1,
    NewFileLogger nm maxSz bks e w = (mkFileLogger nm maxSz bks 0 (Some f) e, w1)
    ∧ f_name f = nm ∧ f_pos f = 0%nat
    ∧ healthy w1 ∧ files w1 !! nm = Some [] ∧ events w1 = events w.
Proof.
  intros Hw [Hnone|Hempty]; unfold NewFileLogger, openFile, os_Stat; simpl;
    rewrite Hw.
  - rewrite Hnone. unfold os_Create. rewrite Hw. simpl.
    eexists _, _. split; [reflexivity|]. simpl.
    repeat split; try done. apply lookup_insert_eq.
  - rewrite Hempty. unfold os_OpenFile_append. rewrite Hw, Hempty. simpl.
    eexists _, _. split; [reflexivity|]. by simpl.
Qed.

(** C5: a byte slice shorter than the rotation threshold, written to a
    fresh sink on a working file system, is what [ReadLog(0, 0)] returns. *)
Theorem write_ReadLog_roundtrip (nm : string) (maxSz bks : Z) (e : LogEventEmitter)
  (w : World) (p : bytes) :
  healthy w →
  files w !! nm = None ∨ files w !! nm = Some [] →
  len p ≤ maxAlloc →
  len p < maxSz →
  let '(l, w1) := NewFileLogger nm maxSz bks e w in
  let '(n, err, l2, w2) := FileLogger_Write l p w1 in
  n = len p ∧ err = None ∧ FileLogger_ReadLog l2 0 0 w2 = Ret (p, None).
Proof.
  intros Hw Hfresh Halloc Hsmall.
  destruct (NewFileLogger_fresh nm maxSz bks e w Hw Hfresh)
    as (f & w1 & -> & Hname & Hpos & Hw1 & Hfile & _).
  pose proof (len_nonneg p) as Hp. pose proof maxAlloc_int64 as Hmax.
  assert (∃ f' w2,
    File_Write f p w1 = (len p, None, f', w2)
    ∧ healthy w2 ∧ files w2 !! nm = Some p) as (f' & w2 & Hwrite & Hw2 & Hfile2).
  { unfold File_Write. rewrite Hw1. destruct f as [fn fa fp]. simpl in *. subst fn fp.
    destruct fa; eexists _, _; (split; [reflexivity|]); (split; [done|]); simpl;
      rewrite lookup_alter_eq, Hfile; simpl; [done|].
    by rewrite write_at_fresh. }
  unfold FileLogger_Write. simpl. rewrite Hwrite. simpl.
  rewrite wrap64_id by (unfold in_int64, int64_min, int64_max in *; lia).
  rewrite Z.add_0_l, Z.geb_leb, (proj2 (Z.leb_gt maxSz (len p))) by lia.
  simpl. rewrite ?Z.geb_leb, ?(proj2 (Z.leb_gt maxSz (len p))) by lia.
  split; [done|]. split; [done|].
  set (l2 := mkFileLogger nm maxSz bks (len p) (Some f') e).
  assert (healthy (emitLogEvent e p w2)) as Hw3 by (by destruct e).
  assert (files (emitLogEvent e p w2) !! name l2 = Some p) as Hfile3 by (by destruct e).
  rewrite (FileLogger_ReadLog_rest l2 _ p Hw3 Hfile3) by lia.
  rewrite (proj2 (Z.ltb_ge (len p) 0)) by lia. by rewrite drop_0.
Qed.

Lemma write_ReadLog_roundtrip_witness :
  healthy (world_of ∅)
  ∧ (files (world_of ∅) !! "a.log" = None ∨ files (world_of ∅) !! "a.log" = Some [])
  ∧ len (B "hello") ≤ maxAlloc
  ∧ len (B "hello") < 10
  ∧ (let '(l, w1) := NewFileLogger "a.log" 10 2 Observer (world_of ∅) in
     let '(n, err, l2, w2) := FileLogger_Write l (B "hello") w1 in
     n = len (B "hello") ∧ err = None
     ∧ FileLogger_ReadLog l2 0 0 w2 = Ret (B "hello", None)).
Proof.
  assert (healthy (world_of ∅)) as Hw by (intros ? ?; reflexivity).
  assert (files (world_of ∅) !! "a.log" = None
          ∨ files (world_of ∅) !! "a.log" = Some []) as Hfresh by (left; reflexivity).
  assert (len (B "hello") ≤ maxAlloc) as Halloc by (by vm_compute).
  assert (len (B "hello") < 10) as Hsmall by (by vm_compute).
  split; [exact Hw|]. split; [exact Hfresh|]. split; [exact Halloc|]. split; [exact Hsmall|].
  exact (write_ReadLog_roundtrip "a.log" 10 2 Observer (world_of ∅) (B "hello")
           Hw Hfresh Halloc Hsmall).
Defined.

(** ** Retention *)

Lemma os_Rename_dom (src dst path : string) (w : World) :
  is_Some (files (os_Rename src dst w).2 !! path) →
  path = dst ∨ is_Some (files w !! path).
Proof.
  unfold os_Rename. destruct (fault w SysRename src); [by right|].
  destruct (files w !! src) as [c|] eqn:Hsrc; [|by right].
  simpl. destruct (decide (dst = path)) as [->|Hne]; [by left|].
  rewrite lookup_insert_ne by done. intros Hsome. right.
  destruct (decide (src = path)) as [->|Hne']; [by rewrite lookup_delete_eq in Hsome|].
  by rewrite lookup_delete_ne in Hsome.
Qed.

Lemma shiftBackups_dom (nm path : string) (i : nat) (w : World) :
  Z.of_nat i + 1 ≤ int64_max →
  is_Some (files (shiftBackups nm i w) !! path) →
  is_Some (files w !! path) ∨ ∃ k, 2 ≤ k ≤ Z.of_nat i + 1 ∧ path = backupName nm k.
Proof.
  revert w. induction i as [|i IH]; intros w Hi Hsome; [by left|].
  cbn [shiftBackups] in Hsome.
  rewrite wrap64_id in Hsome by (unfold in_int64, int64_min, int64_max in *; lia).
  apply IH in Hsome; [|lia].
  destruct Hsome as [Hsome|(k & Hk & ->)].
  - destruct (os_Stat (backupName nm (Z.of_nat (S i))) w); [|by left].
    apply os_Rename_dom in Hsome as [->|Hsome]; [|by left].
    right. exists (Z.of_nat (S i) + 1). split; [lia|done].
  - right. exists k. split; [lia|done].
Qed.

Lemma backupFiles_dom (l : FileLogger) (path : string) (w : World) :
  1 ≤ backups l ≤ int64_max →
  is_Some (files (backupFiles l w) !! path) →
  is_Some (files w !! path) ∨ own_path l path.
Proof.
  intros Hn Hsome. unfold backupFiles in Hsome.
  rewrite wrap64_id in Hsome by (unfold in_int64, int64_min, int64_max in *; lia).
  apply os_Rename_dom in Hsome as [->|Hsome].
  - right. right. exists 1. split; [lia|apply backupName_1].
  - apply shiftBackups_dom in Hsome; [|lia].
    destruct Hsome as [Hsome|(k & Hk & ->)]; [by left|].
    right. right. exists k. split; [lia|done].
Qed.

Lemma openFile_trunc_dom (l l' : FileLogger) (path : string) (w w' : World) (err : option error) :
  openFile l true w = (err, l', w') →
  name l' = name l ∧ backups l' = backups l ∧ maxSize l' = maxSize l
  ∧ (is_Some (files w' !! path) → path = name l ∨ is_Some (files w !! path)).
Proof.
  unfold openFile, os_Create. intros Hopen.
  assert ((let '(f, err, w') :=
             match fault w SysCreate (name l) with
             | Some e => (None, Some (PathError e), w)
             | None => (Some (mkFile (name l) false 0), None, set_files (insert (name l) []) w)
             end in (err, set_file f l, w')) = (err, l', w')) as Hrun.
  { by destruct (os_Stat (name l) w). }
  clear Hopen. destruct (fault w SysCreate (name l)); simplify_eq; simpl.
  - split_and!; try done. by right.
  - split_and!; try done. destruct (decide (name l = path)) as [->|Hne]; [by left|].
    rewrite lookup_insert_ne by done. by right.
Qed.

(** A write creates no path other than the active file and the backups
    numbered from 1 to the retention count, when that count is at least 1. *)
Lemma FileLogger_Write_dom (l l' : FileLogger) (p : bytes) (path : string) (w w' : World)
  (n : Z) (err : option error) :
  1 ≤ backups l ≤ int64_max →
  FileLogger_Write l p w = (n, err, l', w') →
  name l' = name l ∧ backups l' = backups l
  ∧ (is_Some (files w' !! path) → is_Some (files w !! path) ∨ own_path l path).
Proof.
  intros Hn. unfold FileLogger_Write.
  destruct (file l) as [f|]; [|intros; simplify_eq; by split_and!; [| |left]].
  assert (∀ g, is_Some (files (set_files (alter g (f_name f)) w) !! path)
               → is_Some (files w !! path)) as Halter.
  { intros g. simpl. rewrite lookup_alter. destruct (decide (f_name f = path)) as [->|_]; [|done].
    by rewrite fmap_is_Some. }
  unfold File_Write. destruct (fault w SysWrite (f_name f)).
  { intros; simplify_eq; by split_and!; [| |left]. }
  set (f' := if f_append f then f else mkFile (f_name f) false (f_pos f + length p)).
  set (w1 := if f_append f then set_files (alter (λ c, c ++ p) (f_name f)) w
             else set_files (alter (λ c, write_at c (f_pos f) p) (f_name f)) w).
  assert (is_Some (files w1 !! path) → is_Some (files w !! path)) as Hw1.
  { subst w1. destruct (f_append f); apply Halter. }
  assert ((if f_append f
           then (len p, None, f, set_files (alter (λ c, c ++ p) (f_name f)) w)
           else (len p, None, mkFile (f_name f) false (f_pos f + length p),
                 set_files (alter (λ c, write_at c (f_pos f) p) (f_name f)) w))
          = (len p, @None error, f', w1)) as -> by (subst f' w1; by destruct (f_append f)).
  clearbody w1 f'. clear Halter. simpl.
  set (w2 := emitLogEvent (logEventEmitter l) p w1).
  assert (is_Some (files w2 !! path) → is_Some (files w !! path)) as Hw2.
  { subst w2. by destruct (logEventEmitter l). }
  clearbody w2.
  assert (∀ l1 : FileLogger, name l1 = name l → backups l1 = backups l →
            (if fileSize l1 >=? maxSize l1
             then let '(_, l2) := FileLogger_Close l1 w2 in
                  let w3 := backupFiles l2 w2 in
                  let '(_, l3, w4) := openFile l2 true w3 in (len p, @None error, l3, w4)
             else (len p, None, l1, w2)) = (n, err, l', w') →
            name l' = name l ∧ backups l' = backups l
            ∧ (is_Some (files w' !! path) → is_Some (files w !! path) ∨ own_path l path))
    as Hrotate.
  { intros l1 Hname Hbk. destruct (fileSize l1 >=? maxSize l1).
    - assert (∃ l2, FileLogger_Close l1 w2 = ((FileLogger_Close l1 w2).1, l2)
                    ∧ name l2 = name l ∧ backups l2 = backups l) as (l2 & -> & Hname2 & Hbk2).
      { unfold FileLogger_Close. destruct (file l1); by eexists. }
      intros Heq. cbv zeta in Heq.
      destruct (openFile l2 true (backupFiles l2 w2)) as [[e3 l3] w4] eqn:Hopen.
      simplify_eq.
      apply (openFile_trunc_dom _ _ path) in Hopen as (Hname3 & Hbk3 & _ & Hdom).
      split_and!; [congruence|congruence|]. intros Hsome.
      apply Hdom in Hsome as [->|Hsome]; [right; left; done|].
      apply backupFiles_dom in Hsome; [|lia].
      destruct Hsome as [Hsome|Hown].
      + left. by apply Hw2.
      + right. unfold own_path in *. by rewrite Hname2, Hbk2 in Hown.
    - intros Heq. simplify_eq. split_and!; [done|done|]. intros Hsome. left. by apply Hw2. }
  destruct (wrap64 (fileSize l + len p) >=? maxSize l) eqn:Hge.
  - destruct (os_Stat (name l) w2) as [size|errStat].
    + by apply (Hrotate (set_fileSize size
                           (set_fileSize (wrap64 (fileSize l + len p)) (set_file (Some f') l)))).
    + intros Heq. simplify_eq. split_and!; [done|done|]. intros Hsome. left. by apply Hw2.
  - intros Heq.
    apply (Hrotate (set_fileSize (wrap64 (fileSize l + len p)) (set_file (Some f') l)));
      [done|done|].
    simpl. by rewrite Hge.
Qed.

(** With a retention count of at least 1, no sequence of writes leaves a
    backup whose index is outside 1 .. retention count. *)
Lemma write_all_backups_in_range (ps : list bytes) (l : FileLogger) (w : World) :
  1 ≤ backups l ≤ int64_max →
  backups_in_range l w →
  backups_in_range (write_all l ps w).1 (write_all l ps w).2.
Proof.
  revert l w. induction ps as [|p ps IH]; intros l w Hn Hinv; [done|].
  simpl. destruct (FileLogger_Write l p w) as [[[n err] l'] w'] eqn:Hwrite.
  assert (name l' = name l ∧ backups l' = backups l) as [Hname Hbk].
  { by destruct (FileLogger_Write_dom l l' p "" w w' n err Hn Hwrite) as (? & ? & _). }
  apply IH; [lia|].
  intros i Hsome. rewrite Hname in Hsome. rewrite Hbk.
  destruct (FileLogger_Write_dom l l' p (backupName (name l) i) w w' n err Hn Hwrite)
    as (_ & _ & Hdom).
  apply Hdom in Hsome as [Hsome|[Heq|(k & Hk & Heq)]].
  - by apply Hinv.
  - by apply backupName_ne_name in Heq.
  - apply backupName_inj in Heq. lia.
Qed.

(** With a retention count [N] of at least 1, a write that rotates on a
    working file system leaves the active file empty, the content rotated
    out in backup 1 and each earlier backup [k-1] in backup [k]; what
    backup [N] held is dropped when backup [N-1] exists. *)
Lemma FileLogger_Write_rotates (l : FileLogger) (f : File) (c p : bytes) (w : World) :
  healthy w →
  file l = Some f → f_name f = name l →
  files w !! name l = Some c →
  f_append f = true ∨ f_pos f = length c →
  1 ≤ backups l ≤ int64_max →
  maxSize l ≤ wrap64 (fileSize l + len p) →
  maxSize l ≤ len (c ++ p) →
  let '(n, err, l', w') := FileLogger_Write l p w in
  n = len p ∧ err = None
  ∧ files w' !! name l = Some []
  ∧ files w' !! backupName (name l) 1 = Some (c ++ p)
  ∧ ∀ k, 2 ≤ k ≤ backups l →
      files w' !! backupName (name l) k
      = match files w !! backupName (name l) (k - 1) with
        | Some c' => Some c'
        | None => if k <? backups l then None else files w !! backupName (name l) k
        end.
Proof.
  intros Hw Hfile Hname Hc Hpos Hn Hcnt Hsize.
  rewrite (FileLogger_Write_healthy l f c p w Hw Hfile Hname Hc Hpos).
  rewrite (proj2 (Z.geb_le _ _) Hcnt), (proj2 (Z.geb_le _ _) Hsize).
  set (w1 := emitLogEvent (logEventEmitter l) p (set_files (insert (name l) (c ++ p)) w)).
  assert (healthy w1) as Hw1 by (by apply healthy_emit_set_files).
  assert (∀ k, name l ≠ backupName (name l) k) as Hne.
  { intros k Heq. symmetry in Heq. by apply backupName_ne_name in Heq. }
  assert (∀ k, files w1 !! backupName (name l) k = files w !! backupName (name l) k) as Hbk.
  { intros k. subst w1. rewrite files_emit_set_files. by apply lookup_insert_ne. }
  destruct (backupFiles_healthy l w1 (c ++ p) Hw1 Hn) as (_ & Hone & Hup & _).
  { subst w1. rewrite files_emit_set_files. apply lookup_insert_eq. }
  split_and!; [done|done|apply lookup_insert_eq| |].
  - simpl. by rewrite lookup_insert_ne.
  - intros k Hk. simpl. rewrite lookup_insert_ne by done.
    by rewrite Hup, !Hbk by done.
Qed.

(** C4 (defect): no backup is to carry an index above the retention count,
    so a rotation with retention 0 is to leave no backup.  With threshold
    10 and retention 0, the write of ten bytes rotates and the active file
    is renamed to backup 1, which stays. *)
Theorem rotation_with_retention_0_keeps_backup_1 :
  let '(l0, w0) := NewFileLogger "a.log" 10 0 Observer (sample_world []) in
  let '(l1, w1) := write_all l0 [B "0123456789"] w0 in
  backups l1 = 0
  ∧ files w1 = {[ "a.log" := []; "a.log.1" := B "0123456789" ]}.
Proof. by vm_compute. Qed.

(** ** Fan-out *)

Section Fanout.
Context {L : Type} `{Logger L}.

(** Past the primary sink the loop keeps the results it holds. *)
Lemma writeLoop_secondary (ls : list L) (i : nat) (p : bytes) (n : Z)
  (err : option error) (w : World) :
  writeLoop (S i) ls p n err w = (n, err, (write_each ls p w).1, (write_each ls p w).2).
Proof.
  revert i w. induction ls as [|logger rest IH]; intros i w; simpl; [done|].
  destruct (Write logger p w) as [[[n' err'] logger'] w'].
  rewrite IH. by destruct (write_each rest p w').
Qed.

(** C6: on a dispatcher with a primary sink, [Write] returns the bytes
    written and the error of the primary sink, whatever the other sinks
    answer, and has written to every sink in order. *)
Theorem CompositeLogger_Write_primary (l0 : L) (rest : list L) (p : bytes) (w : World) :
  let '(n, err, cl, w') := CompositeLogger_Write (NewCompositeLogger (l0 :: rest)) p w in
  (n, err) = (Write l0 p w).1.1
  ∧ (loggers cl, w') = write_each (l0 :: rest) p w.
Proof.
  unfold CompositeLogger_Write, NewCompositeLogger. simpl.
  destruct (Write l0 p w) as [[[n0 err0] l0'] w0]. simpl.
  rewrite writeLoop_secondary. by destruct (write_each rest p w0).
Qed.
End Fanout.

(** A primary file sink that succeeds next to a secondary sink that fails:
    the caller sees the success of the primary. *)
Example scenario_fanout_isolation :
  Write (FileSink closed_logger) (B "abc") (sample_world []) = (0, Some ErrInvalid, FileSink closed_logger, sample_world [])
  ∧ (CompositeLogger_Write
       (NewCompositeLogger [FileSink (sample_logger 10 2); FileSink closed_logger])
       (B "abc") (sample_world [])).1.1 = (3, None).
Proof. by vm_compute. Qed.

(** ** The standard-stream sink *)

(** C8: [StdLogger.Write] forwards the bytes to its stream and returns what
    the stream answers; the injected observer receives the bytes when that
    answer carries an error, and nothing when it carries none. *)
Theorem StdLogger_Write_spec (l : StdLogger) (p : bytes) (w : World) :
  let '(n, err, l', w') := StdLogger_Write l p w in
  (n, err) = stream_write w (writer l) p
  ∧ l' = l
  ∧ forwarded w' = forwarded w ++ [(writer l, p)]
  ∧ events w' = events w ++
      match std_logEventEmitter l, err with
      | Observer, Some _ => [p]
      | _, _ => []
      end.
Proof.
  unfold StdLogger_Write, Stream_Write.
  destruct (stream_write w (writer l) p) as [n [e|]];
    destruct l as [[] s]; simpl; by rewrite ?app_nil_r.
Qed.

(** ** Notification by the file sink *)

Lemma os_Rename_events (src dst : string) (w : World) :
  events (os_Rename src dst w).2 = events w.
Proof.
  unfold os_Rename. destruct (fault w SysRename src); [done|].
  by destruct (files w !! src).
Qed.

Lemma shiftBackups_events (nm : string) (i : nat) (w : World) :
  events (shiftBackups nm i w) = events w.
Proof.
  revert w. induction i as [|i IH]; intros w; [done|].
  simpl. rewrite IH. destruct (os_Stat _ w); [apply os_Rename_events|done].
Qed.

Lemma backupFiles_events (l : FileLogger) (w : World) :
  events (backupFiles l w) = events w.
Proof. unfold backupFiles. by rewrite os_Rename_events, shiftBackups_events. Qed.

Lemma os_Create_events (nm : string) (w : World) :
  events (os_Create nm w).2 = events w.
Proof. unfold os_Create. by destruct (fault w SysCreate nm). Qed.

Lemma openFile_events (l : FileLogger) (trunc : bool) (w : World) :
  events (openFile l trunc w).2 = events w.
Proof.
  unfold openFile, os_Create, os_OpenFile_append.
  destruct trunc, (os_Stat (name l) w);
    destruct (fault w SysCreate (name l)), (fault w SysOpenAppend (name l)),
      (files w !! name l); done.
Qed.

(** The file sink notifies its observer exactly when the write to the
    file succeeds, whatever [Write] returns afterwards. *)
Lemma FileLogger_Write_events (l : FileLogger) (f : File) (p : bytes) (w : World) :
  file l = Some f →
  events (FileLogger_Write l p w).2
  = events w ++ match logEventEmitter l, fault w SysWrite (f_name f) with
                | Observer, None => [p]
                | _, _ => []
                end.
Proof.
  intros Hfile. unfold FileLogger_Write, File_Write. rewrite Hfile.
  destruct (fault w SysWrite (f_name f)) as [e|].
  { simpl. destruct (logEventEmitter l); by rewrite app_nil_r. }
  set (w1 := if f_append f then set_files (alter (λ c, c ++ p) (f_name f)) w
             else set_files (alter (λ c, write_at c (f_pos f) p) (f_name f)) w).
  set (f' := if f_append f then f else mkFile (f_name f) false (f_pos f + length p)).
  assert ((if f_append f
           then (len p, None, f, set_files (alter (λ c, c ++ p) (f_name f)) w)
           else (len p, None, mkFile (f_name f) false (f_pos f + length p),
                 set_files (alter (λ c, write_at c (f_pos f) p) (f_name f)) w))
          = (len p, @None error, f', w1)) as -> by (subst f' w1; by destruct (f_append f)).
  assert (events w1 = events w) as Hw1 by (subst w1; by destruct (f_append f)).
  clearbody w1 f'. simpl.
  set (w2 := emitLogEvent (logEventEmitter l) p w1).
  assert (events w2 = events w ++ match logEventEmitter l with
                                  | Observer => [p]
                                  | NullLogEventEmitter => []
                                  end) as Hw2.
  { subst w2. destruct (logEventEmitter l); simpl; rewrite Hw1; by rewrite ?app_nil_r. }
  clearbody w2. rewrite <- Hw2.
  repeat match goal with
         | |- context [if ?b then _ else _] => destruct b
         | |- context [match os_Stat ?a ?b with _ => _ end] => destruct (os_Stat a b)
         | |- context [os_Create ?a ?b] =>
             pose proof (os_Create_events a b) as Hcreate;
             destruct (os_Create a b) as [[??]?]; simpl in Hcreate
         end; simpl; rewrite ?Hcreate, ?backupFiles_events; done.
Qed.

(** ** Construction *)

(** C9: whatever the destination specification, the dispatcher built by
    [NewLogger] has a primary sink, which answers [ReadLog], [ReadTailLog],
    [ClearCurLogFile] and [ClearAllLogFile]; built from the empty
    specification it holds one discard sink, whose errors these return; an
    empty token is built as a discard sink. *)
Theorem NewLogger_has_primary (programName logFile : string) (maxBytes backups_ : Z)
  (props : gmap string string) (e : LogEventEmitter) (w : World) :
  (∃ l0 rest,
     loggers (NewLogger programName logFile maxBytes backups_ props e w).1 = l0 :: rest
     ∧ ∀ cl, loggers cl = l0 :: rest →
         (∀ o n w0, CompositeLogger_ReadLog cl o n w0 = ReadLog l0 o n w0)
         ∧ (∀ o n w0, CompositeLogger_ReadTailLog cl o n w0 = ReadTailLog l0 o n w0)
         ∧ (∀ w0, ∃ r, CompositeLogger_ClearCurLogFile cl w0 = Ret r
                       ∧ r.1.1 = (ClearCurLogFile l0 w0).1.1)
         ∧ (∀ w0, ∃ r, CompositeLogger_ClearAllLogFile cl w0 = Ret r
                       ∧ r.1.1 = (ClearAllLogFile l0 w0).1.1))
  ∧ (let '(cl, w') := NewLogger programName "" maxBytes backups_ props e w in
     loggers cl = [NullSink (NewNullLogger e)] ∧ w' = w
     ∧ (∀ o n, CompositeLogger_ReadLog cl o n w' = Ret ([], Some (errorString "NO_FILE")))
     ∧ (∀ o n, CompositeLogger_ReadTailLog cl o n w'
               = Ret ([], 0, false, Some (errorString "NO_FILE")))
     ∧ CompositeLogger_ClearCurLogFile cl w' = Ret (Some (errorString "No log"), cl, w')
     ∧ CompositeLogger_ClearAllLogFile cl w' = Ret (Some (errorString "NO_FILE"), cl, w'))
  ∧ createLogger programName "" maxBytes backups_ props e w = (NullSink (NewNullLogger e), w).
Proof.
  split; [|split; [vm_compute; repeat split|reflexivity]].
  unfold NewLogger, splitLogFile, strings_Split.
  destruct (split_pieces "," logFile) as [piece pieces].
  rewrite fmap_cons. cbn [createLoggers].
  destruct (createLogger programName (strings_TrimSpace piece) maxBytes backups_ props e w)
    as [l0 w1].
  destruct (createLoggers 1 programName (strings_TrimSpace <$> pieces) maxBytes backups_
              props e w1) as [rest w2].
  exists l0, rest. split; [done|].
  intros cl Hcl.
  unfold CompositeLogger_ReadLog, CompositeLogger_ReadTailLog,
    CompositeLogger_ClearCurLogFile, CompositeLogger_ClearAllLogFile.
  rewrite Hcl. repeat split; try done.
  - intros w0. destruct (ClearCurLogFile l0 w0) as [[err l0'] w0']. by eexists.
  - intros w0. destruct (ClearAllLogFile l0 w0) as [[err l0'] w0']. by eexists.
Qed.

(** ** Failures *)

(** A write through a handle does not change what [os.Stat] answers about
    the presence of a path. *)
Lemma os_Stat_error_alter (g : bytes → bytes) (fn nm : string) (w : World) (e : error) :
  os_Stat nm w = inr e → os_Stat nm (set_files (alter g fn) w) = inr e.
Proof.
  unfold os_Stat. simpl. destruct (fault w SysStat nm); [done|].
  rewrite lookup_alter. destruct (decide (fn = nm)) as [->|_].
  - by destruct (files w !! nm).
  - done.
Qed.

Lemma os_Stat_emitLogEvent (em : LogEventEmitter) (p : bytes) (nm : string) (w : World) :
  os_Stat nm (emitLogEvent em p w) = os_Stat nm w.
Proof. by destruct em. Qed.

(** C10: when the write to the file succeeds, the size counter reaches the
    threshold and the corrective [os.Stat] fails, [Write] returns the
    number of bytes of the input together with the error of [os.Stat]; by
    then the observer has received the content, the counter has grown by
    the bytes written and the bytes are in the file. *)
Theorem FileLogger_Write_stat_failure (l : FileLogger) (f : File) (p : bytes) (w : World)
  (errStat : error) :
  file l = Some f →
  fault w SysWrite (f_name f) = None →
  maxSize l ≤ wrap64 (fileSize l + len p) →
  os_Stat (name l) w = inr errStat →
  let '(n, err, l', w') := FileLogger_Write l p w in
  n = len p ∧ err = Some errStat
  ∧ events w' = events (emitLogEvent (logEventEmitter l) p w)
  ∧ fileSize l' = wrap64 (fileSize l + len p)
  ∧ files w' !! f_name f
    = (λ c, if f_append f then c ++ p else write_at c (f_pos f) p) <$> files w !! f_name f.
Proof.
  intros Hfile Hwrite Hsize Hstat.
  unfold FileLogger_Write, File_Write. rewrite Hfile, Hwrite.
  destruct (f_append f) eqn:Happ; simpl;
    rewrite Z.geb_leb, (proj2 (Z.leb_le _ _) Hsize);
    rewrite os_Stat_emitLogEvent, (os_Stat_error_alter _ _ _ _ _ Hstat);
    destruct (logEventEmitter l); simpl; by rewrite lookup_alter_eq.
Qed.

Lemma FileLogger_Write_stat_failure_witness :
  file (sample_logger 3 2) = Some (mkFile "a.log" true 0)
  ∧ fault stat_denied_world SysWrite "a.log" = None
  ∧ maxSize (sample_logger 3 2) ≤ wrap64 (fileSize (sample_logger 3 2) + len (B "abc"))
  ∧ os_Stat (name (sample_logger 3 2)) stat_denied_world = inr (PathError EACCES)
  ∧ (let '(n, err, l', w') := FileLogger_Write (sample_logger 3 2) (B "abc") stat_denied_world in
     n = len (B "abc") ∧ err = Some (PathError EACCES)
     ∧ events w' = events (emitLogEvent Observer (B "abc") stat_denied_world)
     ∧ fileSize l' = wrap64 (fileSize (sample_logger 3 2) + len (B "abc"))
     ∧ files w' !! "a.log" = (λ c, c ++ B "abc") <$> files stat_denied_world !! "a.log").
Proof.
  assert (maxSize (sample_logger 3 2)
          ≤ wrap64 (fileSize (sample_logger 3 2) + len (B "abc"))) as Hsize by (by vm_compute).
  split; [reflexivity|]. split; [reflexivity|]. split; [exact Hsize|].
  split; [reflexivity|].
  exact (FileLogger_Write_stat_failure (sample_logger 3 2) (mkFile "a.log" true 0) (B "abc")
           stat_denied_world (PathError EACCES) eq_refl eq_refl Hsize eq_refl).
Defined.

(** ** Clearing *)

Section Clearing.
Variables (nm : string) (w : World).
(** Only removals may fail. *)
Hypothesis Honly : ∀ c path, c ≠ SysRemove → fault w c path = None.

Let bk (k : nat) : string := backupName nm (Z.of_nat k).

Lemma bk_inj j k : bk j = bk k → j = k.
Proof. intros Heq. apply backupName_inj in Heq. lia. Qed.

(** When every removal asked for is granted, the loop ends without
    error, the backups up to [i] are gone and nothing else changed. *)
Lemma removeBackups_granted (i : nat) (w0 : World) :
  fault w0 = fault w →
  (∀ k, (1 ≤ k ≤ i)%nat → is_Some (files w0 !! bk k) → fault w SysRemove (bk k) = None) →
  ∃ w', removeBackups nm i w0 = (None, w')
        ∧ fault w' = fault w
        ∧ (∀ k, (1 ≤ k ≤ i)%nat → files w' !! bk k = None)
        ∧ (∀ path, (∀ k, (1 ≤ k ≤ i)%nat → path ≠ bk k) → files w' !! path = files w0 !! path).
Proof.
  revert w0. induction i as [|i IH]; intros w0 Hfault Hgranted.
  - exists w0. simpl. split_and!; [done|done|intros; lia|done].
  - simpl. fold (bk (S i)). unfold os_Stat, os_Remove.
    rewrite Hfault, Honly by done.
    destruct (files w0 !! bk (S i)) as [c|] eqn:Hc.
    + rewrite Hgranted by (rewrite ?Hc; eauto; lia).
      destruct (IH (set_files (delete (bk (S i))) w0)) as (w' & -> & Hf & Hgone & Hrest).
      { done. }
      { intros k Hk Hsome. apply Hgranted; [lia|].
        simpl in Hsome. rewrite lookup_delete_ne in Hsome; [done|].
        intros Heq. apply bk_inj in Heq. lia. }
      exists w'. split_and!; [done|done| |].
      * intros k Hk. destruct (decide (k = S i)) as [->|Hne].
        -- rewrite Hrest; [apply lookup_delete_eq|].
           intros j Hj Heq. apply bk_inj in Heq. lia.
        -- apply Hgone. lia.
      * intros path Hpath. rewrite Hrest by (intros k Hk; apply Hpath; lia).
        simpl. apply lookup_delete_ne. intros Heq. by apply (Hpath (S i)); [lia|].
    + destruct (IH w0) as (w' & -> & Hf & Hgone & Hrest).
      { done. }
      { intros k Hk. apply Hgranted. lia. }
      exists w'. split_and!; [done|done| |].
      * intros k Hk. destruct (decide (k = S i)) as [->|Hne].
        -- rewrite Hrest; [done|]. intros j Hj Heq. apply bk_inj in Heq. lia.
        -- apply Hgone. lia.
      * intros path Hpath. apply Hrest. intros k Hk. apply Hpath. lia.
Qed.

(** When the removal of backup [k] is refused and those asked for before
    it are granted, the loop ends with that error; the backups above [k]
    are gone and nothing else changed. *)
Lemma removeBackups_refused (i k : nat) (e : errno) (w0 : World) :
  fault w0 = fault w →
  (1 ≤ k ≤ i)%nat →
  is_Some (files w0 !! bk k) →
  fault w SysRemove (bk k) = Some e →
  (∀ j, (k < j ≤ i)%nat → is_Some (files w0 !! bk j) → fault w SysRemove (bk j) = None) →
  ∃ w', removeBackups nm i w0 = (Some (PathError e), w')
        ∧ (∀ j, (k < j ≤ i)%nat → files w' !! bk j = None)
        ∧ (∀ path, (∀ j, (k < j ≤ i)%nat → path ≠ bk j) → files w' !! path = files w0 !! path).
Proof.
  revert w0. induction i as [|i IH]; intros w0 Hfault Hk Hsome Hrefused Hgranted; [lia|].
  simpl. fold (bk (S i)). unfold os_Stat, os_Remove.
  rewrite Hfault, Honly by done.
  destruct (decide (k = S i)) as [->|Hne].
  - destruct Hsome as [c Hc]. rewrite Hc, Hrefused.
    exists w0. split_and!; [done|intros; lia|done].
  - destruct (files w0 !! bk (S i)) as [c|] eqn:Hc.
    + rewrite Hgranted by (rewrite ?Hc; eauto; lia).
      destruct (IH (set_files (delete (bk (S i))) w0)) as (w' & -> & Hgone & Hrest).
      { done. }
      { lia. }
      { simpl. rewrite lookup_delete_ne; [done|].
        intros Heq. apply bk_inj in Heq. lia. }
      { done. }
      { intros j Hj Hsome'. apply Hgranted; [lia|].
        simpl in Hsome'. rewrite lookup_delete_ne in Hsome'; [done|].
        intros Heq. apply bk_inj in Heq. lia. }
      exists w'. split_and!; [done| |].
      * intros j Hj. destruct (decide (j = S i)) as [->|Hnej].
        -- rewrite Hrest; [apply lookup_delete_eq|].
           intros j' Hj' Heq. apply bk_inj in Heq. lia.
        -- apply Hgone. lia.
      * intros path Hpath. rewrite Hrest by (intros j Hj; apply Hpath; lia).
        simpl. apply lookup_delete_ne. intros Heq. by apply (Hpath (S i)); [lia|].
    + destruct (IH w0) as (w' & -> & Hgone & Hrest); [done|lia|done|done| |].
      { intros j Hj. apply Hgranted. lia. }
      exists w'. split_and!; [done| |].
      * intros j Hj. destruct (decide (j = S i)) as [->|Hnej].
        -- rewrite Hrest; [done|]. intros j' Hj' Heq. apply bk_inj in Heq. lia.
        -- apply Hgone. lia.
      * intros path Hpath. apply Hrest. intros j Hj. apply Hpath. lia.
Qed.
End Clearing.

(** C7: [ClearAllLogFile], on a machine where only removals may fail.
    When every removal it asks for is granted, it returns no error, no
    backup with an index from 1 to the retention count is left, the active
    file is empty and no other file changed; this includes the case of no
    backup at all.  When the removal of backup [k] is refused, those asked
    for before it being granted, it returns that error; the backups above
    [k] stay removed, and the backups up to [k] and the active file are as
    they were. *)
Theorem FileLogger_ClearAllLogFile_spec (l : FileLogger) (w : World) :
  (∀ c path, c ≠ SysRemove → fault w c path = None) →
  let '(err, l', w') := FileLogger_ClearAllLogFile l w in
  ((∀ i, 1 ≤ i ≤ backups l → is_Some (files w !! backupName (name l) i) →
         fault w SysRemove (backupName (name l) i) = None) →
   err = None
   ∧ (∀ i, 1 ≤ i ≤ backups l → files w' !! backupName (name l) i = None)
   ∧ files w' !! name l = Some []
   ∧ (∀ path, path ≠ name l → (∀ i, 1 ≤ i ≤ backups l → path ≠ backupName (name l) i) →
              files w' !! path = files w !! path))
  ∧ (∀ k e, 1 ≤ k ≤ backups l → is_Some (files w !! backupName (name l) k) →
       fault w SysRemove (backupName (name l) k) = Some e →
       (∀ j, k < j ≤ backups l → is_Some (files w !! backupName (name l) j) →
             fault w SysRemove (backupName (name l) j) = None) →
       err = Some (PathError e)
       ∧ (∀ j, k < j ≤ backups l → files w' !! backupName (name l) j = None)
       ∧ (∀ j, j ≤ k → files w' !! backupName (name l) j = files w !! backupName (name l) j)
       ∧ files w' !! name l = files w !! name l).
Proof.
  intros Honly.
  destruct (FileLogger_ClearAllLogFile l w) as [[err l'] w'] eqn:Hrun.
  unfold FileLogger_ClearAllLogFile in Hrun. split.
  - intros Hgranted.
    destruct (removeBackups_granted (name l) w Honly (Z.to_nat (backups l)) w eq_refl)
      as (w1 & Hloop & Hf & Hgone & Hrest).
    { intros k Hk. apply Hgranted. lia. }
    rewrite Hloop in Hrun. unfold openFile, os_Create in Hrun. simpl in Hrun.
    rewrite Hf, Honly in Hrun by done.
    assert (err = None ∧ files w' = <[name l := []]> (files w1)) as [-> Hfiles].
    { destruct (os_Stat (name l) w1); by simplify_eq. }
    rewrite Hfiles. split_and!; [done| |apply lookup_insert_eq|].
    + intros i Hi.
      rewrite lookup_insert_ne by (intros Heq; symmetry in Heq; by apply backupName_ne_name in Heq).
      specialize (Hgone (Z.to_nat i)). rewrite Z2Nat.id in Hgone by lia.
      apply Hgone. lia.
    + intros path Hne Hpath. rewrite lookup_insert_ne by done.
      apply Hrest. intros k Hk. apply Hpath. lia.
  - intros k e Hk Hsome Hrefused Hgranted.
    destruct (removeBackups_refused (name l) w Honly (Z.to_nat (backups l)) (Z.to_nat k) e w
                eq_refl) as (w1 & Hloop & Hgone & Hrest).
    { lia. }
    { by rewrite Z2Nat.id by lia. }
    { by rewrite Z2Nat.id by lia. }
    { intros j Hj. apply Hgranted. lia. }
    rewrite Hloop in Hrun. simplify_eq. split_and!; [done| | |].
    + intros j Hj. specialize (Hgone (Z.to_nat j)). rewrite Z2Nat.id in Hgone by lia.
      apply Hgone. lia.
    + intros j Hj. apply Hrest. intros j' Hj' Heq. apply backupName_inj in Heq. lia.
    + apply Hrest. intros j' Hj' Heq. symmetry in Heq. by apply backupName_ne_name in Heq.
Qed.

Lemma FileLogger_ClearAllLogFile_spec_witness :
  (∀ c path, c ≠ SysRemove → fault remove_denied_world c path = None)
  ∧ (let '(err, l', w') := FileLogger_ClearAllLogFile (sample_logger 10 3) remove_denied_world in
     err = Some (PathError EPERM)
     ∧ (∀ j, 2 < j ≤ 3 → files w' !! backupName "a.log" j = None)
     ∧ (∀ j, j ≤ 2 → files w' !! backupName "a.log" j
                      = files remove_denied_world !! backupName "a.log" j)
     ∧ files w' !! "a.log" = files remove_denied_world !! "a.log").
Proof.
  assert (∀ c path, c ≠ SysRemove → fault remove_denied_world c path = None) as Honly.
  { intros c path Hc. by destruct c. }
  split; [exact Honly|].
  pose proof (FileLogger_ClearAllLogFile_spec (sample_logger 10 3) remove_denied_world Honly)
    as Hspec.
  destruct (FileLogger_ClearAllLogFile (sample_logger 10 3) remove_denied_world)
    as [[err l'] w'].
  destruct Hspec as [_ Hrefused].
  apply (Hrefused 2 EPERM).
  - simpl. lia.
  - exists (B "two"). reflexivity.
  - reflexivity.
  - intros j Hj _. simpl in Hj. assert (j = 3) as -> by lia. reflexivity.
Defined.

(** Full clear: with retention 3 and three backups, [ClearAllLogFile]
    leaves an empty active file and no backup, and succeeds again. *)
Example scenario_full_clear :
  let w := world_of {["a.log" := B "live"; "a.log.1" := B "one"; "a.log.2" := B "two";
                      "a.log.3" := B "three"]} in
  let '(err1, l1, w1) := FileLogger_ClearAllLogFile (sample_logger 10 3) w in
  let '(err2, l2, w2) := FileLogger_ClearAllLogFile l1 w1 in
  err1 = None ∧ files w1 = {["a.log" := []]} ∧ err2 = None ∧ files w2 = {["a.log" := []]}.
Proof. by vm_compute. Qed.

(** * Further properties *)

(** ** Reading *)

Lemma take_drop_part (c : bytes) (n off : nat) :
  ∃ pre post, c = pre ++ take n (drop off c) ++ post.
Proof.
  exists (take off c), (drop n (drop off c)).
  by rewrite (take_drop n (drop off c)), take_drop.
Qed.

Lemma File_ReadAt_part (f : File) (n off : Z) (w : World) (data : bytes) (err : option error) :
  File_ReadAt f n off w = (data, err) →
  ∃ pre post, default [] (files w !! f_name f) = pre ++ data ++ post.
Proof.
  unfold File_ReadAt. intros Hread.
  assert (data = [] ∨ data = take (Z.to_nat n) (drop (Z.to_nat off) (default [] (files w !! f_name f))))
    as [->| ->].
  { destruct (off <? 0); [left; congruence|].
    destruct (n <=? 0); [left; congruence|].
    destruct (fault w SysPread (f_name f)); [left; congruence|right; congruence]. }
  - by exists [], (default [] (files w !! f_name f)).
  - apply take_drop_part.
Qed.

(** X1: whatever the arguments and the state of the file system, [ReadLog]
    that returns returns either an error with no data, or data that is a
    contiguous part of the file as it stands: never bytes that are not in
    the file. *)
Theorem FileLogger_ReadLog_part_of_file (l : FileLogger) (w : World) (offset length_ : Z)
  (data : bytes) (err : option error) :
  FileLogger_ReadLog l offset length_ w = Ret (data, err) →
  match err with
  | Some _ => data = []
  | None => ∃ pre post, default [] (files w !! name l) = pre ++ data ++ post
  end.
Proof.
  unfold FileLogger_ReadLog, os_Open. intros Hread.
  assert (∀ (f : File) o n,
            f_name f = name l →
            match File_ReadAt f n o w with
            | (_, Some _) => Ret ([], Some (errorString "FAILED"))
            | (b, None) => Ret (b, None)
            end = Ret (data, err) →
            match err with
            | Some _ => data = []
            | None => ∃ pre post, default [] (files w !! name l) = pre ++ data ++ post
            end) as Hcore.
  { intros f o n Hf Hres.
    destruct (File_ReadAt f n o w) as [b [e|]] eqn:Hat; simplify_eq; [done|].
    rewrite <- Hf. by eapply File_ReadAt_part. }
  assert (∀ e : option error, Ret (@nil ascii, e) = Ret (data, err) →
            match err with
            | Some _ => data = []
            | None => ∃ pre post, default [] (files w !! name l) = pre ++ data ++ post
            end) as Hnil.
  { intros e Heq. simplify_eq. destruct err; [done|].
    by exists [], (default [] (files w !! name l)). }
  destruct ((offset <? 0) && negb (length_ =? 0)); [by eapply Hnil|].
  destruct ((offset >=? 0) && (length_ <? 0)); [by eapply Hnil|].
  destruct (fault w SysOpen (name l)); [by eapply Hnil|].
  destruct (files w !! name l) as [c|] eqn:Hc; [|by eapply Hnil].
  destruct (File_Stat _ w) as [fileLen|e]; [|by eapply Hnil].
  cbv zeta in Hread.
  repeat match type of Hread with
         | (if ?b then _ else _) = _ => destruct b
         end;
    first [ discriminate Hread
          | eapply Hnil; exact Hread
          | eapply (Hcore (mkFile (name l) false 0)); [reflexivity|exact Hread] ].
Qed.

Lemma FileLogger_ReadLog_part_of_file_witness :
  FileLogger_ReadLog (sample_logger 10 2) 2 3 (sample_world (B "0123456789"))
  = Ret (B "234", None)
  ∧ ∃ pre post,
      default [] (files (sample_world (B "0123456789")) !! name (sample_logger 10 2))
      = pre ++ B "234" ++ post.
Proof.
  split; [reflexivity|].
  exact (FileLogger_ReadLog_part_of_file (sample_logger 10 2) (sample_world (B "0123456789"))
           2 3 (B "234") None eq_refl).
Defined.

(** X2: on a readable file that fits a byte slice, [ReadLog] with a
    negative offset and length 0 returns the last [|offset|] bytes (the
    whole file when there are fewer); with an offset from 0 and length 0
    it returns the bytes from the offset on; with an offset from 0 and a
    positive length whose sum fits an [int64] it returns at most [length]
    bytes from the offset.  An offset past the end gives no data and no
    error. *)
Theorem FileLogger_ReadLog_within_limits (l : FileLogger) (w : World) (c : bytes)
  (offset length_ : Z) :
  healthy w →
  files w !! name l = Some c →
  len c ≤ maxAlloc →
  in_int64 offset →
  (offset < 0 → length_ = 0 →
   FileLogger_ReadLog l offset length_ w
   = Ret (drop (length c - Z.to_nat (- offset)) c, None))
  ∧ (0 ≤ offset → length_ = 0 →
     FileLogger_ReadLog l offset length_ w = Ret (drop (Z.to_nat offset) c, None))
  ∧ (0 ≤ offset → 0 < length_ → offset + length_ ≤ int64_max →
     FileLogger_ReadLog l offset length_ w
     = Ret (take (Z.to_nat length_) (drop (Z.to_nat offset) c), None)).
Proof.
  intros Hw Hc Hsize Hoff. pose proof (len_nonneg c) as Hlen. split_and!.
  - intros Hneg ->. rewrite (FileLogger_ReadLog_last l w c Hw Hc) by done.
    do 3 f_equal. unfold len in *. lia.
  - intros Hpos ->. rewrite (FileLogger_ReadLog_rest l w c Hw Hc) by done.
    destruct (Z.ltb_spec (len c) offset) as [Hlt|Hge]; [|reflexivity].
    rewrite drop_ge; [reflexivity|]. unfold len in *. lia.
  - intros Hpos Hlength Hsum.
    rewrite (FileLogger_ReadLog_range l w c Hw Hc) by lia.
    destruct (Z.leb_spec (len c) offset).
    + rewrite drop_ge, take_nil; [done|]. unfold len in *. lia.
    + do 2 f_equal. destruct (Z.le_ge_cases length_ (len c - offset)).
      * by rewrite Z.min_l.
      * rewrite Z.min_r by done. rewrite !take_ge; [done| |];
          rewrite length_drop; unfold len in *; lia.
Qed.

Lemma FileLogger_ReadLog_within_limits_witness :
  healthy (sample_world (B "0123456789"))
  ∧ files (sample_world (B "0123456789")) !! name (sample_logger 10 2) = Some (B "0123456789")
  ∧ len (B "0123456789") ≤ maxAlloc
  ∧ in_int64 (-3)
  ∧ FileLogger_ReadLog (sample_logger 10 2) (-3) 0 (sample_world (B "0123456789"))
    = Ret (drop (length (B "0123456789") - Z.to_nat (- -3)) (B "0123456789"), None).
Proof.
  assert (healthy (sample_world (B "0123456789"))) as Hw by (intros ? ?; reflexivity).
  assert (len (B "0123456789") ≤ maxAlloc) as Hsize by (by vm_compute).
  assert (in_int64 (-3)) as Hoff by (by vm_compute).
  split; [exact Hw|]. split; [reflexivity|]. split; [exact Hsize|]. split; [exact Hoff|].
  destruct (FileLogger_ReadLog_within_limits (sample_logger 10 2)
              (sample_world (B "0123456789")) (B "0123456789") (-3) 0 Hw eq_refl Hsize Hoff)
    as (Hlast & _ & _).
  apply Hlast; [lia|reflexivity].
Defined.

(** X3: two consecutive calls of [ReadTailLog] inside the file, the
    second at the offset the first returned, return together what one call
    for the sum of the two lengths returns, and end at the same offset
    (the sums fitting an [int64]). *)
Theorem FileLogger_ReadTailLog_chunks (l : FileLogger) (w : World) (c : bytes)
  (offset n1 n2 : Z) :
  healthy w →
  files w !! name l = Some c →
  len c ≤ maxAlloc →
  0 ≤ offset → 0 ≤ n1 → 0 ≤ n2 →
  offset + n1 < len c →
  offset + n1 + n2 ≤ int64_max →
  ∃ d1 d2 o1 o2,
    FileLogger_ReadTailLog l offset n1 w = Ret (d1, o1, false, None)
    ∧ FileLogger_ReadTailLog l o1 n2 w = Ret (d2, o2, false, None)
    ∧ FileLogger_ReadTailLog l offset (n1 + n2) w = Ret (d1 ++ d2, o2, false, None).
Proof.
  intros Hw Hc Hsize Hoff Hn1 Hn2 Hin Hsum. pose proof maxAlloc_int64 as Hmax.
  assert (Z.min n1 (len c - offset) = n1) as Hmin by lia.
  exists (take (Z.to_nat n1) (drop (Z.to_nat offset) c)),
    (take (Z.to_nat (Z.min n2 (len c - (offset + n1)))) (drop (Z.to_nat (offset + n1)) c)),
    (offset + n1), (offset + n1 + Z.min n2 (len c - (offset + n1))).
  split_and!.
  - rewrite (FileLogger_ReadTailLog_within l w c Hw Hc) by lia. by rewrite Hmin.
  - by rewrite (FileLogger_ReadTailLog_within l w c Hw Hc) by lia.
  - rewrite (FileLogger_ReadTailLog_within l w c Hw Hc) by lia.
    replace (Z.min (n1 + n2) (len c - offset))
      with (n1 + Z.min n2 (len c - (offset + n1))) by lia.
    rewrite Z2Nat.inj_add by lia. rewrite <- take_take_drop, drop_drop.
    replace (Z.to_nat offset + Z.to_nat n1)%nat with (Z.to_nat (offset + n1)) by lia.
    by rewrite Z.add_assoc.
Qed.

Lemma FileLogger_ReadTailLog_chunks_witness :
  healthy (sample_world (B "0123456789"))
  ∧ files (sample_world (B "0123456789")) !! name (sample_logger 10 2) = Some (B "0123456789")
  ∧ len (B "0123456789") ≤ maxAlloc
  ∧ 2 + 3 < len (B "0123456789")
  ∧ 2 + 3 + 4 ≤ int64_max
  ∧ ∃ d1 d2 o1 o2,
      FileLogger_ReadTailLog (sample_logger 10 2) 2 3 (sample_world (B "0123456789"))
      = Ret (d1, o1, false, None)
      ∧ FileLogger_ReadTailLog (sample_logger 10 2) o1 4 (sample_world (B "0123456789"))
        = Ret (d2, o2, false, None)
      ∧ FileLogger_ReadTailLog (sample_logger 10 2) 2 (3 + 4) (sample_world (B "0123456789"))
        = Ret (d1 ++ d2, o2, false, None).
Proof.
  assert (healthy (sample_world (B "0123456789"))) as Hw by (intros ? ?; reflexivity).
  assert (len (B "0123456789") ≤ maxAlloc) as Hsize by (by vm_compute).
  assert (2 + 3 < len (B "0123456789")) as Hin by (by vm_compute).
  assert (2 + 3 + 4 ≤ int64_max) as Hsum by (by vm_compute).
  split; [exact Hw|]. split; [reflexivity|]. split; [exact Hsize|]. split; [exact Hin|].
  split; [exact Hsum|].
  exact (FileLogger_ReadTailLog_chunks (sample_logger 10 2) (sample_world (B "0123456789"))
           (B "0123456789") 2 3 4 Hw eq_refl Hsize ltac:(lia) ltac:(lia) ltac:(lia) Hin Hsum).
Defined.

(** X4: when [ReadTailLog] reports the end of the file it returns no data
    and the length of the file as the offset, and calling it again with
    that offset and any length reports the end again, with no data and
    the same offset. *)
Theorem FileLogger_ReadTailLog_poll (l : FileLogger) (w : World) (c : bytes)
  (offset length_ : Z) (data : bytes) (next : Z) (err : option error) :
  healthy w →
  files w !! name l = Some c →
  FileLogger_ReadTailLog l offset length_ w = Ret (data, next, true, err) →
  data = [] ∧ next = len c ∧ err = None
  ∧ ∀ length', 0 ≤ length' →
      FileLogger_ReadTailLog l next length' w = Ret ([], next, true, None).
Proof.
  intros Hw Hc Hread.
  assert (data = [] ∧ next = len c ∧ err = None) as (-> & -> & ->).
  { unfold FileLogger_ReadTailLog in Hread.
    rewrite (os_Open_ok l w c Hw Hc), (File_Stat_ok l w c Hw Hc) in Hread.
    destruct (offset <? 0); [done|]. destruct (length_ <? 0); [done|].
    destruct (offset >=? len c); [by simplify_eq|].
    destruct (make_bytes _); [|done].
    by destruct (File_ReadAt _ _ _ _) as [b [e|]]. }
  split_and!; try done.
  intros length' Hlength. by apply (FileLogger_ReadTailLog_end l w c Hw Hc).
Qed.

Lemma FileLogger_ReadTailLog_poll_witness :
  healthy (sample_world (B "0123456789"))
  ∧ files (sample_world (B "0123456789")) !! name (sample_logger 10 2) = Some (B "0123456789")
  ∧ FileLogger_ReadTailLog (sample_logger 10 2) 12 5 (sample_world (B "0123456789"))
    = Ret ([], 10, true, None)
  ∧ ∀ length', 0 ≤ length' →
      FileLogger_ReadTailLog (sample_logger 10 2) 10 length' (sample_world (B "0123456789"))
      = Ret ([], 10, true, None).
Proof.
  assert (healthy (sample_world (B "0123456789"))) as Hw by (intros ? ?; reflexivity).
  split; [exact Hw|]. split; [reflexivity|]. split; [reflexivity|].
  apply (FileLogger_ReadTailLog_poll (sample_logger 10 2) (sample_world (B "0123456789"))
           (B "0123456789") 12 5 [] 10 None Hw eq_refl eq_refl).
Defined.

(** ** Writing, closing and truncating *)

(** One write on a working file system, from a handle at the end of the
    file and a counter that is no less than the size of the file: either
    the file grows by the bytes written and stays below the threshold, or
    it is rotated and left empty; the handle is again at the end and the
    counter again no less than the size. *)
Lemma FileLogger_Write_step (l : FileLogger) (p c : bytes) (w : World) :
  healthy w →
  at_end l w c →
  len c ≤ fileSize l → fileSize l + len p ≤ int64_max →
  ∃ l' w' c',
    FileLogger_Write l p w = (len p, None, l', w')
    ∧ healthy w' ∧ at_end l' w' c'
    ∧ name l' = name l ∧ maxSize l' = maxSize l ∧ backups l' = backups l
    ∧ logEventEmitter l' = logEventEmitter l
    ∧ len c' ≤ fileSize l' ∧ fileSize l' ≤ fileSize l + len p
    ∧ ((c' = c ++ p ∧ len c' < maxSize l ∧ fileSize l' < maxSize l
        ∧ w' = emitLogEvent (logEventEmitter l) p (set_files (insert (name l) (c ++ p)) w))
       ∨ (c' = [] ∧ maxSize l ≤ len (c ++ p) ∧ fileSize l' = len (c ++ p))).
Proof.
  intros Hw (f & Hfile & Hname & Hc & Hpos) Hcnt Hsum.
  pose proof (len_nonneg c) as Hc0. pose proof (len_nonneg p) as Hp0.
  rewrite (FileLogger_Write_healthy l f c p w Hw Hfile Hname Hc Hpos).
  rewrite wrap64_id by (unfold in_int64, int64_min, int64_max in *; lia).
  set (w1 := emitLogEvent (logEventEmitter l) p (set_files (insert (name l) (c ++ p)) w)).
  assert (healthy w1) as Hw1 by (by apply healthy_emit_set_files).
  assert (files w1 !! name l = Some (c ++ p)) as Hc1.
  { subst w1. rewrite files_emit_set_files. apply lookup_insert_eq. }
  set (f' := if f_append f then f else mkFile (name l) false (f_pos f + length p)).
  assert (f_name f' = name l ∧ (f_append f' = true ∨ f_pos f' = length (c ++ p)))
    as [Hname' Hpos'].
  { subst f'. destruct (f_append f) eqn:Happ; [by split; [|left]|].
    split; [done|right]. simpl. destruct Hpos as [? | Hpos]; [congruence|]. rewrite Hpos.
    by rewrite length_app. }
  rewrite !Z.geb_leb. rewrite len_app in *.
  assert (at_end (mkFileLogger (name l) (maxSize l) (backups l) 0 (Some f') (logEventEmitter l))
            w1 (c ++ p)) as Hend1 by (unfold at_end; by exists f').
  destruct (Z.leb_spec (maxSize l) (fileSize l + len p)) as [Hge|Hlt].
  - destruct (Z.leb_spec (maxSize l) (len c + len p)) as [Hge'|Hlt'].
    + eexists _, _, []. split; [reflexivity|].
      split_and!; try done; try (simpl; change (len []) with 0; lia).
      * by apply healthy_after_rotation.
      * eexists. split_and!; [reflexivity|done|apply lookup_insert_eq|by right].
      * right. by rewrite ?len_app.
    + eexists _, _, (c ++ p). split; [reflexivity|].
      split_and!; try done; try (simpl; rewrite ?len_app; lia).
      left. split_and!; [done|rewrite len_app; lia|simpl; lia|done].
  - rewrite (proj2 (Z.leb_gt _ _) Hlt).
    eexists _, _, (c ++ p). split; [reflexivity|].
    split_and!; try done; try (simpl; rewrite ?len_app; lia).
    left. split_and!; [done|rewrite len_app; lia|simpl; lia|done].
Qed.

(** X5: tail-follow.  A follower that has drained a file of length [L]
    is told so by [ReadTailLog(L, n)]; after a write that does not rotate,
    the same call returns the first [n] of the bytes written and the
    offset past them. *)
Theorem FileLogger_ReadTailLog_after_write (l : FileLogger) (c p : bytes) (w : World) (n : Z) :
  healthy w →
  at_end l w c →
  len c ≤ fileSize l → fileSize l + len p < maxSize l → maxSize l ≤ int64_max →
  p ≠ [] →
  0 ≤ n → len c + n ≤ int64_max → Z.min n (len p) ≤ maxAlloc →
  let '(_, _, l', w') := FileLogger_Write l p w in
  FileLogger_ReadTailLog l (len c) n w = Ret ([], len c, true, None)
  ∧ FileLogger_ReadTailLog l' (len c) n w'
    = Ret (take (Z.to_nat n) p, len c + Z.min n (len p), false, None).
Proof.
  intros Hw Hend Hcnt Hbelow Hmax Hp Hn Hsum Halloc.
  pose proof (len_nonneg c) as Hc0. pose proof (len_nonneg p) as Hp0.
  destruct (FileLogger_Write_step l p c w Hw Hend Hcnt ltac:(lia))
    as (l' & w' & c' & -> & Hw' & Hend' & Hname & _ & _ & _ & _ & _ & Hcase).
  destruct Hcase as [(-> & _ & _ & _)|(_ & Hrot & _)]; [|rewrite len_app in Hrot; lia].
  destruct Hend as (f & _ & _ & Hc & _). destruct Hend' as (f' & _ & _ & Hc' & _).
  rewrite Hname in Hc'. split.
  - by apply (FileLogger_ReadTailLog_end l w c Hw Hc).
  - assert (0 < len p) as Hpos.
    { destruct p; [done|]. unfold len. simpl. lia. }
    assert (files w' !! name l' = Some (c ++ p)) as Hc'' by (by rewrite Hname).
    rewrite (FileLogger_ReadTailLog_within l' w' (c ++ p) Hw' Hc'')
      by (rewrite ?len_app; lia).
    rewrite len_app. replace (len c + len p - len c) with (len p) by lia.
    do 4 f_equal.
    replace (Z.to_nat (len c)) with (length c) by (unfold len; lia).
    rewrite drop_app_length.
    destruct (Z.le_ge_cases n (len p)).
    + by rewrite Z.min_l.
    + rewrite Z.min_r by done. rewrite !take_ge; [done| |]; unfold len in *; lia.
Qed.

Lemma sample_at_end (maxSz bks : Z) (c : bytes) :
  at_end (sample_logger maxSz bks) (sample_world c) c.
Proof. exists (mkFile "a.log" true 0). split_and!; [done|done|done|by left]. Qed.

Lemma FileLogger_ReadTailLog_after_write_witness :
  healthy (sample_world (B "abc"))
  ∧ at_end (sample_logger 100 2) (sample_world (B "abc")) (B "abc")
  ∧ len (B "abc") ≤ fileSize (sample_logger 100 2) + 3
  ∧ (let '(_, _, l', w') :=
       FileLogger_Write (mkFileLogger "a.log" 100 2 3 (Some (mkFile "a.log" true 0)) Observer)
         (B "0123456789") (sample_world (B "abc")) in
     FileLogger_ReadTailLog (mkFileLogger "a.log" 100 2 3 (Some (mkFile "a.log" true 0)) Observer)
       (len (B "abc")) 5 (sample_world (B "abc"))
     = Ret ([], len (B "abc"), true, None)
     ∧ FileLogger_ReadTailLog l' (len (B "abc")) 5 w'
       = Ret (take (Z.to_nat 5) (B "0123456789"),
              len (B "abc") + Z.min 5 (len (B "0123456789")), false, None)).
Proof.
  assert (healthy (sample_world (B "abc"))) as Hw by (intros ? ?; reflexivity).
  split; [exact Hw|]. split; [apply sample_at_end|]. split; [by vm_compute|].
  apply (FileLogger_ReadTailLog_after_write
           (mkFileLogger "a.log" 100 2 3 (Some (mkFile "a.log" true 0)) Observer)
           (B "abc") (B "0123456789") (sample_world (B "abc")) 5 Hw).
  - apply (sample_at_end 100 2).
  - by vm_compute.
  - by vm_compute.
  - by vm_compute.
  - done.
  - lia.
  - by vm_compute.
  - by vm_compute.
Defined.

(** A sequence of writes whose bytes, with those of the file, stay below
    the threshold: the invariant carried from write to write. *)
Lemma write_all_below_threshold (ps : list bytes) (l : FileLogger) (w : World) (c : bytes) :
  healthy w →
  at_end l w c →
  fileSize l = len c → maxSize l ≤ int64_max →
  len c + len (concat ps) < maxSize l →
  ∃ l' w',
    write_all l ps w = (l', w')
    ∧ healthy w' ∧ at_end l' w' (c ++ concat ps) ∧ name l' = name l
    ∧ (∀ path, path ≠ name l → files w' !! path = files w !! path)
    ∧ events w' = events w ++ match logEventEmitter l with
                              | Observer => ps
                              | NullLogEventEmitter => []
                              end.
Proof.
  revert l w c. induction ps as [|p ps IH]; intros l w c Hw Hend Hsize Hmax Hbelow.
  { exists l, w. simpl. rewrite app_nil_r.
    split_and!; try done. destruct (logEventEmitter l); by rewrite app_nil_r. }
  pose proof (len_nonneg c) as Hc0. pose proof (len_nonneg p) as Hp0.
  pose proof (len_nonneg (concat ps)) as Hps0.
  simpl in Hbelow. rewrite len_app in Hbelow.
  destruct (FileLogger_Write_step l p c w Hw Hend ltac:(lia) ltac:(lia))
    as (l1 & w1 & c1 & Hwrite & Hw1 & Hend1 & Hname & Hmaxsize & _ & Hemit & Hlow & Hhigh & Hcase).
  destruct Hcase as [(-> & _ & _ & Hw1eq)|(_ & Hrot & _)]; [|rewrite len_app in Hrot; lia].
  rewrite len_app in Hlow.
  destruct (IH l1 w1 (c ++ p) Hw1 Hend1) as (l' & w' & Hall & Hw' & Hend' & Hname' & Hrest & Hev).
  { rewrite len_app. lia. }
  { lia. }
  { rewrite Hmaxsize, len_app. lia. }
  exists l', w'. cbn [write_all]. rewrite Hwrite, Hall.
  split_and!; try done.
  - simpl. by rewrite (assoc_L (++)).
  - congruence.
  - intros path Hpath. rewrite Hrest by congruence.
    rewrite Hw1eq, files_emit_set_files. by apply lookup_insert_ne.
  - rewrite Hev, Hemit, Hw1eq. destruct (logEventEmitter l); simpl;
      by rewrite ?app_nil_r, <- ?(assoc_L (++)).
Qed.

(** X6: writes accumulate.  On a working file system, from a handle at
    the end of a file of content [c] and a counter equal to its size,
    writes whose bytes together with [c] stay below the threshold leave
    the file holding [c] followed by the bytes of every write in order,
    change no other file, notify the observer of each write in order, and
    [ReadLog(0, 0)] returns that content. *)
Theorem write_all_accumulates (ps : list bytes) (l : FileLogger) (w : World) (c : bytes) :
  healthy w →
  at_end l w c →
  fileSize l = len c → maxSize l ≤ int64_max →
  len c + len (concat ps) < maxSize l →
  len c + len (concat ps) ≤ maxAlloc →
  let '(l', w') := write_all l ps w in
  files w' !! name l = Some (c ++ concat ps)
  ∧ (∀ path, path ≠ name l → files w' !! path = files w !! path)
  ∧ events w' = events w ++ match logEventEmitter l with
                            | Observer => ps
                            | NullLogEventEmitter => []
                            end
  ∧ FileLogger_ReadLog l' 0 0 w' = Ret (c ++ concat ps, None).
Proof.
  intros Hw Hend Hsize Hmax Hbelow Halloc.
  destruct (write_all_below_threshold ps l w c Hw Hend Hsize Hmax Hbelow)
    as (l' & w' & -> & Hw' & (f & _ & _ & Hc & _) & Hname & Hrest & Hev).
  split_and!; try done.
  - by rewrite <- Hname.
  - rewrite (FileLogger_ReadLog_rest l' w' (c ++ concat ps) Hw' Hc) by (rewrite ?len_app; lia).
    pose proof (len_nonneg (c ++ concat ps)).
    by rewrite (proj2 (Z.ltb_ge _ _)), drop_0 by lia.
Qed.

Lemma write_all_accumulates_witness :
  healthy (sample_world (B "abc"))
  ∧ at_end (mkFileLogger "a.log" 100 2 3 (Some (mkFile "a.log" true 0)) Observer)
      (sample_world (B "abc")) (B "abc")
  ∧ len (B "abc") + len (concat [B "de"; B "fgh"]) < 100
  ∧ (let '(l', w') :=
       write_all (mkFileLogger "a.log" 100 2 3 (Some (mkFile "a.log" true 0)) Observer)
         [B "de"; B "fgh"] (sample_world (B "abc")) in
     files w' !! "a.log" = Some (B "abc" ++ concat [B "de"; B "fgh"])
     ∧ (∀ path, path ≠ "a.log" → files w' !! path = files (sample_world (B "abc")) !! path)
     ∧ events w' = events (sample_world (B "abc")) ++ [B "de"; B "fgh"]
     ∧ FileLogger_ReadLog l' 0 0 w' = Ret (B "abc" ++ concat [B "de"; B "fgh"], None)).
Proof.
  assert (healthy (sample_world (B "abc"))) as Hw by (intros ? ?; reflexivity).
  assert (len (B "abc") + len (concat [B "de"; B "fgh"]) < 100) as Hbelow by (by vm_compute).
  split; [exact Hw|]. split; [apply (sample_at_end 100 2)|]. split; [exact Hbelow|].
  apply (write_all_accumulates [B "de"; B "fgh"]
           (mkFileLogger "a.log" 100 2 3 (Some (mkFile "a.log" true 0)) Observer)
           (sample_world (B "abc")) (B "abc") Hw (sample_at_end 100 2 (B "abc")) eq_refl).
  - by vm_compute.
  - exact Hbelow.
  - by vm_compute.
Defined.

(** The invariant of a sequence of writes of any sizes. *)
Lemma write_all_bounded (ps : list bytes) (l : FileLogger) (w : World) (c : bytes) :
  healthy w →
  at_end l w c →
  len c ≤ fileSize l → fileSize l ≤ 2 ^ 62 + maxAlloc → len c ≤ 2 ^ 62 →
  maxSize l ≤ 2 ^ 62 →
  Forall (λ p, len p ≤ maxAlloc) ps →
  ∃ l' w' c',
    write_all l ps w = (l', w')
    ∧ healthy w' ∧ at_end l' w' c' ∧ name l' = name l
    ∧ (ps ≠ [] → len c' < maxSize l ∨ c' = []).
Proof.
  revert l w c. induction ps as [|p ps IH]; intros l w c Hw Hend Hlow Hhigh Hc Hmax Hps.
  { exists l, w, c. by split_and!. }
  apply Forall_cons in Hps as [Hp Hps].
  pose proof (len_nonneg c) as Hc0. pose proof (len_nonneg p) as Hp0.
  assert (fileSize l + len p ≤ int64_max) as Hsum.
  { unfold int64_max, maxAlloc in *. lia. }
  destruct (FileLogger_Write_step l p c w Hw Hend Hlow Hsum)
    as (l1 & w1 & c1 & Hwrite & Hw1 & Hend1 & Hname & Hmaxsize & _ & _ & Hlow1 & _ & Hcase).
  assert (fileSize l1 ≤ 2 ^ 62 + maxAlloc ∧ len c1 ≤ 2 ^ 62 ∧ (len c1 < maxSize l ∨ c1 = []))
    as (Hhigh1 & Hc1 & Hbound1).
  { destruct Hcase as [(-> & Hlt & Hlt' & _)|(-> & _ & Heq)].
    - split_and!; [lia|lia|by left].
    - rewrite Heq, len_app. change (len []) with 0. split_and!; [lia|lia|by right]. }
  destruct (IH l1 w1 c1 Hw1 Hend1 Hlow1 Hhigh1 Hc1) as (l' & w' & c' & Hall & Hw' & Hend' & Hname' & Hbound);
    [lia|done|].
  exists l', w', c'. cbn [write_all]. rewrite Hwrite, Hall.
  split_and!; [done|done|done|congruence|].
  intros _. destruct ps as [|p' ps]; [|rewrite <- Hmaxsize; by apply Hbound].
  simpl in Hall. simplify_eq.
  destruct Hend1 as (f1 & _ & _ & Hf1 & _). destruct Hend' as (f' & _ & _ & Hf' & _).
  by simplify_eq.
Qed.

(** X7: the rotation bound.  On a working file system, from a handle at
    the end of the file and a counter no less than the size of the file,
    after any non-empty sequence of writes the active file is shorter
    than the threshold or empty, whatever the sizes of the writes (the
    threshold, the counter and the file being at most [2^62]). *)
Theorem write_all_rotation_bound (ps : list bytes) (l : FileLogger) (w : World) (c : bytes) :
  healthy w →
  at_end l w c →
  len c ≤ fileSize l → fileSize l ≤ 2 ^ 62 →
  maxSize l ≤ 2 ^ 62 →
  Forall (λ p, len p ≤ maxAlloc) ps →
  ps ≠ [] →
  let '(l', w') := write_all l ps w in
  ∃ c', files w' !! name l = Some c' ∧ (len c' < maxSize l ∨ c' = []).
Proof.
  intros Hw Hend Hlow Hhigh Hmax Hps Hne.
  destruct (write_all_bounded ps l w c Hw Hend Hlow) as (l' & w' & c' & -> & _ & Hend' & Hname & Hbound);
    [unfold maxAlloc; lia|lia|done|done|].
  destruct Hend' as (f' & _ & _ & Hc' & _).
  exists c'. rewrite <- Hname. split; [done|by apply Hbound].
Qed.

Lemma write_all_rotation_bound_witness :
  healthy (sample_world [])
  ∧ at_end (sample_logger 10 2) (sample_world []) []
  ∧ Forall (λ p, len p ≤ maxAlloc) [B "0123456"; B "789abcdef"; B "xy"]
  ∧ (let '(l', w') := write_all (sample_logger 10 2) [B "0123456"; B "789abcdef"; B "xy"]
                        (sample_world []) in
     ∃ c', files w' !! "a.log" = Some c' ∧ (len c' < 10 ∨ c' = [])).
Proof.
  assert (healthy (sample_world [])) as Hw by (intros ? ?; reflexivity).
  assert (Forall (λ p, len p ≤ maxAlloc) [B "0123456"; B "789abcdef"; B "xy"]) as Hps.
  { repeat constructor; by vm_compute. }
  split; [exact Hw|]. split; [apply sample_at_end|]. split; [exact Hps|].
  apply (write_all_rotation_bound [B "0123456"; B "789abcdef"; B "xy"] (sample_logger 10 2)
           (sample_world []) [] Hw (sample_at_end 10 2 [])).
  - by vm_compute.
  - by vm_compute.
  - by vm_compute.
  - exact Hps.
  - done.
Defined.

(** X8: [Close] drops the write handle: a second [Close] returns no error
    and changes nothing, a [Write] after it returns 0 and [os.ErrInvalid]
    and changes neither the logger nor the machine, and [ReadLog] and
    [ReadTailLog], which open the file by its path, answer as before. *)
Theorem FileLogger_Close_then (l : FileLogger) (w : World) (p : bytes) (offset length_ : Z) :
  let '(_, l') := FileLogger_Close l w in
  file l' = None
  ∧ FileLogger_Close l' w = (None, l')
  ∧ FileLogger_Write l' p w = (0, Some ErrInvalid, l', w)
  ∧ FileLogger_ReadLog l' offset length_ w = FileLogger_ReadLog l offset length_ w
  ∧ FileLogger_ReadTailLog l' offset length_ w = FileLogger_ReadTailLog l offset length_ w.
Proof.
  unfold FileLogger_Close. destruct (file l) as [f|] eqn:Hfile; simpl.
  - by split_and!.
  - unfold FileLogger_Close, FileLogger_Write. rewrite Hfile. by split_and!.
Qed.

(** X9: [ClearCurLogFile] on a working file system returns no error,
    empties the active file and changes no other file; it leaves the size
    counter as it was.  A write of fewer bytes than the threshold after it
    succeeds without rotating, whatever the counter says, and [ReadLog(0,
    0)] then returns the bytes written. *)
Theorem FileLogger_ClearCurLogFile_then_write (l : FileLogger) (w : World) (p : bytes) :
  healthy w →
  0 ≤ fileSize l → fileSize l + len p ≤ int64_max →
  len p < maxSize l → len p ≤ maxAlloc →
  let '(err1, l1, w1) := FileLogger_ClearCurLogFile l w in
  let '(n, err2, l2, w2) := FileLogger_Write l1 p w1 in
  err1 = None ∧ files w1 = <[name l := []]> (files w) ∧ fileSize l1 = fileSize l
  ∧ n = len p ∧ err2 = None
  ∧ files w2 = <[name l := p]> (files w)
  ∧ FileLogger_ReadLog l2 0 0 w2 = Ret (p, None).
Proof.
  intros Hw Hsize Hsum Hp Halloc. pose proof (len_nonneg p) as Hp0.
  assert (FileLogger_ClearCurLogFile l w
          = (None, set_file (Some (mkFile (name l) false 0)) l,
             set_files (insert (name l) []) w)) as ->.
  { unfold FileLogger_ClearCurLogFile, openFile, os_Create. rewrite Hw.
    by destruct (os_Stat (name l) w). }
  set (l1 := set_file (Some (mkFile (name l) false 0)) l).
  set (w1 := set_files (insert (name l) []) w).
  assert (healthy w1) as Hw1 by done.
  assert (at_end l1 w1 []) as Hend1.
  { exists (mkFile (name l) false 0). split_and!; [done|done|apply lookup_insert_eq|by right]. }
  destruct (FileLogger_Write_step l1 p [] w1 Hw1 Hend1)
    as (l2 & w2 & c2 & -> & Hw2 & Hend2 & Hname & _ & _ & _ & _ & _ & Hcase).
  { by change (len []) with 0. }
  { done. }
  destruct Hcase as [(-> & _ & _ & ->)|(_ & Hrot & _)];
    [|change (maxSize l1) with (maxSize l) in Hrot; simpl in Hrot; lia].
  destruct Hend2 as (f2 & _ & _ & Hc2 & _).
  split_and!; try done.
  - rewrite files_emit_set_files. simpl. apply insert_insert_eq.
  - rewrite (FileLogger_ReadLog_rest _ _ _ Hw2 Hc2) by (simpl; lia).
    simpl. by rewrite (proj2 (Z.ltb_ge _ _)), drop_0 by lia.
Qed.

Lemma FileLogger_ClearCurLogFile_then_write_witness :
  healthy (sample_world (B "0123456789"))
  ∧ 0 ≤ fileSize (mkFileLogger "a.log" 10 2 10 (Some (mkFile "a.log" true 0)) Observer)
  ∧ len (B "abc") < 10
  ∧ (let '(err1, l1, w1) :=
       FileLogger_ClearCurLogFile
         (mkFileLogger "a.log" 10 2 10 (Some (mkFile "a.log" true 0)) Observer)
         (sample_world (B "0123456789")) in
     let '(n, err2, l2, w2) := FileLogger_Write l1 (B "abc") w1 in
     err1 = None
     ∧ files w1 = <["a.log" := []]> (files (sample_world (B "0123456789")))
     ∧ fileSize l1 = 10
     ∧ n = len (B "abc") ∧ err2 = None
     ∧ files w2 = <["a.log" := B "abc"]> (files (sample_world (B "0123456789")))
     ∧ FileLogger_ReadLog l2 0 0 w2 = Ret (B "abc", None)).
Proof.
  assert (healthy (sample_world (B "0123456789"))) as Hw by (intros ? ?; reflexivity).
  split; [exact Hw|]. split; [by vm_compute|]. split; [by vm_compute|].
  apply (FileLogger_ClearCurLogFile_then_write
           (mkFileLogger "a.log" 10 2 10 (Some (mkFile "a.log" true 0)) Observer)
           (sample_world (B "0123456789")) (B "abc") Hw); by vm_compute.
Defined.

(** X10: when the file cannot be created, [ClearCurLogFile] returns the
    error and leaves the logger without a handle and the files as they
    were; every later [Write] returns 0 and [os.ErrInvalid] and writes
    nothing. *)
Theorem FileLogger_ClearCurLogFile_failure (l : FileLogger) (w : World) (e : errno) (p : bytes) :
  fault w SysCreate (name l) = Some e →
  let '(err, l', w') := FileLogger_ClearCurLogFile l w in
  err = Some (PathError e) ∧ file l' = None ∧ w' = w
  ∧ FileLogger_Write l' p w' = (0, Some ErrInvalid, l', w').
Proof.
  intros Hfault.
  assert (FileLogger_ClearCurLogFile l w = (Some (PathError e), set_file None l, w)) as ->.
  { unfold FileLogger_ClearCurLogFile, openFile, os_Create. rewrite Hfault.
    by destruct (os_Stat (name l) w). }
  by split_and!.
Qed.

Lemma FileLogger_ClearCurLogFile_failure_witness :
  let '(err, l', w') := FileLogger_ClearCurLogFile (sample_logger 10 2) create_denied_world in
  err = Some (PathError EACCES) ∧ file l' = None ∧ w' = create_denied_world
  ∧ FileLogger_Write l' (B "x") w' = (0, Some ErrInvalid, l', w').
Proof.
  apply (FileLogger_ClearCurLogFile_failure (sample_logger 10 2) create_denied_world EACCES
           (B "x")).
  reflexivity.
Defined.

(** ** Sequences of writes *)

(** One write on a working file system through a handle at the end of the
    file succeeds, notifies the observer once and leaves the handle at the
    end of the active file, rotated or not. *)
Lemma FileLogger_Write_keeps (l : FileLogger) (p c : bytes) (w : World) :
  healthy w →
  at_end l w c →
  ∃ l' w' c',
    FileLogger_Write l p w = (len p, None, l', w')
    ∧ healthy w' ∧ at_end l' w' c'
    ∧ logEventEmitter l' = logEventEmitter l
    ∧ events w' = events w ++ match logEventEmitter l with
                              | Observer => [p]
                              | NullLogEventEmitter => []
                              end.
Proof.
  intros Hw (f & Hfile & Hname & Hc & Hpos).
  rewrite (FileLogger_Write_healthy l f c p w Hw Hfile Hname Hc Hpos).
  set (w1 := emitLogEvent (logEventEmitter l) p (set_files (insert (name l) (c ++ p)) w)).
  assert (healthy w1) as Hw1 by (by apply healthy_emit_set_files).
  assert (events w1 = events w ++ match logEventEmitter l with
                                  | Observer => [p]
                                  | NullLogEventEmitter => []
                                  end) as Hev.
  { subst w1. destruct (logEventEmitter l); simpl; [done|by rewrite app_nil_r]. }
  match goal with |- context [if ?b then _ else _] => destruct b end.
  - eexists _, _, []. split; [reflexivity|]. split_and!.
    + by apply healthy_after_rotation.
    + eexists. split_and!; [reflexivity|done|apply lookup_insert_eq|by right].
    + done.
    + simpl. by rewrite backupFiles_events.
  - eexists _, _, (c ++ p). split; [reflexivity|]. split_and!; [done| |done|done].
    eexists. split_and!; [reflexivity| | |].
    + simpl. by destruct (f_append f).
    + subst w1. rewrite files_emit_set_files. apply lookup_insert_eq.
    + destruct (f_append f) eqn:Happ; [by left|right]. simpl.
      destruct Hpos as [? | Hpos]; [congruence|]. by rewrite Hpos, length_app.
Qed.

(** X11: on a working file system, the observer of a file sink receives
    every chunk written, once and in the order of the writes, whether or
    not the writes rotate the file. *)
Theorem write_all_notifies (ps : list bytes) (l : FileLogger) (c : bytes) (w : World) :
  healthy w →
  at_end l w c →
  logEventEmitter l = Observer →
  events (write_all l ps w).2 = events w ++ ps.
Proof.
  revert l c w. induction ps as [|p ps IH]; intros l c w Hw Hend He.
  { simpl. by rewrite app_nil_r. }
  destruct (FileLogger_Write_keeps l p c w Hw Hend) as (l' & w' & c' & Hwrite & Hw' & Hend' & He' & Hev).
  cbn [write_all]. rewrite Hwrite.
  rewrite (IH l' c' w' Hw' Hend') by congruence.
  rewrite Hev, He. by rewrite <- app_assoc.
Qed.

Lemma write_all_notifies_witness :
  events (write_all (sample_logger 10 2) [B "0123456"; B "789"; B "ab"] (sample_world [])).2
  = [B "0123456"; B "789"; B "ab"].
Proof.
  apply (write_all_notifies [B "0123456"; B "789"; B "ab"] (sample_logger 10 2) []
           (sample_world [])).
  - done.
  - unfold at_end. eexists. split_and!; [reflexivity|done|done|by left].
  - done.
Defined.

(** X12: with a retention count of at least 1, no sequence of writes
    creates a path other than the active file and its backups 1 to the
    retention count: every file that exists afterwards existed before or
    is one of those. *)
Theorem write_all_confined (ps : list bytes) (l : FileLogger) (w : World) (path : string) :
  1 ≤ backups l ≤ int64_max →
  is_Some (files (write_all l ps w).2 !! path) →
  is_Some (files w !! path) ∨ own_path l path.
Proof.
  revert l w. induction ps as [|p ps IH]; intros l w Hn Hsome; [by left|].
  cbn [write_all] in Hsome.
  destruct (FileLogger_Write l p w) as [[[n err] l'] w'] eqn:Hwrite.
  destruct (FileLogger_Write_dom l l' p path w w' n err Hn Hwrite) as (Hname & Hbk & Hdom).
  destruct (IH l' w' ltac:(lia) Hsome) as [Hbefore|Hown]; [by apply Hdom|].
  right. unfold own_path in *. by rewrite Hname, Hbk in Hown.
Qed.

Lemma write_all_confined_witness :
  is_Some (files (write_all (sample_logger 10 2)
                    [B "0123456789"; B "0123456789"; B "0123456789"; B "x"]
                    (sample_world [])).2 !! "a.log.2")
  ∧ (is_Some (files (sample_world []) !! "a.log.2")
     ∨ own_path (sample_logger 10 2) "a.log.2").
Proof.
  assert (is_Some (files (write_all (sample_logger 10 2)
                    [B "0123456789"; B "0123456789"; B "0123456789"; B "x"]
                    (sample_world [])).2 !! "a.log.2")) as Hsome.
  { vm_compute. eexists. reflexivity. }
  split; [exact Hsome|].
  apply (write_all_confined [B "0123456789"; B "0123456789"; B "0123456789"; B "x"]
           (sample_logger 10 2) (sample_world []) "a.log.2").
  - simpl. unfold int64_max. lia.
  - exact Hsome.
Defined.

(** X13: a write that takes the active file to the threshold, on a working
    file system and with a retention count [N] of at least 1, leaves the
    active file empty, what it held followed by the bytes written in
    backup 1, and each earlier backup [k-1] in backup [k]; what backup [N]
    held is dropped when backup [N-1] exists. *)
Theorem FileLogger_Write_rotation_shift (l : FileLogger) (c p : bytes) (w : World) :
  healthy w →
  at_end l w c →
  1 ≤ backups l ≤ int64_max →
  len c ≤ fileSize l → fileSize l + len p ≤ int64_max →
  maxSize l ≤ len c + len p →
  let '(n, err, l', w') := FileLogger_Write l p w in
  n = len p ∧ err = None
  ∧ at_end l' w' []
  ∧ files w' !! backupName (name l) 1 = Some (c ++ p)
  ∧ ∀ k, 2 ≤ k ≤ backups l →
      files w' !! backupName (name l) k
      = match files w !! backupName (name l) (k - 1) with
        | Some c' => Some c'
        | None => if k <? backups l then None else files w !! backupName (name l) k
        end.
Proof.
  intros Hw Hend Hn Hcnt Hsum Hsize.
  pose proof (len_nonneg c) as Hc0. pose proof (len_nonneg p) as Hp0.
  destruct (FileLogger_Write_step l p c w Hw Hend Hcnt Hsum)
    as (l' & w' & c' & Hwrite & _ & Hend' & _ & _ & _ & _ & _ & _ & Hcase).
  destruct Hend as (f & Hfile & Hname & Hc & Hpos).
  pose proof (FileLogger_Write_rotates l f c p w Hw Hfile Hname Hc Hpos Hn) as Hrot.
  rewrite wrap64_id in Hrot by (unfold in_int64, int64_min, int64_max in *; lia).
  rewrite len_app in Hrot. specialize (Hrot ltac:(lia) ltac:(lia)).
  rewrite Hwrite in *. destruct Hrot as (_ & _ & _ & Hone & Hup).
  destruct Hcase as [(-> & Hlt & _)|(-> & _)]; [rewrite len_app in Hlt; lia|].
  by split_and!.
Qed.

Lemma FileLogger_Write_rotation_shift_witness :
  let '(n, err, l', w') :=
    FileLogger_Write (mkFileLogger "a.log" 10 2 6 (Some (mkFile "a.log" true 0)) Observer)
      (B "6789") (sample_world (B "012345")) in
  n = len (B "6789") ∧ err = None
  ∧ at_end l' w' []
  ∧ files w' !! backupName "a.log" 1 = Some (B "012345" ++ B "6789")
  ∧ ∀ k, 2 ≤ k ≤ 2 →
      files w' !! backupName "a.log" k
      = match files (sample_world (B "012345")) !! backupName "a.log" (k - 1) with
        | Some c' => Some c'
        | None => if k <? 2 then None
                  else files (sample_world (B "012345")) !! backupName "a.log" k
        end.
Proof.
  apply (FileLogger_Write_rotation_shift
           (mkFileLogger "a.log" 10 2 6 (Some (mkFile "a.log" true 0)) Observer)
           (B "012345") (B "6789") (sample_world (B "012345"))).
  - done.
  - unfold at_end. eexists. split_and!; [reflexivity|done|done|by left].
  - simpl. unfold int64_max. lia.
  - vm_compute. discriminate.
  - vm_compute. discriminate.
  - vm_compute. discriminate.
Defined.

(** ** The dispatcher and its construction *)

Lemma split_pieces_length (sep : ascii) (s : string) :
  length (split_pieces sep s).2 = count_byte sep s.
Proof.
  induction s as [|c s IH]; [done|].
  simpl. destruct (split_pieces sep s) as [piece pieces].
  destruct (Ascii.eqb c sep); simpl in *; by rewrite IH.
Qed.

Lemma createLoggers_length (i : nat) (programName : string) (fs : list string)
  (maxBytes backups_ : Z) (props : gmap string string) (e : LogEventEmitter) (w : World) :
  length (createLoggers i programName fs maxBytes backups_ props e w).1 = length fs.
Proof.
  revert i w. induction fs as [|f fs IH]; intros i w; [done|].
  cbn [createLoggers].
  destruct (match i with
            | O => createLogger programName f maxBytes backups_ props e w
            | S _ => createLogger programName f maxBytes backups_ props NullLogEventEmitter w
            end) as [lr w'].
  specialize (IH (S i) w').
  destruct (createLoggers (S i) programName fs maxBytes backups_ props e w') as [lrs w''].
  simpl in *. by rewrite IH.
Qed.

(** X14: the dispatcher built by [NewLogger] has one sink for each
    comma-separated piece of the destination specification: one more
    than the specification has commas, empty pieces included. *)
Theorem NewLogger_sink_count (programName logFile : string) (maxBytes backups_ : Z)
  (props : gmap string string) (e : LogEventEmitter) (w : World) :
  length (loggers (NewLogger programName logFile maxBytes backups_ props e w).1)
  = S (count_byte "," logFile).
Proof.
  unfold NewLogger, splitLogFile, strings_Split.
  pose proof (split_pieces_length "," logFile) as Hlen.
  destruct (split_pieces "," logFile) as [piece pieces].
  pose proof (createLoggers_length 0 programName (strings_TrimSpace <$> piece :: pieces)
                maxBytes backups_ props e w) as Hcreate.
  destruct (createLoggers 0 programName (strings_TrimSpace <$> piece :: pieces)
              maxBytes backups_ props e w) as [ls w'].
  simpl in *. rewrite Hcreate, length_fmap. by rewrite Hlen.
Qed.

Lemma NewFileLogger_emitter (nm : string) (maxSz bks : Z) (e : LogEventEmitter) (w : World) :
  logEventEmitter (NewFileLogger nm maxSz bks e w).1 = e.
Proof.
  unfold NewFileLogger, openFile, os_OpenFile_append, os_Create. simpl.
  destruct (os_Stat nm w); destruct (fault w SysOpenAppend nm), (fault w SysCreate nm),
    (files w !! nm); done.
Qed.

Lemma createLogger_emitter (programName logFile : string) (maxBytes backups_ : Z)
  (props : gmap string string) (e : LogEventEmitter) (w : World) :
  Sink_emitter (createLogger programName logFile maxBytes backups_ props e w).1 = e.
Proof.
  unfold createLogger.
  repeat match goal with |- context [if ?b then _ else _] => destruct b end; try done.
  pose proof (NewFileLogger_emitter logFile maxBytes backups_ e w) as He.
  by destruct (NewFileLogger logFile maxBytes backups_ e w).
Qed.

Lemma createLoggers_secondary_emitters (i : nat) (programName : string) (fs : list string)
  (maxBytes backups_ : Z) (props : gmap string string) (e : LogEventEmitter) (w : World) :
  Forall (λ s, Sink_emitter s = NullLogEventEmitter)
    (createLoggers (S i) programName fs maxBytes backups_ props e w).1.
Proof.
  revert i w. induction fs as [|f fs IH]; intros i w; [by constructor|].
  cbn [createLoggers].
  pose proof (createLogger_emitter programName f maxBytes backups_ props NullLogEventEmitter w)
    as He.
  destruct (createLogger programName f maxBytes backups_ props NullLogEventEmitter w)
    as [lr w'].
  specialize (IH (S i) w').
  destruct (createLoggers (S (S i)) programName fs maxBytes backups_ props e w') as [lrs w''].
  by constructor.
Qed.

(** A sink built with the no-op observer notifies nobody. *)
Lemma Sink_Write_silent (s : Sink) (p : bytes) (w : World) :
  Sink_emitter s = NullLogEventEmitter → events (Write s p w).2 = events w.
Proof.
  destruct s as [l|l|l|l]; simpl; intros He.
  - destruct (file l) as [f|] eqn:Hfile.
    + pose proof (FileLogger_Write_events l f p w Hfile) as Hev.
      rewrite He, app_nil_r in Hev.
      by destruct (FileLogger_Write l p w) as [[[n err] l'] w'].
    + unfold FileLogger_Write. by rewrite Hfile.
  - unfold StdLogger_Write, Stream_Write. rewrite He.
    by destruct (stream_write w (writer l) p) as [n [err|]].
  - unfold NullLogger_Write. by rewrite He.
  - unfold SysLogger_Write. by destruct (syslog_write w p).
Qed.

Lemma write_each_silent (ls : list Sink) (p : bytes) (w : World) :
  Forall (λ s, Sink_emitter s = NullLogEventEmitter) ls →
  events (write_each ls p w).2 = events w.
Proof.
  revert w. induction ls as [|s ls IH]; intros w Hls; [done|].
  apply Forall_cons in Hls as [Hs Hls]. cbn [write_each].
  pose proof (Sink_Write_silent s p w Hs) as Hev.
  destruct (Write s p w) as [[[n err] s'] w'].
  specialize (IH w' Hls). destruct (write_each ls p w') as [ls' w''].
  cbn [snd] in *. congruence.
Qed.

(** X15: in a dispatcher built by [NewLogger] only the primary sink can
    notify the observer: after [Write] on the dispatcher the observer has
    received exactly what [Write] on the primary sink alone would have
    sent it. *)
Theorem NewLogger_secondaries_silent (programName logFile : string) (maxBytes backups_ : Z)
  (props : gmap string string) (e : LogEventEmitter) (w : World) (p : bytes) (w0 : World) :
  ∃ l0 rest,
    loggers (NewLogger programName logFile maxBytes backups_ props e w).1 = l0 :: rest
    ∧ Sink_emitter l0 = e
    ∧ Forall (λ s, Sink_emitter s = NullLogEventEmitter) rest
    ∧ events (CompositeLogger_Write
                (NewLogger programName logFile maxBytes backups_ props e w).1 p w0).2
      = events (Write l0 p w0).2.
Proof.
  unfold NewLogger, splitLogFile, strings_Split.
  destruct (split_pieces "," logFile) as [piece pieces].
  rewrite fmap_cons. cbn [createLoggers].
  pose proof (createLogger_emitter programName (strings_TrimSpace piece) maxBytes backups_
                props e w) as He.
  destruct (createLogger programName (strings_TrimSpace piece) maxBytes backups_ props e w)
    as [l0 w1].
  pose proof (createLoggers_secondary_emitters 0 programName (strings_TrimSpace <$> pieces)
                maxBytes backups_ props e w1) as Hrest.
  destruct (createLoggers 1 programName (strings_TrimSpace <$> pieces) maxBytes backups_
              props e w1) as [rest w2].
  exists l0, rest. simpl in He, Hrest. split_and!; [done|done|done|].
  unfold CompositeLogger_Write, NewCompositeLogger. cbn [fst loggers writeLoop].
  destruct (Write l0 p w0) as [[[n0 err0] l0'] w0'].
  rewrite writeLoop_secondary. cbn [snd fst].
  by apply write_each_silent.
Qed.

(** ** Membership of the dispatcher *)

Section Membership.
Context {L : Type} `{Logger L}.
Variable same : L → L → bool.

Lemma removeLoop_absent (ls : list L) (logger : L) :
  Forall (λ t, same t logger = false) ls → removeLoop same ls logger = ls.
Proof.
  induction 1 as [|t ls Ht _ IH]; simpl; [done|]. by rewrite Ht, IH.
Qed.

Lemma removeLoop_first (pre post : list L) (t logger : L) :
  Forall (λ u, same u logger = false) pre → same t logger = true →
  removeLoop same (pre ++ t :: post) logger = pre ++ post.
Proof.
  induction 1 as [|u pre Hu _ IH]; intros Ht; simpl; [by rewrite Ht|].
  by rewrite Hu, IH.
Qed.

(** X16: [RemoveLogger] removes the first sink of the pool that is the
    given one and nothing else: the sinks before and after it stay, in
    order, later occurrences of the same sink included. *)
Theorem RemoveLogger_first_occurrence (pre post : list L) (t logger : L) :
  Forall (λ u, same u logger = false) pre → same t logger = true →
  loggers (RemoveLogger same (NewCompositeLogger (pre ++ t :: post)) logger) = pre ++ post.
Proof. intros Hpre Ht. by apply removeLoop_first. Qed.

(** X17: [RemoveLogger] of a sink that is not in the pool changes nothing,
    and [RemoveLogger] after [AddLogger] of such a sink gives the pool
    back. *)
Theorem RemoveLogger_AddLogger (cl : CompositeLogger L) (logger : L) :
  Forall (λ t, same t logger = false) (loggers cl) → same logger logger = true →
  RemoveLogger same cl logger = cl
  ∧ RemoveLogger same (AddLogger cl logger) logger = cl.
Proof.
  intros Hcl Hrefl. destruct cl as [ls]. unfold RemoveLogger, AddLogger. simpl in *. split.
  - by rewrite removeLoop_absent.
  - by rewrite removeLoop_first, app_nil_r.
Qed.
End Membership.

(** ** Closing the dispatcher *)

Lemma closeLoop_secondary {L : Type} `{Logger L} (ls : list L) (i : nat) (err : option error)
  (w : World) :
  closeLoop (S i) ls err w = (err, (λ l, (Close l w).2) <$> ls).
Proof.
  revert i. induction ls as [|l ls IH]; intros i; simpl; [done|].
  destruct (Close l w) as [err' l']. by rewrite IH.
Qed.

Lemma CompositeLogger_Close_loggers {L : Type} `{Logger L} (cl : CompositeLogger L) (w : World) :
  CompositeLogger_Close cl w
  = (match loggers cl with [] => None | l0 :: _ => (Close l0 w).1 end,
     mkCompositeLogger ((λ l, (Close l w).2) <$> loggers cl)).
Proof.
  unfold CompositeLogger_Close. destruct (loggers cl) as [|l0 rest]; simpl; [done|].
  destruct (Close l0 w) as [err0 l0']. by rewrite closeLoop_secondary.
Qed.

Lemma Sink_Close_handle_free (s : Sink) (w : World) : handle_free (Close s w).2.
Proof.
  destruct s as [l|l|l|l]; simpl; try done.
  unfold FileLogger_Close. by destruct (file l) eqn:Hfile.
Qed.

Lemma Sink_Write_handle_free (s : Sink) (p : bytes) (w : World) :
  handle_free s →
  handle_free (Write s p w).1.2 ∧ files (Write s p w).2 = files w.
Proof.
  destruct s as [l|l|l|l]; simpl; intros Hfree.
  - unfold FileLogger_Write. by rewrite Hfree.
  - unfold StdLogger_Write, Stream_Write.
    destruct (stream_write w (writer l) p) as [n [err|]]; simpl;
      by destruct (std_logEventEmitter l).
  - unfold NullLogger_Write. simpl. by destruct (null_logEventEmitter l).
  - unfold SysLogger_Write. by destruct (syslog_write w p).
Qed.

Lemma write_each_handle_free (ls : list Sink) (p : bytes) (w : World) :
  Forall handle_free ls →
  Forall handle_free (write_each ls p w).1 ∧ files (write_each ls p w).2 = files w.
Proof.
  revert w. induction ls as [|s ls IH]; intros w Hls; [done|].
  apply Forall_cons in Hls as [Hs Hls]. cbn [write_each].
  pose proof (Sink_Write_handle_free s p w Hs) as [Hs' Hfiles].
  destruct (Write s p w) as [[[n err] s'] w'].
  destruct (IH w' Hls) as [Hls' Hfiles']. destruct (write_each ls p w') as [ls' w''].
  cbn [fst snd] in *. split; [by constructor|congruence].
Qed.

(** X18: [Close] on the dispatcher closes every sink and returns the error
    of the primary sink alone.  Afterwards no sink holds a file handle,
    and [Write] on the dispatcher changes no file and leaves the sinks
    closed, on any machine; a dispatcher whose primary is a file sink
    answers it with 0 bytes and [os.ErrInvalid]. *)
Theorem CompositeLogger_Close_then_Write (ls : list Sink) (w : World) (p : bytes) (w' : World) :
  let '(err, cl) := CompositeLogger_Close (NewCompositeLogger ls) w in
  err = match ls with [] => None | l0 :: _ => (Close l0 w).1 end
  ∧ length (loggers cl) = length ls
  ∧ Forall handle_free (loggers cl)
  ∧ files (CompositeLogger_Write cl p w').2 = files w'
  ∧ Forall handle_free (loggers (CompositeLogger_Write cl p w').1.2)
  ∧ match ls with
    | FileSink _ :: _ => (CompositeLogger_Write cl p w').1.1 = (0, Some ErrInvalid)
    | _ => True
    end.
Proof.
  rewrite CompositeLogger_Close_loggers. unfold NewCompositeLogger. cbn [loggers].
  assert (Forall handle_free ((λ l, (Close l w).2) <$> ls)) as Hfree.
  { apply Forall_fmap, Forall_forall. intros s _. apply Sink_Close_handle_free. }
  split_and!; [done|by rewrite length_fmap|done| | |].
  - unfold CompositeLogger_Write. cbn [loggers].
    destruct ((λ l, (Close l w).2) <$> ls) as [|s0 rest]; [done|].
    apply Forall_cons in Hfree as [Hs0 Hrest]. cbn [writeLoop].
    pose proof (Sink_Write_handle_free s0 p w' Hs0) as [_ Hfiles].
    destruct (Write s0 p w') as [[[n0 err0] s0'] w0]. rewrite writeLoop_secondary.
    destruct (write_each_handle_free rest p w0 Hrest) as [_ Hfiles'].
    cbn [fst snd] in *. congruence.
  - unfold CompositeLogger_Write. cbn [loggers].
    destruct ((λ l, (Close l w).2) <$> ls) as [|s0 rest]; [done|].
    apply Forall_cons in Hfree as [Hs0 Hrest]. cbn [writeLoop].
    pose proof (Sink_Write_handle_free s0 p w' Hs0) as [Hs0' _].
    destruct (Write s0 p w') as [[[n0 err0] s0'] w0]. rewrite writeLoop_secondary.
    destruct (write_each_handle_free rest p w0 Hrest) as [Hrest' _].
    cbn [fst snd loggers] in *. by constructor.
  - destruct ls as [|[l0| | |] rest]; try done.
    unfold CompositeLogger_Write. cbn [loggers fmap list_fmap writeLoop].
    assert (Write (Close (FileSink l0) w).2 p w'
            = (0, Some ErrInvalid, (Close (FileSink l0) w).2, w')) as ->.
    { simpl. unfold FileLogger_Close, FileLogger_Write.
      destruct (file l0) eqn:Hfile; simpl; [done|by rewrite Hfile]. }
    by rewrite writeLoop_secondary.
Qed.

Lemma RemoveLogger_first_occurrence_witness :
  loggers (RemoveLogger (λ a b, String.eqb (name a) (name b))
             (NewCompositeLogger ([closed_logger] ++ sample_logger 10 2 :: [sample_logger 10 2]))
             (sample_logger 10 2))
  = [closed_logger] ++ [sample_logger 10 2].
Proof.
  apply (RemoveLogger_first_occurrence (λ a b, String.eqb (name a) (name b))
           [closed_logger] [sample_logger 10 2] (sample_logger 10 2) (sample_logger 10 2)).
  - constructor; [reflexivity|constructor].
  - reflexivity.
Defined.

Lemma RemoveLogger_AddLogger_witness :
  RemoveLogger (λ a b, String.eqb (name a) (name b))
    (NewCompositeLogger [closed_logger]) (sample_logger 10 2)
  = NewCompositeLogger [closed_logger]
  ∧ RemoveLogger (λ a b, String.eqb (name a) (name b))
      (AddLogger (NewCompositeLogger [closed_logger]) (sample_logger 10 2)) (sample_logger 10 2)
    = NewCompositeLogger [closed_logger].
Proof.
  apply (RemoveLogger_AddLogger (λ a b, String.eqb (name a) (name b))
           (NewCompositeLogger [closed_logger]) (sample_logger 10 2)).
  - constructor; [reflexivity|constructor].
  - reflexivity.
Defined.

(** ** Opening at construction *)

(** [NewFileLogger] on a working file system: an existing file is kept
    and opened for appending with the counter at its size; a missing one
    is created empty. *)
Lemma NewFileLogger_healthy (nm : string) (maxSz bks : Z) (e : LogEventEmitter) (w : World) :
  healthy w →
  NewFileLogger nm maxSz bks e w
  = match files w !! nm with
    | Some c => (mkFileLogger nm maxSz bks (len c) (Some (mkFile nm true 0)) e, w)
    | None => (mkFileLogger nm maxSz bks 0 (Some (mkFile nm false 0)) e,
               set_files (insert nm []) w)
    end.
Proof.
  intros Hw. unfold NewFileLogger, openFile, os_Stat, os_OpenFile_append, os_Create. simpl.
  rewrite !Hw. by destruct (files w !! nm).
Qed.

(** X19: a file sink constructed on an existing log file takes the file
    up where it stands.  Construction changes nothing on the machine; the
    first write is appended to what the file held when that stays below
    the threshold, and otherwise rotates the old content together with the
    bytes written into backup 1, the size of the old content counting
    towards the threshold. *)
Theorem NewFileLogger_resumes (nm : string) (maxSz bks : Z) (e : LogEventEmitter) (w : World)
  (c p : bytes) :
  healthy w →
  files w !! nm = Some c →
  1 ≤ bks ≤ int64_max →
  len c + len p ≤ int64_max →
  let '(l, w0) := NewFileLogger nm maxSz bks e w in
  let '(n, err, l', w') := FileLogger_Write l p w0 in
  w0 = w ∧ n = len p ∧ err = None
  ∧ if len c + len p <? maxSz
    then files w' = <[nm := c ++ p]> (files w)
    else files w' !! nm = Some [] ∧ files w' !! backupName nm 1 = Some (c ++ p).
Proof.
  intros Hw Hc Hbks Hsum. rewrite (NewFileLogger_healthy nm maxSz bks e w Hw), Hc.
  set (l := mkFileLogger nm maxSz bks (len c) (Some (mkFile nm true 0)) e).
  assert (at_end l w c) as Hend.
  { exists (mkFile nm true 0). by split_and!; [| | |left]. }
  destruct (FileLogger_Write_step l p c w Hw Hend ltac:(done) Hsum)
    as (l' & w' & c' & Hwrite & _ & Hend' & _ & _ & _ & _ & _ & _ & Hcase).
  destruct (Z.ltb_spec (len c + len p) maxSz) as [Hlt|Hge].
  - rewrite Hwrite. split_and!; try done.
    destruct Hcase as [(_ & _ & _ & ->)|(_ & Hrot & _)].
    + by rewrite files_emit_set_files.
    + rewrite len_app in Hrot. simpl in Hrot. lia.
  - pose proof (FileLogger_Write_rotates l (mkFile nm true 0) c p w Hw eq_refl eq_refl Hc
                  (or_introl eq_refl) Hbks) as Hrot.
    simpl in Hrot. rewrite wrap64_id in Hrot
      by (pose proof (len_nonneg c); pose proof (len_nonneg p);
          unfold in_int64, int64_min, int64_max in *; lia).
    rewrite len_app in Hrot. specialize (Hrot Hge Hge).
    rewrite Hwrite in *. destruct Hrot as (_ & _ & Hempty & Hone & _). by split_and!.
Qed.

Lemma NewFileLogger_resumes_witness :
  let '(l, w0) := NewFileLogger "a.log" 10 2 Observer (sample_world (B "012345")) in
  let '(n, err, l', w') := FileLogger_Write l (B "6789") w0 in
  w0 = sample_world (B "012345") ∧ n = len (B "6789") ∧ err = None
  ∧ if len (B "012345") + len (B "6789") <? 10
    then files w' = <["a.log" := B "012345" ++ B "6789"]> (files (sample_world (B "012345")))
    else files w' !! "a.log" = Some []
         ∧ files w' !! backupName "a.log" 1 = Some (B "012345" ++ B "6789").
Proof.
  apply (NewFileLogger_resumes "a.log" 10 2 Observer (sample_world (B "012345"))
           (B "012345") (B "6789")).
  - done.
  - reflexivity.
  - unfold int64_max. lia.
  - vm_compute. discriminate.
Defined.

(** What [openFile(false)] does to the files when [os.Stat] is not made to
    fail: nothing to a file that exists, and a missing file is at most
    created empty. *)
Lemma NewFileLogger_files (nm : string) (maxSz bks : Z) (e : LogEventEmitter) (w : World)
  (path : string) :
  (∀ p, fault w SysStat p = None) →
  fault (NewFileLogger nm maxSz bks e w).2 = fault w
  ∧ events (NewFileLogger nm maxSz bks e w).2 = events w
  ∧ match files w !! path with
    | Some c => files (NewFileLogger nm maxSz bks e w).2 !! path = Some c
    | None => files (NewFileLogger nm maxSz bks e w).2 !! path = None
              ∨ (path = nm ∧ files (NewFileLogger nm maxSz bks e w).2 !! path = Some [])
    end.
Proof.
  intros Hstat. unfold NewFileLogger, openFile, os_Stat, os_OpenFile_append, os_Create. simpl.
  rewrite Hstat. destruct (files w !! nm) as [c0|] eqn:Hnm.
  - destruct (fault w SysOpenAppend nm); simpl; split_and!; try done;
      destruct (files w !! path); auto.
  - destruct (fault w SysCreate nm); simpl.
    + split_and!; try done. destruct (files w !! path); auto.
    + split_and!; try done. destruct (decide (path = nm)) as [->|Hne].
      * rewrite Hnm, lookup_insert_eq. by right.
      * rewrite lookup_insert_ne by done. destruct (files w !! path); auto.
Qed.

Lemma createLogger_files (programName logFile : string) (maxBytes backups_ : Z)
  (props : gmap string string) (e : LogEventEmitter) (w : World) (path : string) :
  (∀ p, fault w SysStat p = None) →
  fault (createLogger programName logFile maxBytes backups_ props e w).2 = fault w
  ∧ events (createLogger programName logFile maxBytes backups_ props e w).2 = events w
  ∧ match files w !! path with
    | Some c => files (createLogger programName logFile maxBytes backups_ props e w).2 !! path
                = Some c
    | None => files (createLogger programName logFile maxBytes backups_ props e w).2 !! path
              = None
              ∨ (path = logFile
                 ∧ files (createLogger programName logFile maxBytes backups_ props e w).2 !! path
                   = Some [])
    end.
Proof.
  intros Hstat. unfold createLogger.
  repeat match goal with |- context [if ?b then _ else _] => destruct b end;
    try (simpl; split_and!; [done|done|destruct (files w !! path); auto]).
  pose proof (NewFileLogger_files logFile maxBytes backups_ e w path Hstat) as Hnew.
  by destruct (NewFileLogger logFile maxBytes backups_ e w).
Qed.

Lemma createLoggers_files (i : nat) (programName : string) (fs : list string)
  (maxBytes backups_ : Z) (props : gmap string string) (e : LogEventEmitter) (w : World)
  (path : string) :
  (∀ p, fault w SysStat p = None) →
  events (createLoggers i programName fs maxBytes backups_ props e w).2 = events w
  ∧ match files w !! path with
    | Some c => files (createLoggers i programName fs maxBytes backups_ props e w).2 !! path
                = Some c
    | None => files (createLoggers i programName fs maxBytes backups_ props e w).2 !! path
              = None
              ∨ (path ∈ fs
                 ∧ files (createLoggers i programName fs maxBytes backups_ props e w).2 !! path
                   = Some [])
    end.
Proof.
  revert i w. induction fs as [|f fs IH]; intros i w Hstat.
  { simpl. split; [done|]. destruct (files w !! path); auto. }
  cbn [createLoggers].
  assert (∀ e', ∃ lr w',
            createLogger programName f maxBytes backups_ props e' w = (lr, w')
            ∧ fault w' = fault w ∧ events w' = events w
            ∧ match files w !! path with
              | Some c => files w' !! path = Some c
              | None => files w' !! path = None ∨ (path = f ∧ files w' !! path = Some [])
              end) as Hone.
  { intros e'. pose proof (createLogger_files programName f maxBytes backups_ props e' w path
                             Hstat) as Hcr.
    destruct (createLogger programName f maxBytes backups_ props e' w) as [lr w'].
    by exists lr, w'. }
  assert (∃ lr w',
            match i with
            | O => createLogger programName f maxBytes backups_ props e w
            | S _ => createLogger programName f maxBytes backups_ props NullLogEventEmitter w
            end = (lr, w')
            ∧ fault w' = fault w ∧ events w' = events w
            ∧ match files w !! path with
              | Some c => files w' !! path = Some c
              | None => files w' !! path = None ∨ (path = f ∧ files w' !! path = Some [])
              end) as (lr & w' & -> & Hfault & Hev & Hfiles).
  { destruct i; apply Hone. }
  specialize (IH (S i) w'). rewrite Hfault in IH. specialize (IH Hstat).
  destruct (createLoggers (S i) programName fs maxBytes backups_ props e w') as [lrs w''].
  cbn [snd] in *. destruct IH as [Hev' Hfiles']. split; [congruence|].
  destruct (files w !! path) as [c|].
  - by rewrite Hfiles in Hfiles'.
  - destruct Hfiles as [Hnone|[-> Hsome]].
    + rewrite Hnone in Hfiles'. destruct Hfiles' as [?|[Hin ?]]; [by left|right].
      split; [by apply elem_of_cons; right|done].
    + rewrite Hsome in Hfiles'. right. split; [by apply elem_of_cons; left|done].
Qed.

(** X20: construction does not touch existing logs.  When [os.Stat] is
    not made to fail, [NewLogger] leaves every existing file with its
    content, creates no file other than the trimmed pieces of the
    destination specification, creates those empty, and notifies no
    observer. *)
Theorem NewLogger_keeps_existing_files (programName logFile : string) (maxBytes backups_ : Z)
  (props : gmap string string) (e : LogEventEmitter) (w : World) (path : string) :
  (∀ p, fault w SysStat p = None) →
  let w' := (NewLogger programName logFile maxBytes backups_ props e w).2 in
  events w' = events w
  ∧ match files w !! path with
    | Some c => files w' !! path = Some c
    | None => files w' !! path = None
              ∨ (path ∈ splitLogFile logFile ∧ files w' !! path = Some [])
    end.
Proof.
  intros Hstat. unfold NewLogger.
  pose proof (createLoggers_files 0 programName (splitLogFile logFile) maxBytes backups_ props
                e w path Hstat) as Hcr.
  by destruct (createLoggers 0 programName (splitLogFile logFile) maxBytes backups_ props e w).
Qed.

Lemma NewLogger_keeps_existing_files_witness :
  let w' := (NewLogger "prog" "a.log, b.log" 10 2 ∅ Observer (sample_world (B "old"))).2 in
  events w' = events (sample_world (B "old"))
  ∧ match files (sample_world (B "old")) !! "a.log" with
    | Some c => files w' !! "a.log" = Some c
    | None => files w' !! "a.log" = None
              ∨ ("a.log" ∈ splitLogFile "a.log, b.log" ∧ files w' !! "a.log" = Some [])
    end.
Proof.
  apply (NewLogger_keeps_existing_files "prog" "a.log, b.log" 10 2 ∅ Observer
           (sample_world (B "old")) "a.log").
  reflexivity.
Defined.

(** ** A pool without its primary sink *)

Section Promotion.
Context {L : Type} `{Logger L}.
Variable same : L → L → bool.

(** X21: [RemoveLogger] of the primary sink promotes the next sink: it
    then serves the reads and clears.  When the primary was the only sink
    the pool is empty: [Write] returns 0 and no error and [Close] no
    error, without doing anything, while [ReadLog], [ReadTailLog],
    [ClearCurLogFile] and [ClearAllLogFile] panic on index 0. *)
Theorem RemoveLogger_primary (l0 logger : L) (rest : list L) (p : bytes) (offset length_ : Z)
  (w : World) :
  same l0 logger = true →
  let cl := RemoveLogger same (NewCompositeLogger (l0 :: rest)) logger in
  loggers cl = rest
  ∧ match rest with
    | l1 :: _ =>
        CompositeLogger_ReadLog cl offset length_ w = ReadLog l1 offset length_ w
        ∧ CompositeLogger_ReadTailLog cl offset length_ w = ReadTailLog l1 offset length_ w
        ∧ (CompositeLogger_Write cl p w).1.1 = (Write l1 p w).1.1
    | [] =>
        CompositeLogger_Write cl p w = (0, None, cl, w)
        ∧ CompositeLogger_Close cl w = (None, cl)
        ∧ CompositeLogger_ReadLog cl offset length_ w = index_panic
        ∧ CompositeLogger_ReadTailLog cl offset length_ w = index_panic
        ∧ CompositeLogger_ClearCurLogFile cl w = index_panic
        ∧ CompositeLogger_ClearAllLogFile cl w = index_panic
    end.
Proof.
  intros Hsame. unfold RemoveLogger, NewCompositeLogger. cbn [loggers removeLoop].
  rewrite Hsame. split; [done|]. destruct rest as [|l1 rest]; [by split_and!|].
  split_and!; [done|done|].
  unfold CompositeLogger_Write. cbn [loggers writeLoop].
  destruct (Write l1 p w) as [[[n1 err1] l1'] w1]. by rewrite writeLoop_secondary.
Qed.
End Promotion.

Lemma RemoveLogger_primary_witness :
  let cl := RemoveLogger (λ a b, String.eqb (name a) (name b))
              (NewCompositeLogger [sample_logger 10 2]) (sample_logger 10 2) in
  loggers cl = []
  ∧ (CompositeLogger_Write cl (B "x") (sample_world []) = (0, None, cl, sample_world [])
     ∧ CompositeLogger_Close cl (sample_world []) = (None, cl)
     ∧ CompositeLogger_ReadLog cl 0 0 (sample_world []) = index_panic
     ∧ CompositeLogger_ReadTailLog cl 0 0 (sample_world []) = index_panic
     ∧ CompositeLogger_ClearCurLogFile cl (sample_world []) = index_panic
     ∧ CompositeLogger_ClearAllLogFile cl (sample_world []) = index_panic).
Proof.
  apply (RemoveLogger_primary (λ a b, String.eqb (name a) (name b))
           (sample_logger 10 2) (sample_logger 10 2) [] (B "x") 0 0 (sample_world [])).
  reflexivity.
Defined.

(** ** The configuration entry *)


Lemma string_length_app (s t : string) :
  String.length (s +:+ t) = (String.length s + String.length t)%nat.
Proof.
  induction s as [|c s IH]; [done|].
  change (String c s +:+ t) with (String c (s +:+ t)). cbn [String.length]. by rewrite IH.
Qed.

Lemma string_drop_app (s t : string) : string_drop (String.length s) (s +:+ t) = t.
Proof.
  induction s as [|c s IH]; [by destruct t|].
  change (String c s +:+ t) with (String c (s +:+ t)). cbn [String.length string_drop]. apply IH.
Qed.

Lemma string_take_app (s t : string) : string_take (String.length s) (s +:+ t) = s.
Proof.
  induction s as [|c s IH]; [by destruct t|].
  change (String c s +:+ t) with (String c (s +:+ t)). cbn [String.length string_take].
  by rewrite IH.
Qed.

Lemma prefix_string_drop (pre s : string) :
  String.prefix pre s = true ↔ s = pre +:+ string_drop (String.length pre) s.
Proof.
  revert s. induction pre as [|a pre IH]; intros s.
  { destruct s; by split. }
  destruct s as [|b s]; [by split|].
  cbn [String.prefix String.length string_drop].
  change (String a pre +:+ string_drop (String.length pre) s)
    with (String a (pre +:+ string_drop (String.length pre) s)).
  destruct (ascii_dec a b) as [->|Hne].
  - rewrite IH. split; [by intros <-|by intros [= <-]].
  - split; [done|]. by intros [= ? _].
Qed.

(** X22: the name of a section tells its kind.  A section is a program
    exactly when its name is [program:] followed by what
    [GetProgramName] returns, and likewise for event listeners and
    groups; no section is of two kinds. *)
Theorem Entry_kind_by_name (c : Entry) :
  (IsProgram c = true ↔ Name c = "program:" +:+ GetProgramName c)
  ∧ (IsEventListener c = true ↔ Name c = "eventlistener:" +:+ GetEventListenerName c)
  ∧ (IsGroup c = true ↔ Name c = "group:" +:+ GetGroupName c)
  ∧ (IsProgram c = true → IsEventListener c = false ∧ IsGroup c = false)
  ∧ (IsEventListener c = true → IsGroup c = false).
Proof.
  unfold IsProgram, GetProgramName, IsEventListener, GetEventListenerName, IsGroup,
    GetGroupName, strings_HasPrefix.
  split_and!.
  - destruct (String.prefix "program:" (Name c)) eqn:Hp.
    + by rewrite <- prefix_string_drop.
    + split; [done|]. intros Hn. rewrite Hn in Hp. done.
  - destruct (String.prefix "eventlistener:" (Name c)) eqn:Hp.
    + by rewrite <- prefix_string_drop.
    + split; [done|]. intros Hn. rewrite Hn in Hp. done.
  - destruct (String.prefix "group:" (Name c)) eqn:Hp.
    + by rewrite <- prefix_string_drop.
    + split; [done|]. intros Hn. rewrite Hn in Hp. done.
  - intros Hp. apply prefix_string_drop in Hp. rewrite Hp. by split.
  - intros Hp. apply prefix_string_drop in Hp. by rewrite Hp.
Qed.

(** *** Sizes *)

Lemma digit_pretty_N_char (m : N) : (m < 10)%N → digit (pretty_N_char m) = Some (Z.of_N m).
Proof.
  intros Hm.
  assert (m = 0 ∨ m = 1 ∨ m = 2 ∨ m = 3 ∨ m = 4 ∨ m = 5 ∨ m = 6 ∨ m = 7 ∨ m = 8 ∨ m = 9)%N
    as Hcases by lia.
  repeat (destruct Hcases as [->|Hcases]; [reflexivity|]). by subst.
Qed.

Lemma digit_not_sign (c : ascii) :
  is_Some (digit c) → Ascii.eqb c "-" = false ∧ Ascii.eqb c "+" = false.
Proof.
  intros [d Hd]. split.
  - destruct (Ascii.eqb_spec c "-") as [->|]; [by vm_compute in Hd|done].
  - destruct (Ascii.eqb_spec c "+") as [->|]; [by vm_compute in Hd|done].
Qed.

(** Reading back the digits [pretty] writes in front of [s]. *)
Lemma parse_digits_pretty_N_go (x : N) (s : string) :
  ∃ k, 0 ≤ k ∧ ∀ acc,
    parse_digits acc (pretty_N_go x s) = parse_digits (acc * 10 ^ k + Z.of_N x) s.
Proof.
  revert s. induction (N.lt_wf_0 x) as [x _ IH]; intros s.
  assert (x = 0 ∨ 0 < x)%N as [->|Hx] by lia.
  { exists 0. split; [done|]. intros acc. rewrite pretty_N_go_0. f_equal. lia. }
  rewrite pretty_N_go_step by done.
  destruct (IH (x `div` 10)%N ltac:(by apply N.div_lt)
              (String (pretty_N_char (x `mod` 10)) s)) as (k & Hk & Hparse).
  exists (k + 1). split; [lia|]. intros acc. rewrite Hparse. cbn [parse_digits].
  rewrite digit_pretty_N_char by (apply N.mod_lt; lia). f_equal.
  rewrite Z.pow_add_r, Z.pow_1_r by lia.
  pose proof (N.div_mod x 10 ltac:(lia)) as Hdm.
  apply (f_equal Z.of_N) in Hdm. rewrite N2Z.inj_add, N2Z.inj_mul in Hdm.
  change (Z.of_N 10) with 10 in Hdm. rewrite Hdm. ring.
Qed.

Lemma pretty_N_go_head (x : N) (s : string) :
  (0 < x)%N → ∃ c r, pretty_N_go x s = String c r ∧ is_Some (digit c).
Proof.
  revert s. induction (N.lt_wf_0 x) as [x _ IH]; intros s Hx.
  rewrite pretty_N_go_step by done.
  destruct (N.eq_0_gt_0_cases (x `div` 10)) as [->|Hdiv].
  - rewrite pretty_N_go_0. eexists _, _. split; [done|].
    rewrite digit_pretty_N_char by (apply N.mod_lt; lia). done.
  - apply IH; [by apply N.div_lt|done].
Qed.

(** [strconv.Atoi] reads back the decimal notation of every [int]. *)
Lemma strconv_Atoi_pretty (n : Z) : in_int64 n → strconv_Atoi (pretty n) = Some n.
Proof.
  intros Hn. destruct n as [|p|p].
  - reflexivity.
  - change (pretty (Z.pos p)) with (pretty (N.pos p)). unfold pretty, pretty_N.
    rewrite decide_False by done.
    destruct (pretty_N_go_head (N.pos p) "" ltac:(lia)) as (c & r & Hhead & Hc).
    destruct (parse_digits_pretty_N_go (N.pos p) "") as (k & _ & Hparse).
    specialize (Hparse 0). rewrite Hhead in *. unfold strconv_Atoi.
    destruct (digit_not_sign c Hc) as [-> ->]. rewrite Hparse. cbn [parse_digits].
    rewrite Z.mul_0_l, Z.add_0_l.
    unfold in_int64 in Hn.
    rewrite (proj2 (Z.leb_le _ _)), (proj2 (Z.leb_le _ _)) by lia. done.
  - change (pretty (Z.neg p)) with ("-" +:+ pretty (N.pos p)). unfold pretty, pretty_N.
    rewrite decide_False by done.
    destruct (pretty_N_go_head (N.pos p) "" ltac:(lia)) as (c & r & Hhead & Hc).
    destruct (parse_digits_pretty_N_go (N.pos p) "") as (k & _ & Hparse).
    specialize (Hparse 0). rewrite Hhead in *.
    change ("-" +:+ String c r) with (String "-" (String c r)).
    unfold strconv_Atoi. change (Ascii.eqb "-" "-") with true. cbv iota beta.
    rewrite Hparse. cbn [parse_digits]. rewrite Z.mul_0_l, Z.add_0_l.
    unfold in_int64 in Hn.
    rewrite (proj2 (Z.leb_le _ _)), (proj2 (Z.leb_le _ _)) by lia. done.
Qed.

(** What [strconv.Atoi] accepts holds digits only past its first byte. *)
Lemma parse_digits_drop (s : string) (acc : Z) (k : nat) (ch : ascii) (rest : string) :
  is_Some (parse_digits acc s) → string_drop k s = String ch rest → is_Some (digit ch).
Proof.
  revert acc k. induction s as [|c s IH]; intros acc k Hparse Hdrop.
  { by destruct k. }
  cbn [parse_digits] in Hparse. destruct (digit c) as [d|] eqn:Hd; [|by destruct Hparse].
  destruct k as [|k]; [|by apply (IH (acc * 10 + d) k)].
  cbn in Hdrop. injection Hdrop as <- _. by rewrite Hd.
Qed.

Lemma strconv_Atoi_drop (s : string) (k : nat) (ch : ascii) (rest : string) :
  is_Some (strconv_Atoi s) → string_drop (S k) s = String ch rest → is_Some (digit ch).
Proof.
  unfold strconv_Atoi. intros Hsome Hdrop. destruct s as [|c s]; [done|].
  cbn [string_drop] in Hdrop.
  assert (is_Some (parse_digits 0 s) ∨ is_Some (parse_digits 0 (String c s))) as Hparse.
  { destruct (Ascii.eqb c "-"); [|destruct (Ascii.eqb c "+")].
    - left. destruct s; [by destruct Hsome|]. by destruct (parse_digits 0 _).
    - left. destruct s; [by destruct Hsome|]. by destruct (parse_digits 0 _).
    - right. by destruct (parse_digits 0 _). }
  destruct Hparse as [Hparse|Hparse].
  - by apply (parse_digits_drop s 0 k ch rest).
  - by apply (parse_digits_drop (String c s) 0 (S k) ch rest).
Qed.

(** A number is not mistaken for a number with a unit. *)
Lemma GetBytes_number (c : Entry) (key v : string) (defValue n : Z) :
  keyValues c !! key = Some v → strconv_Atoi v = Some n →
  GetBytes c key defValue = wrap64 (n * 1).
Proof.
  intros Hkey Hatoi. unfold GetBytes. rewrite Hkey. cbv zeta.
  assert (toInt v 1 defValue = wrap64 (n * 1)) as Hplain by (unfold toInt; by rewrite Hatoi).
  destruct (2 <? String.length v)%nat eqn:Hlen; [|done].
  apply Nat.ltb_lt in Hlen.
  assert (∀ a, string_drop (String.length v - 2) v ≠ String a "B") as Hne.
  { intros a Hdrop.
    destruct (String.length v - 2)%nat as [|k] eqn:Hk; [lia|].
    assert (string_drop (S (S k)) v = "B") as Hdrop'.
    { clear -Hdrop. revert k Hdrop. induction v as [|b v IH]; intros k Hdrop; [done|].
      destruct k as [|k].
      - cbn in *. destruct v; [done|]. cbn. by injection Hdrop.
      - cbn [string_drop] in *. destruct v as [|b' v]; [done|]. by apply (IH k). }
    assert (is_Some (digit "B")) as [d Hd]; [|by vm_compute in Hd].
    apply (strconv_Atoi_drop v (S k) "B" ""); [by rewrite Hatoi|done]. }
  destruct (String.eqb_spec (string_drop (String.length v - 2) v) "MB") as [Heq|_];
    [by destruct (Hne "M"%char)|].
  destruct (String.eqb_spec (string_drop (String.length v - 2) v) "GB") as [Heq|_];
    [by destruct (Hne "G"%char)|].
  destruct (String.eqb_spec (string_drop (String.length v - 2) v) "KB") as [Heq|_];
    [by destruct (Hne "K"%char)|].
  done.
Qed.

Lemma pretty_Z_length (n : Z) : in_int64 n → (0 < String.length (pretty n))%nat.
Proof.
  intros Hn. pose proof (strconv_Atoi_pretty n Hn) as Hatoi.
  destruct (pretty n); [done|]. cbn. lia.
Qed.

(** X23: [GetBytes] reads back the decimal notation of a size: for the
    setting [key = <n><unit>], with [n] any [int] in decimal notation and
    the unit one of none, [KB], [MB] and [GB], it returns [n] times 1,
    1024, 1024^2 and 1024^3, the product wrapping around as an [int]
    product does, and never the default.  [GetInt] returns [n] for the
    setting without a unit. *)
Theorem GetBytes_decimal (c : Entry) (key : string) (defValue n : Z) (u : string) (f : Z) :
  in_int64 n →
  (u, f) ∈ byte_units →
  keyValues c !! key = Some (pretty n +:+ u) →
  GetBytes c key defValue = wrap64 (n * f)
  ∧ (u = "" → GetInt c key defValue = n).
Proof.
  intros Hn Hu Hkey. pose proof (strconv_Atoi_pretty n Hn) as Hatoi.
  pose proof (pretty_Z_length n Hn) as Hlen.
  unfold byte_units in Hu. rewrite !elem_of_cons, elem_of_nil in Hu.
  destruct Hu as [[= -> ->]|Hu].
  { rewrite string_app_empty in Hkey. split.
    - by apply (GetBytes_number c key (pretty n)).
    - intros _. unfold GetInt, toInt. rewrite Hkey, Hatoi, Z.mul_1_r. by apply wrap64_id. }
  split; [|by destruct Hu as [[= -> _]|[[= -> _]|[[= -> _]|[]]]]].
  unfold GetBytes. rewrite Hkey. cbv zeta.
  assert (String.length u = 2%nat) as Hlu
    by (by destruct Hu as [[= -> _]|[[= -> _]|[[= -> _]|[]]]]).
  rewrite string_length_app, Hlu.
  rewrite (proj2 (Nat.ltb_lt _ _)) by lia.
  replace (String.length (pretty n) + 2 - 2)%nat with (String.length (pretty n)) by lia.
  rewrite string_drop_app, string_take_app. unfold toInt. rewrite Hatoi.
  by destruct Hu as [[= -> ->]|[[= -> ->]|[[= -> ->]|[]]]].
Qed.

Lemma GetBytes_decimal_witness :
  GetBytes (sample_entry "program:web" "stdout_logfile_maxbytes" "50MB")
    "stdout_logfile_maxbytes" 7 = wrap64 (50 * (1024 * 1024))
  ∧ ("MB" = "" →
     GetInt (sample_entry "program:web" "stdout_logfile_maxbytes" "50MB")
       "stdout_logfile_maxbytes" 7 = 50).
Proof.
  apply (GetBytes_decimal (sample_entry "program:web" "stdout_logfile_maxbytes" "50MB")
           "stdout_logfile_maxbytes" 7 50 "MB" (1024 * 1024)).
  - unfold in_int64, int64_min, int64_max. lia.
  - unfold byte_units. rewrite !elem_of_cons. right. right. by left.
  - reflexivity.
Defined.

Lemma parse_digits_last (r : string) (ch : ascii) (acc : Z) :
  digit ch = None → parse_digits acc (r +:+ String ch "") = None.
Proof.
  intros Hch. revert acc. induction r as [|a r IH]; intros acc.
  - change ("" +:+ String ch "") with (String ch ""). cbn [parse_digits]. by rewrite Hch.
  - change (String a r +:+ String ch "") with (String a (r +:+ String ch "")).
    cbn [parse_digits]. destruct (digit a); [apply IH|done].
Qed.

Lemma strconv_Atoi_last (r : string) (ch : ascii) :
  digit ch = None → strconv_Atoi (r +:+ String ch "") = None.
Proof.
  intros Hch. unfold strconv_Atoi. destruct r as [|a r].
  - change ("" +:+ String ch "") with (String ch ""). cbv beta iota.
    destruct (Ascii.eqb ch "-"); [reflexivity|]. destruct (Ascii.eqb ch "+"); [reflexivity|].
    cbn [parse_digits]. by rewrite Hch.
  - change (String a r +:+ String ch "") with (String a (r +:+ String ch "")).
    pose proof (parse_digits_last r ch 0 Hch) as Hr.
    pose proof (parse_digits_last (String a r) ch 0 Hch) as Har.
    change (String a r +:+ String ch "") with (String a (r +:+ String ch "")) in Har.
    cbv beta iota.
    destruct (Ascii.eqb a "-"); [|destruct (Ascii.eqb a "+")].
    + rewrite Hr. by destruct (r +:+ String ch "").
    + rewrite Hr. by destruct (r +:+ String ch "").
    + by rewrite Har.
Qed.

Lemma string_drop_last (r : string) (ch : ascii) (k : nat) (u : string) :
  string_drop k (r +:+ String ch "") = u → String.length u = 2%nat →
  ∃ a, u = String a (String ch "").
Proof.
  revert k. induction r as [|a r IH]; intros k Hdrop Hlen.
  - change ("" +:+ String ch "") with (String ch "") in Hdrop.
    destruct k as [|[|k]]; cbn in Hdrop; by subst.
  - change (String a r +:+ String ch "") with (String a (r +:+ String ch "")) in Hdrop.
    destruct k as [|k]; [|by apply (IH k)].
    cbn in Hdrop. subst u. cbn in Hlen. injection Hlen as Hlen.
    destruct r as [|b r].
    + by exists a.
    + change (String b r +:+ String ch "") with (String b (r +:+ String ch "")) in Hlen.
      cbn in Hlen. injection Hlen as Hlen. rewrite string_length_app in Hlen. cbn in Hlen. lia.
Qed.

(** X24: [GetBytes] falls back on the default.  It returns the default
    for a missing key and for every value whose last byte is neither a
    digit nor [B]: units in lower case, a lone [M], [K] or [G], a
    fraction sign or a trailing blank are not read as sizes. *)
Theorem GetBytes_default (c : Entry) (key : string) (defValue : Z) :
  keyValues c !! key = None
  ∨ (∃ r ch, keyValues c !! key = Some (r +:+ String ch "")
             ∧ digit ch = None ∧ ch ≠ "B"%char) →
  GetBytes c key defValue = defValue.
Proof.
  intros [Hkey|(r & ch & Hkey & Hch & HB)].
  { unfold GetBytes. by rewrite Hkey. }
  unfold GetBytes. rewrite Hkey. cbv zeta.
  assert (toInt (r +:+ String ch "") 1 defValue = defValue) as Hplain.
  { unfold toInt. by rewrite strconv_Atoi_last. }
  destruct (2 <? String.length (r +:+ String ch ""))%nat; [|done].
  assert (∀ a, string_drop (String.length (r +:+ String ch "") - 2) (r +:+ String ch "")
               ≠ String a "B") as Hne.
  { intros a Hdrop.
    destruct (string_drop_last r ch _ _ Hdrop eq_refl) as (a' & Heq).
    injection Heq as _ Hb. by apply HB. }
  destruct (String.eqb_spec (string_drop (String.length (r +:+ String ch "") - 2)
                               (r +:+ String ch "")) "MB") as [Heq|_];
    [by destruct (Hne "M"%char)|].
  destruct (String.eqb_spec (string_drop (String.length (r +:+ String ch "") - 2)
                               (r +:+ String ch "")) "GB") as [Heq|_];
    [by destruct (Hne "G"%char)|].
  destruct (String.eqb_spec (string_drop (String.length (r +:+ String ch "") - 2)
                               (r +:+ String ch "")) "KB") as [Heq|_];
    [by destruct (Hne "K"%char)|].
  done.
Qed.

Lemma GetBytes_default_witness :
  GetBytes (sample_entry "program:web" "stdout_logfile_maxbytes" "50mb")
    "stdout_logfile_maxbytes" 7 = 7.
Proof.
  apply (GetBytes_default (sample_entry "program:web" "stdout_logfile_maxbytes" "50mb")
           "stdout_logfile_maxbytes" 7).
  right. exists "50m", "b"%char. split_and!; [reflexivity|reflexivity|discriminate].
Defined.

(** A size of [2^34] gigabytes wraps around to 0, the threshold at which
    every write rotates. *)
Example scenario_size_wraps :
  GetBytes (sample_entry "program:web" "stdout_logfile_maxbytes" "17179869184GB")
    "stdout_logfile_maxbytes" 7 = 0.
Proof. by vm_compute. Qed.

(** *** [parseEnv] *)


Lemma string_app_cons (a : ascii) (s t : string) : String a s +:+ t = String a (s +:+ t).
Proof. done. Qed.

Lemma string_app_assoc (s t u : string) : (s +:+ t) +:+ u = s +:+ (t +:+ u).
Proof. induction s as [|a s IH]; [done|]. by rewrite !string_app_cons, IH. Qed.

(** Lengths of concatenations. *)
Ltac string_len :=
  repeat (rewrite string_length_app || cbn [String.length] in * ); try lia.

Lemma string_get_app (pre : string) (c : ascii) (r : string) :
  String.get (String.length pre) (pre +:+ String c r) = Some c.
Proof. induction pre as [|a pre IH]; [done|]. rewrite string_app_cons. apply IH. Qed.

Lemma string_get_ge (s : string) (n : nat) : (String.length s ≤ n)%nat → String.get n s = None.
Proof.
  revert n. induction s as [|a s IH]; intros n Hn; [done|].
  destruct n as [|n]; cbn in *; [lia|]. apply IH. lia.
Qed.

Lemma string_get_lt (s : string) (n : nat) (c : ascii) :
  String.get n s = Some c → (n < String.length s)%nat.
Proof.
  intros Hget. destruct (Nat.lt_ge_cases n (String.length s)) as [|Hge]; [done|].
  by rewrite string_get_ge in Hget.
Qed.

Lemma string_drop_all (s : string) (n : nat) :
  (String.length s ≤ n)%nat → string_drop n s = "".
Proof.
  revert n. induction s as [|a s IH]; intros n Hn; [by destruct n|].
  destruct n as [|n]; cbn in *; [lia|]. apply IH. lia.
Qed.

Lemma find_byte_stop (c : ascii) (x r : string) :
  count_byte c x = 0%nat → find_byte c (x +:+ String c r) = String.length x.
Proof.
  induction x as [|a x IH]; intros Hx.
  - change ("" +:+ String c r) with (String c r). cbn [find_byte String.length].
    by rewrite Ascii.eqb_refl.
  - rewrite string_app_cons. cbn [find_byte count_byte String.length] in *.
    destruct (Ascii.eqb a c); [done|]. by rewrite IH.
Qed.

Lemma find_byte_end (c : ascii) (x : string) :
  count_byte c x = 0%nat → find_byte c x = String.length x.
Proof.
  induction x as [|a x IH]; intros Hx; [done|].
  cbn [find_byte count_byte String.length] in *.
  destruct (Ascii.eqb a c); [done|]. by rewrite IH.
Qed.

Lemma scan_stop (c : ascii) (pre x r : string) :
  count_byte c x = 0%nat →
  scan c (pre +:+ (x +:+ String c r)) (String.length pre)
  = (String.length pre + String.length x)%nat.
Proof. intros Hx. unfold scan. by rewrite string_drop_app, find_byte_stop. Qed.

Lemma scan_end (c : ascii) (pre x : string) :
  count_byte c x = 0%nat →
  scan c (pre +:+ x) (String.length pre) = (String.length pre + String.length x)%nat.
Proof. intros Hx. unfold scan. by rewrite string_drop_app, find_byte_end. Qed.

Lemma slice_app (pre x r : string) :
  slice (pre +:+ (x +:+ r)) (String.length pre) (String.length pre + String.length x) = x.
Proof.
  unfold slice. rewrite string_drop_app.
  replace (String.length pre + String.length x - String.length pre)%nat
    with (String.length x) by lia.
  apply string_take_app.
Qed.

(** Past the end of [s] the loop panics at [s[start]]. *)
Lemma parseEnv_loop_at_end (fuel : nat) (s : string) (start : nat) (result : gmap string string) :
  (String.length s ≤ start)%nat →
  parseEnv_loop (S fuel) s start result = Some (Panic "index out of range").
Proof.
  intros Hstart. cbn [parseEnv_loop]. cbv zeta.
  rewrite string_get_ge; [done|]. unfold scan. lia.
Qed.

(** The prefix before a setting, the key and the [=]. *)
Lemma parseEnv_loop_key (fuel : nat) (pre k body : string) (result : gmap string string) :
  count_byte "=" k = 0%nat →
  scan "=" (pre +:+ (k +:+ String "=" body)) (String.length pre)
  = (String.length pre + String.length k)%nat
  ∧ slice (pre +:+ (k +:+ String "=" body)) (String.length pre)
      (String.length pre + String.length k) = k
  ∧ pre +:+ (k +:+ String "=" body) = (pre +:+ (k +:+ "=")) +:+ body
  ∧ String.length (pre +:+ (k +:+ "=")) = (String.length pre + String.length k + 1)%nat.
Proof.
  intros Hk. split_and!.
  - by apply scan_stop.
  - apply slice_app.
  - rewrite !string_app_assoc. done.
  - rewrite !string_length_app. cbn. lia.
Qed.

(** A bare setting followed by a comma: the loop stores it and goes on
    behind the comma. *)
Lemma parseEnv_loop_bare_next (fuel : nat) (pre k v rest : string)
  (result : gmap string string) :
  wf_pair (k, false, v) →
  parseEnv_loop (S fuel) (pre +:+ (render_pair (k, false, v) +:+ String "," rest))
    (String.length pre) result
  = parseEnv_loop fuel (pre +:+ (render_pair (k, false, v) +:+ String "," rest))
      (String.length (pre +:+ (render_pair (k, false, v) +:+ ",")))
      (<[strings_TrimSpace k := strings_TrimSpace v]> result).
Proof.
  intros (Hk & Hv & Hq). cbn [render_pair].
  rewrite (string_app_assoc k), string_app_cons.
  destruct (parseEnv_loop_key fuel pre k (v +:+ String "," rest) result Hk)
    as (Hscan & Hkey & Hs & HP).
  cbn [parseEnv_loop]. cbv zeta. rewrite Hscan, Hkey. rewrite Hs.
  set (P := pre +:+ (k +:+ "=")) in *.
  replace (String.length pre + String.length k + 1)%nat with (String.length P) by lia.
  assert (∃ c, String.get (String.length P) (P +:+ (v +:+ String "," rest)) = Some c
               ∧ Ascii.eqb c quote = false) as (c & -> & ->).
  { destruct v as [|a v].
    - exists ","%char. split; [apply string_get_app|done].
    - exists a. rewrite string_app_cons. split; [apply string_get_app|].
      apply Ascii.eqb_neq. intros ->. by apply Hq. }
  rewrite (scan_stop "," P v rest Hv).
  rewrite (proj2 (Nat.ltb_lt _ _))
    by (rewrite !string_length_app; cbn [String.length]; lia).
  rewrite slice_app. f_equal. string_len.
Qed.

(** A bare setting with a value at the end of the string: the loop
    stores it and returns. *)
Lemma parseEnv_loop_bare_last (fuel : nat) (pre k v : string) (result : gmap string string) :
  wf_pair (k, false, v) → v ≠ "" →
  parseEnv_loop (S fuel) (pre +:+ render_pair (k, false, v)) (String.length pre) result
  = Some (Ret (<[strings_TrimSpace k := strings_TrimSpace v]> result)).
Proof.
  intros (Hk & Hv & Hq) Hne. cbn [render_pair].
  destruct (parseEnv_loop_key fuel pre k v result Hk) as (Hscan & Hkey & Hs & HP).
  cbn [parseEnv_loop]. cbv zeta. rewrite Hscan, Hkey. rewrite Hs.
  set (P := pre +:+ (k +:+ "=")) in *.
  replace (String.length pre + String.length k + 1)%nat with (String.length P) by lia.
  destruct v as [|a v]; [done|].
  rewrite string_get_app.
  assert (Ascii.eqb a quote = false) as ->.
  { apply Ascii.eqb_neq. intros ->. by apply Hq. }
  rewrite (scan_end "," P (String a v) Hv).
  rewrite (proj2 (Nat.ltb_ge _ _)) by (rewrite !string_length_app; lia).
  by rewrite string_drop_app.
Qed.

(** A quoted setting: the loop stores it, and goes on behind a comma
    that follows the closing quote, or returns at the end of the string. *)
Lemma parseEnv_loop_quoted (fuel : nat) (pre k v tail : string) (result : gmap string string) :
  wf_pair (k, true, v) →
  parseEnv_loop (S fuel) (pre +:+ (render_pair (k, true, v) +:+ tail))
    (String.length pre) result
  = match tail with
    | EmptyString => Some (Ret (<[strings_TrimSpace k := strings_TrimSpace v]> result))
    | String c rest =>
        if Ascii.eqb c ","
        then parseEnv_loop fuel (pre +:+ (render_pair (k, true, v) +:+ tail))
               (String.length (pre +:+ (render_pair (k, true, v) +:+ ",")))
               (<[strings_TrimSpace k := strings_TrimSpace v]> result)
        else Some (Ret (<[strings_TrimSpace k := strings_TrimSpace v]> result))
    end.
Proof.
  intros (Hk & Hv). cbn [render_pair].
  rewrite (string_app_assoc k), !string_app_cons, (string_app_assoc v), string_app_cons.
  change ("" +:+ tail) with tail.
  destruct (parseEnv_loop_key fuel pre k (String quote (v +:+ String quote tail)) result Hk)
    as (Hscan & Hkey & Hs & HP).
  cbn [parseEnv_loop]. cbv zeta. rewrite Hscan, Hkey.
  set (s := pre +:+ (k +:+ String "=" (String quote (v +:+ String quote tail)))) in *.
  set (P := pre +:+ (k +:+ "=")) in *.
  replace (String.length pre + String.length k + 1)%nat with (String.length P) by lia.
  assert (s = (P +:+ String quote "") +:+ (v +:+ String quote tail)) as Hs'.
  { rewrite Hs. by rewrite string_app_assoc. }
  assert (String.length (P +:+ String quote "") = (String.length P + 1)%nat) as HP'.
  { rewrite string_length_app. cbn. lia. }
  assert (String.get (String.length P) s = Some quote) as ->.
  { rewrite Hs. apply string_get_app. }
  rewrite Ascii.eqb_refl.
  assert (scan quote s (String.length P + 1)
          = (String.length P + 1 + String.length v)%nat) as ->.
  { rewrite Hs', <- HP'. by apply scan_stop. }
  assert (String.length s = (String.length P + 1 + String.length v + 1 + String.length tail)%nat)
    as Hlen.
  { rewrite Hs'. string_len. }
  rewrite (proj2 (Nat.ltb_lt (String.length P + 1 + String.length v) (String.length s)))
    by lia.
  assert (slice s (String.length P + 1) (String.length P + 1 + String.length v) = v) as ->.
  { rewrite Hs', <- HP'. apply slice_app. }
  assert (s = ((P +:+ String quote "") +:+ (v +:+ String quote "")) +:+ tail) as Hs''.
  { rewrite Hs'. rewrite !string_app_assoc. done. }
  assert (String.length ((P +:+ String quote "") +:+ (v +:+ String quote ""))
          = (String.length P + 1 + String.length v + 1)%nat) as HP''.
  { string_len. }
  destruct tail as [|c rest]; cbn [String.length] in Hlen.
  - rewrite (proj2 (Nat.ltb_ge _ _)) by lia. done.
  - rewrite (proj2 (Nat.ltb_lt _ _)) by lia.
    assert (String.get (String.length P + 1 + String.length v + 1) s = Some c) as ->.
    { rewrite Hs'' at 1. rewrite <- HP''. apply string_get_app. }
    destruct (Ascii.eqb_spec c ",") as [->|Hc].
    + rewrite bool_decide_eq_true_2 by done. cbn [andb]. f_equal. string_len.
    + rewrite bool_decide_eq_false_2 by (intros [= ?]; done). done.
Qed.

(** A well-formed setting followed by a comma: the loop stores it and
    goes on behind the comma. *)
Lemma parseEnv_loop_next (fuel : nat) (pre : string) (p : env_pair) (rest : string)
  (result : gmap string string) :
  wf_pair p →
  parseEnv_loop (S fuel) (pre +:+ (render_pair p +:+ String "," rest)) (String.length pre) result
  = parseEnv_loop fuel ((pre +:+ (render_pair p +:+ ",")) +:+ rest)
      (String.length (pre +:+ (render_pair p +:+ ",")))
      (env_map [p] result).
Proof.
  intros Hwf.
  assert ((pre +:+ (render_pair p +:+ ",")) +:+ rest
          = pre +:+ (render_pair p +:+ String "," rest)) as ->.
  { by rewrite !string_app_assoc. }
  destruct p as [[k [|]] v].
  - rewrite (parseEnv_loop_quoted fuel pre k v (String "," rest) result Hwf).
    by rewrite Ascii.eqb_refl.
  - by rewrite (parseEnv_loop_bare_next fuel pre k v rest result Hwf).
Qed.

(** A well-formed last setting: the loop stores it and returns. *)
Lemma parseEnv_loop_last (fuel : nat) (pre : string) (p : env_pair)
  (result : gmap string string) :
  wf_pair p → wf_last p →
  parseEnv_loop (S fuel) (pre +:+ render_pair p) (String.length pre) result
  = Some (Ret (env_map [p] result)).
Proof.
  intros Hwf Hlast. destruct p as [[k [|]] v].
  - pose proof (parseEnv_loop_quoted fuel pre k v "" result Hwf) as Hq.
    by rewrite string_app_empty in Hq.
  - apply parseEnv_loop_bare_last; [done|by apply Hlast].
Qed.

(** Text without [=]: the loop panics at [s[start]]. *)
Lemma parseEnv_loop_junk (fuel : nat) (pre junk : string) (result : gmap string string) :
  count_byte "=" junk = 0%nat →
  parseEnv_loop (S fuel) (pre +:+ junk) (String.length pre) result
  = Some (Panic "index out of range").
Proof.
  intros Hjunk. cbn [parseEnv_loop]. cbv zeta. rewrite scan_end by done.
  rewrite string_get_ge; [done|]. string_len.
Qed.

Lemma env_map_cons (p : env_pair) (ps : list env_pair) (m : gmap string string) :
  env_map (p :: ps) m = env_map ps (env_map [p] m).
Proof. done. Qed.

Lemma parseEnv_loop_pairs (ps : list env_pair) :
  ps ≠ [] → Forall wf_pair ps → (∀ p, last ps = Some p → wf_last p) →
  ∀ pre fuel result, (length ps ≤ fuel)%nat →
    parseEnv_loop fuel (pre +:+ render_env ps) (String.length pre) result
    = Some (Ret (env_map ps result)).
Proof.
  induction ps as [|p ps IH]; [done|]. intros _ Hwf Hlast pre fuel result Hfuel.
  apply Forall_cons in Hwf as [Hp Hps].
  destruct fuel as [|fuel]; [cbn in Hfuel; lia|].
  destruct ps as [|p' ps].
  - apply parseEnv_loop_last; [done|]. by apply Hlast.
  - change (render_env (p :: p' :: ps))
      with (render_pair p +:+ String "," (render_env (p' :: ps))).
    rewrite parseEnv_loop_next by done. rewrite env_map_cons.
    apply IH; [done|done|done|cbn in *; lia].
Qed.

Lemma parseEnv_loop_pairs_junk (ps : list env_pair) (junk : string) :
  ps ≠ [] → Forall wf_pair ps → count_byte "=" junk = 0%nat →
  ∀ pre fuel result, (length ps < fuel)%nat →
    parseEnv_loop fuel (pre +:+ (render_env ps +:+ String "," junk)) (String.length pre) result
    = Some (Panic "index out of range").
Proof.
  induction ps as [|p ps IH]; [done|]. intros _ Hwf Hjunk pre fuel result Hfuel.
  apply Forall_cons in Hwf as [Hp Hps].
  destruct fuel as [|fuel]; [lia|].
  destruct ps as [|p' ps].
  - cbn [render_env]. rewrite parseEnv_loop_next by done.
    destruct fuel as [|fuel]; [cbn in Hfuel; lia|]. by apply parseEnv_loop_junk.
  - change (render_env (p :: p' :: ps))
      with (render_pair p +:+ String "," (render_env (p' :: ps))).
    rewrite string_app_assoc, string_app_cons.
    rewrite parseEnv_loop_next by done.
    apply IH; [done|done|done|cbn in *; lia].
Qed.

Lemma render_pair_length (p : env_pair) : (1 ≤ String.length (render_pair p))%nat.
Proof. destruct p as [[k q] v]. cbn [render_pair]. string_len. Qed.

Lemma render_env_length (ps : list env_pair) :
  (length ps ≤ String.length (render_env ps))%nat.
Proof.
  induction ps as [|p ps IH]; [done|]. pose proof (render_pair_length p).
  destruct ps as [|p' ps]; [cbn in *; lia|].
  change (render_env (p :: p' :: ps))
    with (render_pair p +:+ String "," (render_env (p' :: ps))).
  rewrite string_length_app. cbn [String.length length] in *. lia.
Qed.

Lemma scan_ge (c : ascii) (s : string) (start : nat) : (start ≤ scan c s start)%nat.
Proof. unfold scan. lia. Qed.

(** The loop of [parseEnv] has no bound of its own; it ends on every
    input, because [start] grows with every iteration. *)
Lemma parseEnv_loop_terminates (fuel : nat) (s : string) (start : nat)
  (result : gmap string string) :
  (start ≤ String.length s)%nat → (String.length s + 2 ≤ fuel + start)%nat →
  is_Some (parseEnv_loop fuel s start result).
Proof.
  revert start result. induction fuel as [|fuel IH]; intros start result Hstart Hfuel; [lia|].
  cbn [parseEnv_loop]. cbv zeta.
  destruct (String.get (scan "=" s start + 1) s) as [c|] eqn:Hget; [|done].
  apply string_get_lt in Hget.
  pose proof (scan_ge "=" s start) as Hscan.
  destruct (Ascii.eqb c quote).
  - match goal with |- context [if ?b then _ else _] => destruct b eqn:Hb end; [|done].
    apply andb_true_iff in Hb as [Hlt _]. apply Nat.ltb_lt in Hlt.
    pose proof (scan_ge quote s (scan "=" s start + 1 + 1)).
    apply IH; lia.
  - destruct (scan "," s (scan "=" s start + 1) <? String.length s)%nat eqn:Hlt; [|done].
    apply Nat.ltb_lt in Hlt.
    pose proof (scan_ge "," s (scan "=" s start + 1)).
    apply IH; lia.
Qed.

(** X25: [parseEnv] reads back an environment string.  For settings
    [key=value] and [key="value"] joined by commas (no [=] in a key, no
    double quote in a quoted value, no comma in a bare value, which does
    not start with a double quote and is not empty when it is the last) it
    returns the map from the trimmed keys to the trimmed values, the later
    of two settings of a key winning. *)
Theorem parseEnv_render (ps : list env_pair) :
  ps ≠ [] → Forall wf_pair ps → (∀ p, last ps = Some p → wf_last p) →
  parseEnv (render_env ps) = Some (Ret (env_map ps ∅)).
Proof.
  intros Hne Hwf Hlast. unfold parseEnv.
  apply (parseEnv_loop_pairs ps Hne Hwf Hlast "").
  pose proof (render_env_length ps). lia.
Qed.

(** X26: [parseEnv] panics on an index out of range, whatever was read
    before, when the string holds no [=] at all (the empty string
    included), and when well-formed settings are followed by a comma and
    text without [=] (a trailing comma included). *)
Theorem parseEnv_panics (s : string) :
  count_byte "=" s = 0%nat
  ∨ (∃ ps junk, ps ≠ [] ∧ Forall wf_pair ps ∧ count_byte "=" junk = 0%nat
                ∧ s = render_env ps +:+ String "," junk) →
  parseEnv s = Some (Panic "index out of range").
Proof.
  intros [Hs|(ps & junk & Hne & Hwf & Hjunk & ->)]; unfold parseEnv.
  - rewrite Nat.add_succ_r. by apply (parseEnv_loop_junk _ "" s).
  - apply (parseEnv_loop_pairs_junk ps junk Hne Hwf Hjunk "").
    pose proof (render_env_length ps). string_len.
Qed.

(** X27: the loop of [parseEnv], which has no bound of its own, ends on
    every input: the call returns a map or panics. *)
Theorem parseEnv_terminates (s : string) :
  ∃ r, parseEnv s = Some r.
Proof. apply parseEnv_loop_terminates; lia. Qed.

Lemma parseEnv_render_witness :
  parseEnv (render_env [("A", true, "env 1"); (" B", false, "this is a test ")])
  = Some (Ret (env_map [("A", true, "env 1"); (" B", false, "this is a test ")] ∅)).
Proof.
  apply (parseEnv_render [("A", true, "env 1"); (" B", false, "this is a test ")]).
  - done.
  - repeat constructor; discriminate.
  - intros p [= <-] _. discriminate.
Defined.

Lemma parseEnv_panics_witness :
  parseEnv (render_env [("A", false, "1")] +:+ String "," "") = Some (Panic "index out of range").
Proof.
  apply (parseEnv_panics (render_env [("A", false, "1")] +:+ String "," "")).
  right. exists [("A", false, "1")], "". split_and!; [done| |done|done].
  repeat constructor. discriminate.
Defined.

(** *** [toRegexp] *)

Lemma strings_Replace_app (s t : string) (old : ascii) (new : string) :
  strings_Replace (s +:+ t) old new = strings_Replace s old new +:+ strings_Replace t old new.
Proof.
  induction s as [|a s IH]; [done|].
  rewrite string_app_cons. cbn [strings_Replace]. by rewrite IH, string_app_assoc.
Qed.

(** The two replacements on a piece without dots. *)
Lemma toRegexp_piece (c : ascii) (piece : string) :
  Ascii.eqb c "." = false →
  strings_Replace (strings_Replace (String c piece) "*" ".*") "?" "."
  = regexp_of_byte c +:+ strings_Replace (strings_Replace piece "*" ".*") "?" ".".
Proof.
  intros Hc. cbn [strings_Replace]. rewrite strings_Replace_app. f_equal.
  unfold regexp_of_byte. rewrite Hc.
  destruct (Ascii.eqb_spec c "*") as [->|Hstar]; [done|].
  change ("" +:+ ?x) with x. cbn [strings_Replace].
  by destruct (Ascii.eqb c "?").
Qed.

(** X28: [toRegexp] rewrites the pattern byte by byte: a dot becomes an
    escaped dot, [*] becomes [.*], [?] becomes [.], and every other byte
    stays as it is, the other metacharacters of regular expressions and
    the backslash included. *)
Theorem toRegexp_bytewise (pattern : string) :
  toRegexp pattern = string_flat_map regexp_of_byte pattern.
Proof.
  unfold toRegexp, strings_Split. cbv zeta.
  induction pattern as [|c pattern IH]; [done|].
  cbn [split_pieces string_flat_map].
  destruct (split_pieces "." pattern) as [piece pieces].
  rewrite <- IH. clear IH.
  destruct (Ascii.eqb c ".") eqn:Hc.
  - unfold regexp_of_byte. rewrite Hc. rewrite !fmap_cons. cbn [strings_Join strings_Replace].
    by destruct (_ <$> pieces).
  - rewrite !fmap_cons. rewrite toRegexp_piece by done.
    cbn [strings_Join]. destruct (_ <$> pieces); [done|].
    by rewrite string_app_assoc.
Qed.
